(** * Conversation watchers: log-file source and key-value source

    A shallow embedding of the two watchers of this repository,

    - [src/extract_msg.ts]: tails the [.jsonl] transcripts under the projects
      directory ([findConversationFiles], [extractAllMessages],
      [watchConversations]);
    - [src/extract_cursor.mjs]: polls the conversations of the key-value
      store ([loadConversations], [watchCursorConversations]).

    Both are JavaScript programs that work on values produced by
    [JSON.parse], so the embedding starts with the fragment of the language
    they rely on: values, truthiness, property access, iteration and the
    string methods they call.  A string is kept as the bytes of its UTF-8
    encoding, which is how the transcripts hold their text and what a file
    offset counts; where JavaScript counts or compares UTF-16 code units
    ([length], [substring], [sort]) the embedding goes through [code_units].
    [toLowerCase] follows the Unicode case tables and is taken from the
    runtime, like [JSON.parse].  One pass of a watcher's [while (true)] body
    is a function from the watcher's state and what the file system (or the
    store) shows during that pass to the new state and the messages
    printed. *)

From Stdlib Require Import ZArith NArith Ascii.
From Stdlib Require String.
From stdpp Require Import base decidable countable strings list sorting gmap.

#[local] Set Warnings "-register-all,-clear-no-such-hyp".

(** ** JavaScript values *)

Module JS.

(** Numbers are IEEE binary64 values other than NaN ([JSON.parse] never
    yields NaN): [(-1)^neg * m * 2^e], or an infinity. *)
Inductive number :=
  | NumFinite (neg : bool) (m : N) (e : Z)
  | NumInfinity (neg : bool).

#[global] Instance number_eq_dec : EqDecision number.
Proof. solve_decision. Defined.

#[global] Instance number_countable : Countable number.
Proof.
  refine (inj_countable'
    (λ n, match n with
          | NumFinite s m e => inl (s, m, e)
          | NumInfinity s => inr s
          end)
    (λ x, match x with
          | inl (s, m, e) => NumFinite s m e
          | inr s => NumInfinity s
          end) _).
  by intros [].
Defined.

Fixpoint strip_twos (p : positive) (e : Z) : positive * Z :=
  match p with
  | xO p' => strip_twos p' (e + 1)
  | _ => (p, e)
  end.

(** The canonical representative of a number: odd mantissa, and one zero
    (JavaScript's [===] and the [Set] membership test do not tell [-0] from
    [+0]). *)
Definition num_norm (n : number) : number :=
  match n with
  | NumFinite _ N0 _ => NumFinite false 0 0
  | NumFinite s (Npos p) e =>
      let '(p', e') := strip_twos p e in NumFinite s (Npos p') e'
  | NumInfinity s => NumInfinity s
  end.

Definition num_is_zero (n : number) : bool :=
  match n with NumFinite _ N0 _ => true | _ => false end.

(** [n > 0] *)
Definition num_positive (n : number) : bool :=
  match n with
  | NumFinite s m _ => negb s && negb (N.eqb m 0)
  | NumInfinity s => negb s
  end.

Definition num_of_nat (n : nat) : number := NumFinite false (N.of_nat n) 0.

Definition num_eqb (a b : number) : bool := bool_decide (num_norm a = num_norm b).

(** A value: what [JSON.parse] returns, and [undefined] for what a property
    access finds missing.  An object keeps its members in source order. *)
Inductive jsval :=
  | VUndefined
  | VNull
  | VBool (b : bool)
  | VNum (n : number)
  | VStr (s : string)
  | VArr (items : list jsval)
  | VObj (members : list (string * jsval)).

(** [ToBoolean] *)
Definition truthy (v : jsval) : bool :=
  match v with
  | VUndefined | VNull => false
  | VBool b => b
  | VNum n => negb (num_is_zero n)
  | VStr s => negb (bool_decide (s = ""))
  | VArr _ | VObj _ => true
  end.

(** [a || b] *)
Definition js_or (a b : jsval) : jsval := if truthy a then a else b.

(** The member of an object literal that [JSON.parse] keeps for a key: the
    last one with that key. *)
Fixpoint obj_lookup (k : string) (members : list (string * jsval)) : option jsval :=
  match members with
  | [] => None
  | (k', v) :: rest =>
      match obj_lookup k rest with
      | Some w => Some w
      | None => if bool_decide (k' = k) then Some v else None
      end
  end.

(** ** UTF-16 code units

    [length], [slice], [substring] and the order of [Array.prototype.sort]
    count and compare the UTF-16 code units of a string. *)

(** The six low bits of a continuation byte. *)
Definition continuation (c : ascii) : N := (N_of_ascii c mod 64)%N.

(** A code point of the supplementary planes takes two code units. *)
Definition units_of_code_point (p : N) : list N :=
  if (p <? 65536)%N then [p]
  else [55296 + (p - 65536) / 1024; 56320 + (p - 65536) mod 1024]%N.

(** The code units of the string whose UTF-8 bytes are [s], for bytes that
    are well-formed UTF-8; a sequence that the end of [s] cuts short reads as
    U+FFFD. *)
Fixpoint code_units (s : string) : list N :=
  match s with
  | EmptyString => []
  | String a s1 =>
      let x := N_of_ascii a in
      if (x <? 128)%N then x :: code_units s1
      else
        match s1 with
        | String b s2 =>
            if (x <? 224)%N then
              (x mod 32 * 64 + continuation b)%N :: code_units s2
            else
              match s2 with
              | String c s3 =>
                  if (x <? 240)%N then
                    ((x mod 16 * 64 + continuation b) * 64 + continuation c)%N
                    :: code_units s3
                  else
                    match s3 with
                    | String d s4 =>
                        units_of_code_point
                          (((x mod 8 * 64 + continuation b) * 64
                            + continuation c) * 64 + continuation d)%N
                        ++ code_units s4
                    | EmptyString => [65533%N]
                    end
              | EmptyString => [65533%N]
              end
        | EmptyString => [65533%N]
        end
  end.

(** [v.k] for the property names the two programs use.  [None] is the
    [TypeError] raised when [v] is [undefined] or [null].  Strings and arrays
    have a [length]; no other name used by the programs is a property of a
    primitive or of an array. *)
Definition get_prop (v : jsval) (k : string) : option jsval :=
  match v with
  | VUndefined | VNull => None
  | VObj members => Some (default VUndefined (obj_lookup k members))
  | VStr s =>
      Some (if bool_decide (k = "length")
            then VNum (num_of_nat (length (code_units s)))
            else VUndefined)
  | VArr items =>
      Some (if bool_decide (k = "length") then VNum (num_of_nat (length items))
            else VUndefined)
  | VBool _ | VNum _ => Some VUndefined
  end.

(** [v === "s"] *)
Definition is_string (v : jsval) (s : string) : bool :=
  match v with VStr s' => bool_decide (s' = s) | _ => false end.

(** The characters of a string, each as a string: a [for ... of] loop
    over a string goes by code points. *)
Fixpoint chars_of (s : string) : list jsval :=
  match s with
  | EmptyString => []
  | String a s1 =>
      let x := N_of_ascii a in
      if (x <? 128)%N then VStr (String a "") :: chars_of s1
      else
        match s1 with
        | String b s2 =>
            if (x <? 224)%N then VStr (String a (String b "")) :: chars_of s2
            else
              match s2 with
              | String c s3 =>
                  if (x <? 240)%N then
                    VStr (String a (String b (String c ""))) :: chars_of s3
                  else
                    match s3 with
                    | String d s4 =>
                        VStr (String a (String b (String c (String d ""))))
                        :: chars_of s4
                    | EmptyString => [VStr s]
                    end
              | EmptyString => [VStr s]
              end
        | EmptyString => [VStr s]
        end
  end.

(** The values a [for (const x of v)] loop visits; [None] is the [TypeError]
    for a value that is not iterable. *)
Definition iterate (v : jsval) : option (list jsval) :=
  match v with
  | VArr items => Some items
  | VStr s => Some (chars_of s)
  | _ => None
  end.

(** ** Strings *)

(** The white space that [trim] removes, by the bytes that encode it: TAB,
    LF, VT, FF, CR and SP in one byte; U+00A0 in two; U+1680, U+2000 to
    U+200A, U+2028, U+2029, U+202F, U+205F, U+3000 and U+FEFF in three. *)
Definition is_white_space (c : ascii) : bool :=
  let x := N_of_ascii c in
  ((9 <=? x) && (x <=? 13) || (x =? 32))%N.

Definition is_white_space2 (a b : ascii) : bool :=
  (N_of_ascii a =? 194)%N && (N_of_ascii b =? 160)%N.

Definition is_white_space3 (a b c : ascii) : bool :=
  let x := N_of_ascii a in
  let y := N_of_ascii b in
  let z := N_of_ascii c in
  ((x =? 225) && (y =? 154) && (z =? 128) ||
   (x =? 226) && (y =? 128) &&
     ((128 <=? z) && (z <=? 138) || (z =? 168) || (z =? 169) || (z =? 175)) ||
   (x =? 226) && (y =? 129) && (z =? 159) ||
   (x =? 227) && (y =? 128) && (z =? 128) ||
   (x =? 239) && (y =? 187) && (z =? 191))%N.

(** What is left of [s] once the characters at its head that [one], [two]
    and [three] recognise, by their bytes, have been removed. *)
Fixpoint strip (one : ascii → bool) (two : ascii → ascii → bool)
    (three : ascii → ascii → ascii → bool) (s : string) : string :=
  match s with
  | String a s1 =>
      if one a then strip one two three s1
      else
        match s1 with
        | String b s2 =>
            if two a b then strip one two three s2
            else
              match s2 with
              | String c s3 =>
                  if three a b c then strip one two three s3 else s
              | EmptyString => s
              end
        | EmptyString => s
        end
  | EmptyString => s
  end.

(** [s] without the character at its head, if [one], [two] or [three]
    recognises it. *)
Definition strip_one (one : ascii → bool) (two : ascii → ascii → bool)
    (three : ascii → ascii → ascii → bool) (s : string) : option string :=
  match s with
  | String a s1 =>
      if one a then Some s1
      else
        match s1 with
        | String b s2 =>
            if two a b then Some s2
            else
              match s2 with
              | String c s3 => if three a b c then Some s3 else None
              | EmptyString => None
              end
        | EmptyString => None
        end
  | EmptyString => None
  end.

Definition trim_start (s : string) : string :=
  strip is_white_space is_white_space2 is_white_space3 s.

(** The white space at the end of [s] is at the head of [s] reversed, each
    character with its bytes in reverse. *)
Definition trim_end (s : string) : string :=
  String.rev
    (strip is_white_space (λ a b, is_white_space2 b a)
       (λ a b c, is_white_space3 c b a) (String.rev s)).

(** [s.trim()] *)
Definition trim (s : string) : string := trim_end (trim_start s).

(** Whether [s] has only white space. *)
Fixpoint blank (s : string) : bool :=
  match s with
  | String a s1 =>
      if is_white_space a then blank s1
      else
        match s1 with
        | String b s2 =>
            if is_white_space2 a b then blank s2
            else
              match s2 with
              | String c s3 => is_white_space3 a b c && blank s3
              | EmptyString => false
              end
        | EmptyString => false
        end
  | EmptyString => true
  end.

(** A text that is not empty and that [trim] leaves as it is. *)
Definition trimmed (t : string) : Prop := t ≠ "" ∧ trim t = t.

(** [s.startsWith(p)] *)
Definition startsWith (s p : string) : bool := String.prefix p s.

(** [s.endsWith(p)] *)
Definition endsWith (s p : string) : bool :=
  String.prefix (String.rev p) (String.rev s).

(** [s.includes(p)] *)
Fixpoint includes (s p : string) : bool :=
  String.prefix p s ||
  match s with
  | EmptyString => false
  | String _ s' => includes s' p
  end.

(** [s.split(sep)] for a one-character separator. *)
Fixpoint split_go (sep : ascii) (cur : string) (s : string) : list string :=
  match s with
  | EmptyString => [String.rev cur]
  | String c s' =>
      if bool_decide (c = sep) then String.rev cur :: split_go sep EmptyString s'
      else split_go sep (String c cur) s'
  end.

Definition split (s : string) (sep : ascii) : list string :=
  split_go sep EmptyString s.

(** The first [n] bytes of [s]. *)
Fixpoint take_chars (n : nat) (s : string) : string :=
  match n, s with
  | S n', String c s' => String c (take_chars n' s')
  | _, _ => EmptyString
  end.

(** The bytes of [s] from offset [n] on. *)
Fixpoint drop_chars (n : nat) (s : string) : string :=
  match n, s with
  | S n', String _ s' => drop_chars n' s'
  | _, _ => s
  end.

(** The bytes that stand for the code unit [u]: itself below 80 (hex), its
    UTF-8 encoding above. *)
Definition code_unit_bytes (u : N) : list ascii :=
  if (u <? 128)%N then [ascii_of_N u]
  else if (u <? 2048)%N then
    [ascii_of_N (192 + u / 64); ascii_of_N (128 + u mod 64)]
  else
    [ascii_of_N (224 + u / 4096); ascii_of_N (128 + (u / 64) mod 64);
     ascii_of_N (128 + u mod 64)].

Definition prepend (cs : list ascii) (s : string) : string :=
  foldr String s cs.

(** [s.slice(0, n)]: the first [n] code units of [s].  A character of the
    supplementary planes is two code units; when only the first of them is
    taken, it is what is left of the character. *)
Fixpoint take_units (n : nat) (s : string) : string :=
  match n, s with
  | S n1, String a s1 =>
      let x := N_of_ascii a in
      if (x <? 128)%N then String a (take_units n1 s1)
      else
        match s1 with
        | String b s2 =>
            if (x <? 224)%N then String a (String b (take_units n1 s2))
            else
              match s2 with
              | String c s3 =>
                  if (x <? 240)%N then
                    String a (String b (String c (take_units n1 s3)))
                  else
                    match s3 with
                    | String d s4 =>
                        match n1 with
                        | S n2 =>
                            String a (String b (String c (String d
                              (take_units n2 s4))))
                        | O =>
                            prepend
                              (code_unit_bytes
                                 (hd 0%N
                                    (units_of_code_point
                                       (((x mod 8 * 64 + continuation b) * 64
                                         + continuation c) * 64
                                        + continuation d)%N)))
                              ""
                        end
                    | EmptyString => s
                    end
              | EmptyString => s
              end
        | EmptyString => s
        end
  | _, _ => EmptyString
  end.

(** The order of two sequences of code units: the first unit that differs
    decides, and a sequence comes before those it begins. *)
Fixpoint units_le (a b : list N) : bool :=
  match a, b with
  | [], _ => true
  | _ :: _, [] => false
  | x :: a', y :: b' => (x <? y)%N || (x =? y)%N && units_le a' b'
  end.

(** The order in which [Array.prototype.sort], without a comparator, puts
    two strings. *)
Definition code_unit_le (a b : string) : Prop :=
  units_le (code_units a) (code_units b) = true.

#[global] Instance code_unit_le_dec a b : Decision (code_unit_le a b).
Proof. unfold code_unit_le. apply _. Defined.

(** [text.split(sep)] on code units, for a separator of one unit. *)
Fixpoint split_units (sep : N) (text : list N) : list (list N) :=
  match text with
  | [] => [[]]
  | u :: rest =>
      if (u =? sep)%N then [] :: split_units sep rest
      else
        match split_units sep rest with
        | line :: lines => (u :: line) :: lines
        | [] => [[u]]
        end
  end.

(** ** Identity of values

    A [Set] tells its members apart with SameValueZero: primitives by value,
    arrays and objects by reference.  [JSON.parse] builds fresh arrays and
    objects at each call and shares none, so the reference of a parsed array
    or object is a number that a watcher's model gives it when the watcher
    meets it. *)
Inductive ident :=
  | IdUndefined
  | IdNull
  | IdBool (b : bool)
  | IdNum (n : number)
  | IdStr (s : string)
  | IdRef (r : nat).

#[global] Instance ident_eq_dec : EqDecision ident.
Proof. solve_decision. Defined.

#[global] Instance ident_countable : Countable ident.
Proof.
  refine (inj_countable'
    (λ i, match i with
          | IdUndefined => inl (inl false)
          | IdNull => inl (inl true)
          | IdBool b => inl (inr b)
          | IdNum n => inr (inl n)
          | IdStr s => inr (inr (inl s))
          | IdRef r => inr (inr (inr r))
          end)
    (λ x, match x with
          | inl (inl false) => IdUndefined
          | inl (inl true) => IdNull
          | inl (inr b) => IdBool b
          | inr (inl n) => IdNum n
          | inr (inr (inl s)) => IdStr s
          | inr (inr (inr r)) => IdRef r
          end) _).
  by intros [].
Defined.

(** The identity of [v], when [r] is the number given to [v]. *)
Definition ident_of (r : nat) (v : jsval) : ident :=
  match v with
  | VUndefined => IdUndefined
  | VNull => IdNull
  | VBool b => IdBool b
  | VNum n => IdNum (num_norm n)
  | VStr s => IdStr s
  | VArr _ | VObj _ => IdRef r
  end.

(** A value that is not an array or an object has the same identity
    wherever it comes from. *)
Definition is_primitive (v : jsval) : bool :=
  match v with
  | VArr _ | VObj _ => false
  | _ => true
  end.

(** ** What the programs take from the runtime

    [JSON_parse s] is [None] when [JSON.parse(s)] throws.  [coerce_positive v]
    is the outcome of [v > 0] for a string, an array or an object, which
    JavaScript first converts to a number.  [toLowerCase s] is
    [s.toLowerCase()], which follows the case mappings of Unicode. *)
Class Runtime := {
  JSON_parse : string → option jsval;
  coerce_positive : jsval → bool;
  toLowerCase : string → string;
}.

(** [v > 0] *)
Definition greater_than_zero `{Runtime} (v : jsval) : bool :=
  match v with
  | VUndefined | VNull => false
  | VBool b => b
  | VNum n => num_positive n
  | VStr _ | VArr _ | VObj _ => coerce_positive v
  end.

End JS.

Import JS.

(** ** The log-file source ([src/extract_msg.ts]) *)

Module LogSource.

(** [Message.type] *)
Inductive role := User | Assistant.

#[global] Instance role_eq_dec : EqDecision role.
Proof. solve_decision. Defined.

Record Message := {
  type : role;
  text : string;
  timestamp : jsval;
  id : ident;
}.

(** *** The directory tree seen by [findConversationFiles] *)

(** An entry of a directory: its name and what [fs.statSync] says of it.  A
    directory carries what [fs.readdirSync] returns for it, or [None] when
    that call throws. *)
Inductive entry :=
  | EFile (name : string)
  | EDir (name : string) (listing : option (list entry))
  | EBroken (name : string).

(** One step of [normalizeString], for the segment [seg]; [res] holds the
    segments kept so far, the last one first.  An empty segment and [.] are
    dropped; [..] removes the last segment kept, unless there is none or it
    is [..] itself: then [..] is kept in a relative path and dropped in an
    absolute one. *)
Definition push_segment (allowAboveRoot : bool) (res : list string)
    (seg : string) : list string :=
  if bool_decide (seg = "" ∨ seg = ".") then res
  else if bool_decide (seg = "..") then
    match res with
    | kept :: rest =>
        if bool_decide (kept = "..") then
          if allowAboveRoot then seg :: res else res
        else rest
    | [] => if allowAboveRoot then [seg] else []
    end
  else seg :: res.

Fixpoint join_segments (segs : list string) : string :=
  match segs with
  | [] => ""
  | [seg] => seg
  | seg :: rest => seg +:+ "/" +:+ join_segments rest
  end.

(** [path.normalize(path)], for POSIX paths. *)
Definition path_normalize (path : string) : string :=
  if bool_decide (path = "") then "."
  else
    let isAbsolute := startsWith path "/" in
    let trailingSeparator := endsWith path "/" in
    let body :=
      join_segments
        (rev (foldl (push_segment (negb isAbsolute)) [] (split path "/"%char))) in
    if bool_decide (body = "") then
      if isAbsolute then "/" else if trailingSeparator then "./" else "."
    else
      (if isAbsolute then "/" else "") +:+ body
      +:+ (if trailingSeparator then "/" else "").

(** [path.join(...args)]: the arguments that are not empty, with a
    separator between them, normalized; [.] when there is none. *)
Definition path_join_all (args : list string) : string :=
  match filter (λ arg, arg ≠ "") args with
  | [] => "."
  | parts => path_normalize (join_segments parts)
  end.

(** [path.join(dir, file)] *)
Definition path_join (dir file : string) : string := path_join_all [dir; file].

(** [path.basename(dir)] *)
Definition path_basename (dir : string) : string :=
  default "" (last (filter (λ seg, seg ≠ "") (split dir "/"%char))).

(** [convFiles]: a [Map] from the parent directory's name to the paths found
    under it, in insertion order. *)
Definition ConvFiles := list (string * list string).

Fixpoint conv_get (m : ConvFiles) (parent : string) : option (list string) :=
  match m with
  | [] => None
  | (k, files) :: rest =>
      if decide (k = parent) then Some files else conv_get rest parent
  end.

(** [if (!convFiles.has(parent)) convFiles.set(parent, []);
     convFiles.get(parent)!.push(fullPath)] *)
Fixpoint conv_push (parent fullPath : string) (m : ConvFiles) : ConvFiles :=
  match m with
  | [] => [(parent, [fullPath])]
  | (k, files) :: rest =>
      if decide (k = parent) then (k, files ++ [fullPath]) :: rest
      else (k, files) :: conv_push parent fullPath rest
  end.

(** [Array.from(convFiles.keys())] *)
Definition conv_keys (m : ConvFiles) : list string := m.*1.

Section Walk.
Context `{Runtime}.

(** [projectFilter && !parent.toLowerCase().includes(projectFilter.toLowerCase())] *)
Definition filtered_out (projectFilter : option string) (parent : string) : bool :=
  match projectFilter with
  | None => false
  | Some f =>
      negb (bool_decide (f = "")) &&
      negb (includes (toLowerCase parent) (toLowerCase f))
  end.

(** The [for (const file of files)] loop of [walkDir]: [step] handles one
    entry and is [None] when it throws, which leaves the loop (the [catch]
    of [walkDir] ignores the error). *)
Definition walk_files (step : entry → ConvFiles → option ConvFiles)
    : list entry → ConvFiles → ConvFiles :=
  fix loop files acc :=
    match files with
    | [] => acc
    | file :: rest =>
        match step file acc with
        | None => acc
        | Some acc' => loop rest acc'
        end
    end.

Fixpoint walkEntry (projectFilter : option string) (dir : string) (file : entry)
    (acc : ConvFiles) : option ConvFiles :=
  match file with
  | EBroken _ => None
  | EDir name listing =>
      Some match listing with
           | None => acc
           | Some files =>
               walk_files (walkEntry projectFilter (path_join dir name)) files acc
           end
  | EFile name =>
      Some (if endsWith name ".jsonl" then
              let parent := path_basename dir in
              if filtered_out projectFilter parent then acc
              else conv_push parent (path_join dir name) acc
            else acc)
  end.

Definition walkDir (projectFilter : option string) (dir : string)
    (listing : option (list entry)) (acc : ConvFiles) : ConvFiles :=
  match listing with
  | None => acc
  | Some files => walk_files (walkEntry projectFilter dir) files acc
  end.

Definition findConversationFiles (projectsDir : string)
    (projectFilter : option string) (root : option (list entry)) : ConvFiles :=
  walkDir projectFilter projectsDir root [].

End Walk.

(** *** Reading a file *)

(** What the file system shows of one path during one pass of the loop:
    [size] is [fs.statSync(filePath).size] ([None] when [statSync] throws),
    [bytes] the content that [fs.createReadStream] reads, and [fault] is
    [Some k] when the stream fails after it has delivered [k] bytes from
    where it was opened.  The three are independent: a file may change
    between the read and the stat. *)
Record FileView := {
  size : option nat;
  bytes : string;
  fault : option nat;
}.

Definition LF : ascii := "010"%char.
Definition CR : ascii := "013"%char.

(** [readline]: the complete lines of [s] (ended by LF, CR LF or CR) and the
    characters after the last line end.  [cur] holds the current line,
    reversed. *)
Fixpoint read_lines (cur : string) (s : string) : list string * string :=
  match s with
  | EmptyString => ([], String.rev cur)
  | String c s' =>
      if decide (c = LF) then
        let '(lines, pending) := read_lines EmptyString s' in
        (String.rev cur :: lines, pending)
      else if decide (c = CR) then
        match s' with
        | String c' s'' =>
            if decide (c' = LF) then
              let '(lines, pending) := read_lines EmptyString s'' in
              (String.rev cur :: lines, pending)
            else
              let '(lines, pending) := read_lines EmptyString s' in
              (String.rev cur :: lines, pending)
        | EmptyString => ([String.rev cur], EmptyString)
        end
      else read_lines (String c cur) s'
  end.

(** The lines that [for await (const line of rl)] yields for a stream opened
    at offset [start]: when the stream ends, [readline] also yields what
    follows the last line end, if it is not empty; when the stream fails, the
    loop gets the lines completed so far and then the error. *)
Definition stream_lines (v : FileView) (start : nat) : list string :=
  let rest := drop_chars start (bytes v) in
  match fault v with
  | Some k => (read_lines EmptyString (take_chars k rest)).1
  | None =>
      let '(lines, pending) := read_lines EmptyString rest in
      if decide (pending = "") then lines else lines ++ [pending]
  end.

(** *** [extractAllMessages] *)

Section Extract.
Context `{Runtime}.

(** [item.type === "text"] and then [item.text?.trim() || ""].  The outer
    [None] is a [TypeError] ([item] is [null], or [item.text] has no [trim]
    method); [Some None] is an item that is not a text item. *)
Definition item_text (item : jsval) : option (option string) :=
  ty ← get_prop item "type";
  if is_string ty "text" then
    t ← get_prop item "text";
    match t with
    | VUndefined | VNull => Some (Some "")
    | VStr s => Some (Some (trim s))
    | VBool _ | VNum _ | VArr _ | VObj _ => None
    end
  else Some None.

Definition keep_user (text : string) : bool :=
  negb (bool_decide (text = "")) &&
  negb (startsWith text "<") &&
  negb (startsWith text "This may or may not").

Definition keep_assistant (text : string) : bool :=
  negb (bool_decide (text = "")).

(** The [for (const item of content)] loop: the messages pushed, up to the
    end of [content] or to the first item that throws. *)
Fixpoint push_items (keep : string → bool) (mk : string → Message)
    (content : list jsval) : list Message :=
  match content with
  | [] => []
  | item :: rest =>
      match item_text item with
      | None => []
      | Some None => push_items keep mk rest
      | Some (Some text) =>
          if keep text then mk text :: push_items keep mk rest
          else push_items keep mk rest
      end
  end.

Definition content_messages (keep : string → bool) (mk : string → Message)
    (message : jsval) : option (list Message) :=
  content ← get_prop message "content";
  Some match iterate (js_or content (VArr [])) with
       | None => []
       | Some items => push_items keep mk items
       end.

(** The body of the inner [try] for one parsed line; [r] numbers the parse
    that produced [data].  An exception leaves the messages pushed before
    it in place. *)
Definition record_messages (r : nat) (data : jsval) : list Message :=
  default [] (
    agentId ← get_prop data "agentId";
    if truthy agentId then Some [] else
    ty ← get_prop data "type";
    message ← get_prop data "message";
    stamp ← get_prop data "timestamp";
    uuid ← get_prop data "uuid";
    let mk role text :=
      {| type := role; text := text;
         timestamp := js_or stamp (VStr "");
         id := ident_of r (js_or uuid (VStr "")) |} in
    if is_string ty "user" && truthy message then
      content_messages keep_user (mk User) message
    else if is_string ty "assistant" && truthy message then
      content_messages keep_assistant (mk Assistant) message
    else Some []).

Definition line_messages (r : nat) (line : string) : list Message :=
  match JSON_parse line with
  | None => []
  | Some data => record_messages r data
  end.

Fixpoint lines_messages (r : nat) (lines : list string) : list Message :=
  match lines with
  | [] => []
  | line :: rest => line_messages r line ++ lines_messages (S r) rest
  end.

(** [extractAllMessages(filePath, lastPos)]; [v] is what the file system
    shows of [filePath], [parses] the number of lines parsed before this call.
    A missing [lastPos] opens the stream at offset 0.  The [catch] around
    the loop ignores a read error, so the messages pushed before it are
    returned. *)
Definition extractAllMessages (v : FileView) (lastPos : option nat)
    (parses : nat) : list Message :=
  lines_messages parses (stream_lines v (default 0 lastPos)).

(** *** [watchConversations] *)

(** The variables of [watchConversations], and [parses]: the number of
    lines handed to [JSON.parse] so far.  [parses] is not a variable of the
    program; it numbers the objects that the parser has built. *)
Record State := {
  seenResponses : gmap string (gset ident);
  filePositions : gmap string nat;
  initialLoad : bool;
  parses : nat;
}.

Definition initial : State :=
  {| seenResponses := ∅; filePositions := ∅; initialLoad := true; parses := 0 |}.

(** One message printed: the project it is printed under, the message, and
    the file it was read from (which the program does not print). *)
Record Emitted := {
  project : string;
  filePath : string;
  message : Message;
}.

(** What one pass of the loop sees. *)
Record Env := {
  root : option (list entry);
  view : string → FileView;
}.

(** [filePositions.set(filePath, fs.statSync(filePath).size)] inside
    [try { } catch { }] *)
Definition record_size (v : FileView) (path : string)
    (positions : gmap string nat) : gmap string nat :=
  match size v with
  | Some n => <[path := n]> positions
  | None => positions
  end.

(** The [for (const message of messages)] loop: the updated [seen] set and
    the messages printed. *)
Fixpoint display (seen : gset ident) (messages : list Message)
    : gset ident * list Message :=
  match messages with
  | [] => (seen, [])
  | m :: rest =>
      if decide (id m ∈ seen) then display seen rest
      else
        let '(seen', out) := display ({[ id m ]} ∪ seen) rest in
        (seen', m :: out)
  end.

(** The body of [for (const filePath of files)]. *)
Definition visit_file (env : Env) (proj path : string) (st : State)
    : State * list Emitted :=
  let v := view env path in
  match filePositions st !! path with
  | None =>
      ({| seenResponses := seenResponses st;
          filePositions := record_size v path (filePositions st);
          initialLoad := initialLoad st;
          parses := parses st |}, [])
  | Some lastPos =>
      let lines := stream_lines v lastPos in
      let messages := extractAllMessages v (Some lastPos) (parses st) in
      let seen := default ∅ (seenResponses st !! path) in
      let '(seen', out) := display seen messages in
      ({| seenResponses := <[path := seen']> (seenResponses st);
          filePositions := record_size v path (filePositions st);
          initialLoad := initialLoad st && bool_decide (out = []);
          parses := parses st + length lines |},
       (λ m, {| project := proj; filePath := path; message := m |}) <$> out)
  end.

Fixpoint visit_files (env : Env) (proj : string) (files : list string)
    (st : State) : State * list Emitted :=
  match files with
  | [] => (st, [])
  | path :: rest =>
      let '(st1, out1) := visit_file env proj path st in
      let '(st2, out2) := visit_files env proj rest st1 in
      (st2, out1 ++ out2)
  end.

(** The body of [for (const project of projects)]. *)
Fixpoint visit_projects (env : Env) (convFiles : ConvFiles)
    (projects : list string) (st : State) : State * list Emitted :=
  match projects with
  | [] => (st, [])
  | proj :: rest =>
      let files := default [] (conv_get convFiles proj) in
      let '(st1, out1) := visit_files env proj files st in
      let '(st2, out2) := visit_projects env convFiles rest st1 in
      (st2, out1 ++ out2)
  end.

(** [Array.prototype.sort] without a comparator, on strings: by their
    UTF-16 code units. *)
Definition sort_strings (l : list string) : list string :=
  merge_sort code_unit_le l.

(** [setTimeout(resolve, 100)] *)
Definition POLL_INTERVAL_MS : nat := 100.

(** What one pass produces: the new state, the messages printed, and the
    time the loop then sleeps. *)
Record Pass := {
  state : State;
  emitted : list Emitted;
  sleep_ms : nat;
}.

(** One pass of the [while (true)] body. *)
Definition tick (projectsDir : string) (projectFilter : option string)
    (env : Env) (st : State) : Pass :=
  let convFiles := findConversationFiles projectsDir projectFilter (root env) in
  let st0 :=
    if initialLoad st && bool_decide (convFiles = []) then
      {| seenResponses := seenResponses st;
         filePositions := filePositions st;
         initialLoad := false;
         parses := parses st |}
    else st in
  let projects := sort_strings (conv_keys convFiles) in
  let '(st1, out) := visit_projects env convFiles projects st0 in
  {| state := st1; emitted := out; sleep_ms := POLL_INTERVAL_MS |}.

(** The passes of the [while (true)] loop over what the file system shows at
    each of them: the final state and the messages of each pass. *)
Fixpoint passes (projectsDir : string) (projectFilter : option string)
    (envs : list Env) (st : State) : State * list (list Emitted) :=
  match envs with
  | [] => (st, [])
  | env :: rest =>
      let p := tick projectsDir projectFilter env st in
      let '(st', outs) := passes projectsDir projectFilter rest (state p) in
      (st', emitted p :: outs)
  end.

(** [process.env.HOME || process.env.USERPROFILE || ""] joined with
    [.claude] and [projects]. *)
Definition getProjectsDir (HOME USERPROFILE : option string) : string :=
  let home := default "" (if decide (default "" HOME = "") then USERPROFILE else HOME) in
  path_join_all [home; ".claude"; "projects"].

(** [watchConversations(projectFilter)], run for as many passes as [envs]
    has elements.  [None] is [process.exit(1)], when the projects directory
    does not exist ([dirExists] is [fs.existsSync(projectsDir)]).  The
    [compact] argument changes the layout of what is printed, not the
    messages. *)
Definition watchConversations (HOME USERPROFILE : option string)
    (dirExists : bool) (projectFilter : option string) (envs : list Env)
    : option (State * list (list Emitted)) :=
  if dirExists then
    Some (passes (getProjectsDir HOME USERPROFILE) projectFilter envs initial)
  else None.

(** The identifiers marked for a file, and the pair that identifies a
    printed message: the file it was read from and its identifier. *)
Definition seen_of (st : State) (path : string) : gset ident :=
  default ∅ (seenResponses st !! path).

Definition seen (st : State) (k : string * ident) : Prop :=
  k.2 ∈ seen_of st k.1.

Definition key (e : Emitted) : string * ident :=
  (filePath e, id (message e)).

(** The messages of a pass that were read from [path]. *)
Definition from_file (path : string) (out : list Emitted) : list Message :=
  message <$> filter (λ e, filePath e = path) out.

(** The files that a pass visits, in order. *)
Definition visited (projectsDir : string) (projectFilter : option string)
    (env : Env) : list string :=
  let convFiles := findConversationFiles projectsDir projectFilter (root env) in
  sort_strings (conv_keys convFiles) ≫= λ proj, default [] (conv_get convFiles proj).

(** The order on cursors: no cursor comes before any cursor. *)
Definition cursor_le (a b : option nat) : Prop :=
  match a, b with
  | None, _ => True
  | Some x, Some y => x ≤ y
  | Some _, None => False
  end.

(** The sizes that the passes are told for [path]. *)
Definition sizes (path : string) (envs : list Env) : list nat :=
  omap (λ env, size (view env path)) envs.

(** The cursor of [path] after each pass. *)
Fixpoint cursors (projectsDir : string) (projectFilter : option string)
    (path : string) (envs : list Env) (st : State) : list (option nat) :=
  match envs with
  | [] => []
  | env :: rest =>
      let st' := state (tick projectsDir projectFilter env st) in
      filePositions st' !! path :: cursors projectsDir projectFilter path rest st'
  end.

End Extract.

(** *** [formatResponse] *)

(** The width that [formatResponse] wraps at: [maxWidth] when it is given
    and not zero, otherwise [process.stdout.columns - 4], or 100 when the
    terminal has no [columns] (or reading it throws). *)
Definition effective_width (maxWidth columns : option Z) : Z :=
  let fallback :=
    match columns with
    | Some c => if (c =? 0)%Z then 100%Z else (c - 4)%Z
    | None => 100%Z
    end in
  match maxWidth with
  | Some w => if (w =? 0)%Z then fallback else w
  | None => fallback
  end.

(** The [while (currentLine.length > maxWidth)] loop and the [push] after
    it, for one line, on the code units of the line.  [substring] reads a
    negative bound as 0.  The loop has no bound of its own: [fuel] bounds the
    number of its iterations, and [None] means that it has not ended within
    that number. *)
Fixpoint wrap (fuel : nat) (maxWidth : Z) (currentLine : list N)
    : option (list (list N)) :=
  if (maxWidth <? Z.of_nat (length currentLine))%Z then
    match fuel with
    | O => None
    | S fuel' =>
        rest ← wrap fuel' maxWidth (drop (Z.to_nat maxWidth) currentLine);
        Some (take (Z.to_nat maxWidth) currentLine :: rest)
    end
  else Some [currentLine].

Fixpoint wrap_all (fuel : nat) (maxWidth : Z) (lines : list (list N))
    : option (list (list N)) :=
  match lines with
  | [] => Some []
  | line :: rest =>
      first ← wrap fuel maxWidth line;
      others ← wrap_all fuel maxWidth rest;
      Some (first ++ others)
  end.

(** The code unit of a line feed. *)
Definition LF_unit : N := 10.

(** [formatResponse(text, maxWidth)], on a terminal with the given
    [columns]; [text] is given by its code units, and so are the lines
    returned. *)
Definition formatResponse (fuel : nat) (text : list N)
    (maxWidth columns : option Z) : option (list (list N)) :=
  wrap_all fuel (effective_width maxWidth columns) (split_units LF_unit text).

(** [formatted.join("")]: the lines one after the other. *)
Definition joined (lines : list (list N)) : list N := concat lines.

(** [text] without its line feeds. *)
Definition without_LF (text : list N) : list N :=
  filter (λ u, u ≠ LF_unit) text.

(** *** Paths as the file system gives them *)





(** What is appended to a transcript: [written lines] is the text of the
    lines, each followed by a line feed; a line is [unbroken] when it holds
    no line feed and no carriage return. *)
Fixpoint unbroken (line : string) : bool :=
  match line with
  | EmptyString => true
  | String c rest =>
      negb (bool_decide (c = LF)) && negb (bool_decide (c = CR)) && unbroken rest
  end.

Definition written (lines : list string) : string :=
  foldr (λ line rest, line +:+ String LF rest) "" lines.


(** *** The notice of an empty projects directory *)

Section Notice.
Context `{Runtime}.

(** [initialLoad && convFiles.size === 0]: whether a pass prints
    [No conversations found. Waiting...]. *)
Definition notice (projectsDir : string) (projectFilter : option string)
    (env : Env) (st : State) : bool :=
  initialLoad st &&
  bool_decide (findConversationFiles projectsDir projectFilter (root env) = []).

(** Whether each of the passes prints the notice. *)
Fixpoint notices (projectsDir : string) (projectFilter : option string)
    (envs : list Env) (st : State) : list bool :=
  match envs with
  | [] => []
  | env :: rest =>
      notice projectsDir projectFilter env st
      :: notices projectsDir projectFilter rest
           (state (tick projectsDir projectFilter env st))
  end.

End Notice.

End LogSource.

(** ** The key-value source ([src/extract_cursor.mjs]) *)

Module KvSource.

(** A row of [cursorDiskKV]. *)
Record Row := {
  key : string;
  value : string;
}.

(** The outcome of [db.prepare(bubbleQuery).get()]: an exception, no row, or
    the [value] column of the row. *)
Inductive Fetched :=
  | Throws
  | NoRow
  | Found (value : string).

(** What the store shows during one pass of the loop: whether
    [new Database(dbPath, { readonly: true })] succeeds, the rows that the
    query of [loadConversations] returns ([None] when it throws), and the
    outcome of the bubble query, which depends on the store and on the
    [bubbleId] spliced into the query text. *)
Record Database := {
  opens : bool;
  composerRows : option (list Row);
  bubbleRow : jsval → Fetched;
}.

(** An element of the array that [loadConversations] returns. *)
Record Conversation := {
  id : jsval;
  name : jsval;
  headers : jsval;
  lastUpdated : jsval;
}.

(** One message printed: the conversation it is printed under, the role
    ([headerType === 1]), the text, and the bubble it comes from (which the
    program does not print).  In the compact layout the program prints the
    first 100 characters of the first line of the text. *)
Record Emitted := {
  conversation : Conversation;
  isUser : bool;
  text : string;
  bubbleId : ident;
}.

Section Watch.
Context `{Runtime}.

(** [row.key.split(':')[1]] *)
Definition composer_id (k : string) : jsval :=
  match split k ":"%char !! 1%nat with
  | Some s => VStr s
  | None => VUndefined
  end.

(** [composerData.name || `Conversation ${composerId.slice(0, 8)}`]; [None]
    is the [TypeError] of [slice] on [undefined]. *)
Definition conversation_name (composerData_name composerId : jsval)
    : option jsval :=
  if truthy composerData_name then Some composerData_name
  else
    match composerId with
    | VStr s => Some (VStr ("Conversation " +:+ take_units 8 s))
    | _ => None
    end.

(** The body of the [try] for one row of [loadConversations]: the
    conversation pushed, if any; the outer [None] is an exception. *)
Definition load_row (row : Row) : option (option Conversation) :=
  composerData ← JSON_parse (value row);
  let composerId := composer_id (key row) in
  hs ← get_prop composerData "fullConversationHeadersOnly";
  let headers := js_or hs (VArr []) in
  len ← get_prop headers "length";
  if greater_than_zero len then
    nm ← get_prop composerData "name";
    name ← conversation_name nm composerId;
    updated ← get_prop composerData "lastUpdatedAt";
    created ← get_prop composerData "createdAt";
    Some (Some {| id := composerId; name := name; headers := headers;
                  lastUpdated := js_or updated created |})
  else Some None.

(** [loadConversations(db)] *)
Definition loadConversations (db : Database) : list Conversation :=
  match composerRows db with
  | None => []
  | Some rows =>
      omap (λ row, default None (load_row row)) rows
  end.

(** The variables of [watchCursorConversations], and [visits]: the number of
    headers visited so far, which is not a variable of the program. *)
Record State := {
  seenBubbles : gset ident;
  lastCheck : nat;
  visits : nat;
}.

Definition initial : State :=
  {| seenBubbles := ∅; lastCheck := 0; visits := 0 |}.

Definition one : number := NumFinite false 1 0.

(** [headerType === 1] *)
Definition is_one (v : jsval) : bool :=
  match v with VNum n => num_eqb n one | _ => false end.

(** The inner [try] of the loop: the text to print for a bubble not seen
    before, if any. *)
Definition bubble_text (db : Database) (bubble_id : jsval) : option string :=
  match bubbleRow db bubble_id with
  | Throws | NoRow => None
  | Found v =>
      bubble ← JSON_parse v;
      t ← get_prop bubble "text";
      match js_or t (VStr "") with
      | VStr text =>
          if bool_decide (trim text = "") then None else Some text
      | _ => None
      end
  end.

(** The outcome of a loop: the state it leaves, what it printed, and whether
    it ran to its end ([false]: an exception left it). *)
Definition Outcome : Type := State * list Emitted * bool.

(** The body of [for (const header of conversation.headers)].  The headers
    visited are numbered: a [bubbleId] that is an array or an object is a
    fresh one at each visit, since the conversations are parsed anew at each
    pass. *)
Definition visit_header (db : Database) (c : Conversation) (header : jsval)
    (st : State) : Outcome :=
  match get_prop header "bubbleId", get_prop header "type" with
  | Some bubble_id, Some headerType =>
      let b := ident_of (visits st) bubble_id in
      if decide (b ∈ seenBubbles st) then
        ({| seenBubbles := seenBubbles st; lastCheck := lastCheck st;
            visits := S (visits st) |}, [], true)
      else
        ({| seenBubbles := {[ b ]} ∪ seenBubbles st; lastCheck := lastCheck st;
            visits := S (visits st) |},
         match bubble_text db bubble_id with
         | Some text =>
             [ {| conversation := c; isUser := is_one headerType;
                  text := text; bubbleId := b |} ]
         | None => []
         end, true)
  | _, _ => (st, [], false)
  end.

Fixpoint visit_headers (db : Database) (c : Conversation)
    (hs : list jsval) (st : State) : Outcome :=
  match hs with
  | [] => (st, [], true)
  | header :: rest =>
      match visit_header db c header st with
      | (st1, out1, true) =>
          let '(st2, out2, ok) := visit_headers db c rest st1 in
          (st2, out1 ++ out2, ok)
      | stopped => stopped
      end
  end.

(** [projectFilter &&
     !conversation.name.toLowerCase().includes(projectFilter.toLowerCase())];
    [None] is the [TypeError] for a name without [toLowerCase]. *)
Definition filtered_out (projectFilter : option string) (c : Conversation)
    : option bool :=
  match projectFilter with
  | None => Some false
  | Some f =>
      if bool_decide (f = "") then Some false
      else
        match name c with
        | VStr s => Some (negb (includes (toLowerCase s) (toLowerCase f)))
        | _ => None
        end
  end.

(** The body of [for (const conversation of conversations)]. *)
Definition visit_conversation (projectFilter : option string) (db : Database)
    (c : Conversation) (st : State) : Outcome :=
  match filtered_out projectFilter c with
  | None => (st, [], false)
  | Some true => (st, [], true)
  | Some false =>
      match iterate (headers c) with
      | None => (st, [], false)
      | Some hs => visit_headers db c hs st
      end
  end.

Fixpoint visit_conversations (projectFilter : option string) (db : Database)
    (cs : list Conversation) (st : State) : Outcome :=
  match cs with
  | [] => (st, [], true)
  | c :: rest =>
      match visit_conversation projectFilter db c st with
      | (st1, out1, true) =>
          let '(st2, out2, ok) :=
            visit_conversations projectFilter db rest st1 in
          (st2, out1 ++ out2, ok)
      | stopped => stopped
      end
  end.

(** [setTimeout(resolve, 500)] *)
Definition POLL_INTERVAL_MS : nat := 500.

Record Pass := {
  state : State;
  emitted : list Emitted;
  sleep_ms : nat;
}.

(** One pass of the [while (true)] body: the inner [try] and the sleep. *)
Definition tick (projectFilter : option string) (db : Database) (st : State)
    : Pass :=
  if opens db then
    let conversations := loadConversations db in
    let st0 := {| seenBubbles := seenBubbles st;
                  lastCheck := length conversations;
                  visits := visits st |} in
    let '(st1, out, _) := visit_conversations projectFilter db conversations st0 in
    {| state := st1; emitted := out; sleep_ms := POLL_INTERVAL_MS |}
  else {| state := st; emitted := []; sleep_ms := POLL_INTERVAL_MS |}.

(** The passes of the [while (true)] loop over what the store shows at each
    of them: the final state and the messages of each pass. *)
Fixpoint passes (projectFilter : option string) (dbs : list Database)
    (st : State) : State * list (list Emitted) :=
  match dbs with
  | [] => (st, [])
  | db :: rest =>
      let p := tick projectFilter db st in
      let '(st', outs) := passes projectFilter rest (state p) in
      (st', emitted p :: outs)
  end.

(** [watchCursorConversations(projectFilter)], run for as many passes as
    [dbs] has elements.  [None] is [process.exit(1)], when the store file
    does not exist ([dbExists] is [fs.existsSync(dbPath)]).  The [compact]
    argument changes the layout of what is printed, not the messages. *)
Definition watchCursorConversations (dbExists : bool)
    (projectFilter : option string) (dbs : list Database)
    : option (State * list (list Emitted)) :=
  if dbExists then Some (passes projectFilter dbs initial) else None.

(** The identifiers marked. *)
Definition seen (st : State) (b : ident) : Prop := b ∈ seenBubbles st.

End Watch.

(** *** The command line *)

(** How the program ends before it polls, or what it polls with. *)
Inductive Start :=
  | Help
  | Watch (projectFilter : option string) (compact : bool).

(** The [for (let i = 0; i < args.length; i++)] loop over
    [process.argv.slice(2)]: [-h] prints the usage and leaves with
    [process.exit(0)]; [projectFilter] starts as [null]. *)
Fixpoint parse_args (args : list string) (projectFilter : option string)
    (compact : bool) : Start :=
  match args with
  | [] => Watch projectFilter compact
  | arg :: rest =>
      if bool_decide (arg = "-c" ∨ arg = "--compact") then
        parse_args rest projectFilter true
      else if bool_decide (arg = "-h" ∨ arg = "--help") then Help
      else if negb (startsWith arg "-") then parse_args rest (Some arg) compact
      else parse_args rest projectFilter compact
  end.

(** How a run of the program ends: the usage and status 0, status 1 when
    the store file does not exist, or the passes of the loop. *)
Inductive Run :=
  | Usage
  | NoStore
  | Polled (final : State) (printed : list (list Emitted)).

Section Program.
Context `{Runtime}.

(** The program, from its arguments to the passes of its loop. *)
Definition main (args : list string) (dbExists : bool) (dbs : list Database)
    : Run :=
  match parse_args args None false with
  | Help => Usage
  | Watch projectFilter _ =>
      match watchCursorConversations dbExists projectFilter dbs with
      | None => NoStore
      | Some (final, printed) => Polled final printed
      end
  end.

(** *** [extractBubbles] *)





End Program.



(** *** The notice of an empty store, and the compact layout *)

Section Notice.
Context `{Runtime}.

(** [conversations.length === 0 && lastCheck === 0], inside the [try] that
    opens the store: whether a pass prints
    [No conversations found. Waiting for Cursor activity...]. *)
Definition notice (db : Database) (st : State) : bool :=
  opens db &&
  bool_decide (loadConversations db = []) &&
  bool_decide (lastCheck st = 0).

(** Whether each of the passes prints the notice. *)
Fixpoint notices (projectFilter : option string) (dbs : list Database)
    (st : State) : list bool :=
  match dbs with
  | [] => []
  | db :: rest =>
      notice db st :: notices projectFilter rest (state (tick projectFilter db st))
  end.

End Notice.

(** [text.split('\n')[0].substring(0, 100)]: what the compact layout shows
    of a text, on the code units of the text. *)
Definition compact_line (text : list N) : list N :=
  take 100 (default [] (head (split_units 10 text))).

End KvSource.

(** ** A [JSON.parse] for the examples

    The general results below hold for every [Runtime].  The examples run
    the watchers on concrete files and rows, with this parser of the JSON
    grammar (RFC 8259) as [JSON.parse]; number literals are rounded to the
    nearest binary64 value, ties to even. *)

Module Json.

Definition is_json_space (c : ascii) : bool :=
  match c with
  | " " | "009" | "010" | "013" => true
  | _ => false
  end%char.

Fixpoint skip_space (s : string) : string :=
  match s with
  | String c s' => if is_json_space c then skip_space s' else s
  | EmptyString => s
  end.

(** *** Numbers *)

Definition round_half_even (num den : Z) : Z :=
  let q := (num / den)%Z in
  let r := (num mod den)%Z in
  match (2 * r ?= den)%Z with
  | Lt => q
  | Gt => (q + 1)%Z
  | Eq => if Z.even q then q else (q + 1)%Z
  end.

(** The binary64 value nearest to [m * 10^e], for [m > 0]. *)
Definition round_decimal (neg : bool) (m e : Z) : number :=
  let bits := Z.log2 m in
  let low := (bits + (if (0 <=? e)%Z then 3 * e else 4 * e))%Z in
  let high := (bits + 1 + (if (0 <=? e)%Z then 4 * e else 3 * e))%Z in
  if (1300 <? low)%Z then NumInfinity neg
  else if (high <? -1300)%Z then NumFinite neg 0 0
  else
    let num := if (0 <=? e)%Z then (m * 10 ^ e)%Z else m in
    let den := if (0 <=? e)%Z then 1%Z else (10 ^ (- e))%Z in
    let k0 := (Z.log2 num - Z.log2 den)%Z in
    let below :=
      if (0 <=? k0)%Z then (num <? den * 2 ^ k0)%Z
      else (num * 2 ^ (- k0) <? den)%Z in
    let k := if below then (k0 - 1)%Z else k0 in
    let ex := Z.max (k - 52) (-1074) in
    let mant :=
      if (0 <=? ex)%Z then round_half_even num (den * 2 ^ ex)
      else round_half_even (num * 2 ^ (- ex)) den in
    if (0 <=? ex)%Z && (2 ^ 1024 <=? mant * 2 ^ ex)%Z then NumInfinity neg
    else NumFinite neg (Z.to_N mant) ex.

Definition make_number (neg : bool) (m e : Z) : number :=
  if (m =? 0)%Z then NumFinite neg 0 0 else round_decimal neg m e.

Definition digit_value (c : ascii) : option Z :=
  Z.of_nat <$> Ascii.is_nat c.

(** The digits at the head of [s]: their value after [acc], their count and
    what follows them. *)
Fixpoint read_digits (acc : Z) (count : nat) (s : string) : Z * nat * string :=
  match s with
  | String c s' =>
      match digit_value c with
      | Some d => read_digits (10 * acc + d) (S count) s'
      | None => (acc, count, s)
      end
  | EmptyString => (acc, count, s)
  end.

(** [e] or [E], a sign and digits: the exponent and what follows it. *)
Definition read_exponent (s : string) : option (Z * string) :=
  match s with
  | String c s' =>
      if bool_decide (c = "e"%char ∨ c = "E"%char) then
        let '(sign, s'') :=
          match s' with
          | String "+" t => (1%Z, t)
          | String "-" t => ((-1)%Z, t)
          | _ => (1%Z, s')
          end in
        let '(x, n, rest) := read_digits 0 0 s'' in
        if bool_decide (n = 0%nat) then None else Some ((sign * x)%Z, rest)
      else Some (0%Z, s)
  | EmptyString => Some (0%Z, s)
  end.

(** [. digits], if there is a dot: the mantissa extended with the digits,
    their count and what follows. *)
Definition read_fraction (m : Z) (s : string) : option (Z * nat * string) :=
  match s with
  | String "." s' =>
      let '(m', n, rest) := read_digits m 0 s' in
      if bool_decide (n = 0%nat) then None else Some (m', n, rest)
  | _ => Some (m, 0%nat, s)
  end.

Definition parse_number (s : string) : option (number * string) :=
  let '(neg, s1) :=
    match s with
    | String "-" t => (true, t)
    | _ => (false, s)
    end in
  let '(m, n, s2) := read_digits 0 0 s1 in
  if bool_decide (n = 0%nat) then None
  else if bool_decide (1 < n)%nat && startsWith s1 "0" then None
  else
    '(m', nf, s3) ← read_fraction m s2;
    '(x, s4) ← read_exponent s3;
    Some (make_number neg m' (x - Z.of_nat nf), s4).

(** *** Strings *)

Definition hex_value (c : ascii) : option N :=
  let n := N_of_ascii c in
  if (48 <=? n)%N && (n <=? 57)%N then Some (n - 48)%N
  else if (65 <=? n)%N && (n <=? 70)%N then Some (n - 55)%N
  else if (97 <=? n)%N && (n <=? 102)%N then Some (n - 87)%N
  else None.

(** The characters of a string literal after its opening quote, and what
    follows its closing quote. *)
Fixpoint parse_string (s : string) : option (string * string) :=
  match s with
  | EmptyString => None
  | String c s' =>
      if bool_decide (c = "034"%char) then Some (EmptyString, s')
      else if bool_decide (c = "\"%char) then
        match s' with
        | String e s'' =>
            let plain (x : ascii) :=
              '(str, rest) ← parse_string s''; Some (String x str, rest) in
            match e with
            | "034" => plain "034"
            | "\" => plain "\"
            | "/" => plain "/"
            | "b" => plain "008"
            | "f" => plain "012"
            | "n" => plain "010"
            | "r" => plain "013"
            | "t" => plain "009"
            | "u" =>
                match s'' with
                | String h1 (String h2 (String h3 (String h4 s4))) =>
                    a ← hex_value h1; b ← hex_value h2;
                    c ← hex_value h3; d ← hex_value h4;
                    '(str, rest) ← parse_string s4;
                    Some (prepend
                            (code_unit_bytes (((a * 16 + b) * 16 + c) * 16 + d))
                            str, rest)
                | _ => None
                end
            | _ => None
            end%char
        | EmptyString => None
        end
      else if (N_of_ascii c <? 32)%N then None
      else '(str, rest) ← parse_string s'; Some (String c str, rest)
  end.

(** *** Values *)

Fixpoint parse_value (fuel : nat) (s : string) : option (jsval * string) :=
  match fuel with
  | O => None
  | S fuel' =>
      let s := skip_space s in
      match s with
      | String "{" s' =>
          match skip_space s' with
          | String "}" rest => Some (VObj [], rest)
          | _ => parse_members fuel' s' []
          end
      | String "[" s' =>
          match skip_space s' with
          | String "]" rest => Some (VArr [], rest)
          | _ => parse_elements fuel' s' []
          end
      | String "034" s' =>
          '(str, rest) ← parse_string s'; Some (VStr str, rest)
      | _ =>
          if startsWith s "true" then Some (VBool true, drop_chars 4 s)
          else if startsWith s "false" then Some (VBool false, drop_chars 5 s)
          else if startsWith s "null" then Some (VNull, drop_chars 4 s)
          else '(n, rest) ← parse_number s; Some (VNum n, rest)
      end%char
  end
with parse_elements (fuel : nat) (s : string) (acc : list jsval)
    : option (jsval * string) :=
  match fuel with
  | O => None
  | S fuel' =>
      '(v, rest) ← parse_value fuel' s;
      match skip_space rest with
      | String "," rest' => parse_elements fuel' rest' (acc ++ [v])
      | String "]" rest' => Some (VArr (acc ++ [v]), rest')
      | _ => None
      end%char
  end
with parse_members (fuel : nat) (s : string) (acc : list (string * jsval))
    : option (jsval * string) :=
  match fuel with
  | O => None
  | S fuel' =>
      match skip_space s with
      | String "034" s' =>
          '(k, rest) ← parse_string s';
          match skip_space rest with
          | String ":" rest' =>
              '(v, rest'') ← parse_value fuel' rest';
              match skip_space rest'' with
              | String "," rest3 => parse_members fuel' rest3 (acc ++ [(k, v)])
              | String "}" rest3 => Some (VObj (acc ++ [(k, v)]), rest3)
              | _ => None
              end
          | _ => None
          end
      | _ => None
      end%char
  end.

(** [JSON.parse(s)]: one value, with nothing but white space after it. *)
Definition parse (s : string) : option jsval :=
  '(v, rest) ← parse_value (2 * String.length s + 2) s;
  if bool_decide (skip_space rest = "") then Some v else None.

(** *** [v > 0] for strings, arrays and objects *)

(** Whether all the characters of [s] are digits of the base, and one of them
    is not [0]. *)
Fixpoint digits_positive (base : N) (some : bool) (s : string) : bool :=
  match s with
  | EmptyString => some
  | String c s' =>
      match hex_value c with
      | Some d =>
          (d <? base)%N && digits_positive base (some || negb (d =? 0)%N) s'
      | None => false
      end
  end.

(** Whether an unsigned decimal literal of a numeric string is above zero. *)
Definition decimal_positive (s : string) : bool :=
  let '(m, n1, s1) := read_digits 0 0 s in
  let '(m', n2, s2) :=
    match s1 with
    | String "." t => read_digits m 0 t
    | _ => (m, 0%nat, s1)
    end in
  if bool_decide (n1 + n2 = 0)%nat then false
  else
    match read_exponent s2 with
    | Some (x, EmptyString) =>
        num_positive (make_number false m' (x - Z.of_nat n2))
    | _ => false
    end.

(** [Number(s) > 0] *)
Definition string_positive (s : string) : bool :=
  match trim s with
  | String "0" (String c t) =>
      if bool_decide (c = "x" ∨ c = "X")%char then
        negb (bool_decide (t = "")) && digits_positive 16 false t
      else if bool_decide (c = "o" ∨ c = "O")%char then
        negb (bool_decide (t = "")) && digits_positive 8 false t
      else if bool_decide (c = "b" ∨ c = "B")%char then
        negb (bool_decide (t = "")) && digits_positive 2 false t
      else decimal_positive (trim s)
  | String "-" _ => false
  | String "+" t => bool_decide (t = "Infinity") || decimal_positive t
  | t => bool_decide (t = "Infinity") || decimal_positive t
  end.

(** An object converts to NaN; an array to the number of its only element,
    if it has one that is a number, a string or such an array. *)
Fixpoint value_positive (v : jsval) : bool :=
  match v with
  | VStr s => string_positive s
  | VArr [VNum n] => num_positive n
  | VArr [x] => match x with VStr _ | VArr _ => value_positive x | _ => false end
  | _ => false
  end.

(** *** Letter case *)

Definition lower_char (c : ascii) : ascii :=
  let n := nat_of_ascii c in
  if (65 <=? n)%nat && (n <=? 90)%nat then ascii_of_nat (n + 32) else c.

(** [s.toLowerCase()] for a string of ASCII characters: the letters [A] to
    [Z] are the only ones that change. *)
Fixpoint lower_case (s : string) : string :=
  match s with
  | EmptyString => EmptyString
  | String c s' => String (lower_char c) (lower_case s')
  end.

(** A runtime to run the programs on transcripts and stores written in
    ASCII. *)
#[export] Instance runtime : Runtime := {|
  JSON_parse := parse;
  coerce_positive := value_positive;
  toLowerCase := lower_case;
|}.

End Json.

(** ** Concrete files and stores

    The data of the examples: a projects directory with one transcript, and
    a store with given conversations and bubbles. *)

Module Scenario.
Import LogSource KvSource.

Definition projectsDir : string := "/home/dev/.claude/projects".

Definition transcript : string :=
  "/home/dev/.claude/projects/demo/session.jsonl".

Definition tree : option (list entry) :=
  Some [EDir "demo" (Some [EFile "session.jsonl"; EFile "notes.txt"])].

(** A readable file with the given content. *)
Definition whole (content : string) : FileView :=
  {| size := Some (String.length content); bytes := content; fault := None |}.

(** A path with no file. *)
Definition missing : FileView :=
  {| size := None; bytes := ""; fault := Some 0 |}.

(** The file system when the transcript holds [v]. *)
Definition showing (v : FileView) : Env :=
  {| root := tree;
     view := λ path, if decide (path = transcript) then v else missing |}.

Definition holding (content : string) : Env := showing (whole content).

Definition newline : string := String LF EmptyString.

(** A store with the given conversation rows, in the order the query returns
    them, and the given bubbles. *)
Definition store (rows : list Row) (bubbles : list (string * string))
    : Database :=
  {| opens := true;
     composerRows := Some rows;
     bubbleRow := λ b,
       match b with
       | VStr k =>
           match list_find (λ kv, kv.1 = k) bubbles with
           | Some (_, (_, v)) => Found v
           | None => NoRow
           end
       | _ => NoRow
       end |}.

(** JSON text is written with an apostrophe where it has a double quote. *)
Fixpoint json (s : string) : string :=
  match s with
  | EmptyString => EmptyString
  | String c s' => String (if decide (c = "'"%char) then "034"%char else c) (json s')
  end.

Definition chat_row : Row :=
  {| key := "composerData:7f3a";
     value := json "{'name':'Chat','fullConversationHeadersOnly':[{'bubbleId':'b1','type':1}]}" |}.

Definition chat : Conversation :=
  {| KvSource.id := VStr "7f3a";
     name := VStr "Chat";
     headers := VArr [VObj [("bubbleId", VStr "b1"); ("type", VNum (NumFinite false 4503599627370496 (-52)))]];
     lastUpdated := VUndefined |}.

(** A user message, cut in two inside its text. *)
Definition hello_start : string :=
  json "{'type':'user','uuid':'u-17','message':{'content':[{'type':'text','text':'hel".

Definition hello_end : string := json "lo'}]}}".

Definition hello : LogSource.Message :=
  {| LogSource.type := LogSource.User; LogSource.text := "hello";
     LogSource.timestamp := VStr ""; LogSource.id := IdStr "u-17" |}.

(** Two lines of a transcript. *)
Definition line_one : string :=
  json "{'type':'user','uuid':'u-1','message':{'content':[{'type':'text','text':'one'}]}}".

Definition line_two : string :=
  json "{'type':'assistant','uuid':'u-2','message':{'content':[{'type':'text','text':'two'}]}}".

Definition two_lines : string :=
  line_one +:+ newline +:+ line_two +:+ newline.

Definition message_one : LogSource.Message :=
  {| LogSource.type := LogSource.User; LogSource.text := "one";
     LogSource.timestamp := VStr ""; LogSource.id := IdStr "u-1" |}.

Definition message_two : LogSource.Message :=
  {| LogSource.type := LogSource.Assistant; LogSource.text := "two";
     LogSource.timestamp := VStr ""; LogSource.id := IdStr "u-2" |}.

(** A file whose stream fails after [k] bytes. *)
Definition failing (content : string) (k : nat) : FileView :=
  {| size := Some (String.length content); bytes := content; fault := Some k |}.

Definition printed (m : LogSource.Message) : LogSource.Emitted :=
  {| project := "demo"; filePath := transcript; message := m |}.

(** Two projects with one transcript each; the directory lists [beta]
    before [alpha]. *)
Definition transcript_a : string :=
  "/home/dev/.claude/projects/alpha/a.jsonl".

Definition transcript_b : string :=
  "/home/dev/.claude/projects/beta/b.jsonl".

Definition two_projects (a b : string) : Env :=
  {| root := Some [EDir "beta" (Some [EFile "b.jsonl"]);
                   EDir "alpha" (Some [EFile "a.jsonl"])];
     view := λ path,
       if decide (path = transcript_a) then whole a
       else if decide (path = transcript_b) then whole b
       else missing |}.

(** Two conversations; the store returns [Beta] before [Alpha]. *)
Definition beta_row : Row :=
  {| key := "composerData:beta";
     value := json "{'name':'Beta','fullConversationHeadersOnly':[{'bubbleId':'b1','type':1}]}" |}.

Definition alpha_row : Row :=
  {| key := "composerData:alpha";
     value := json "{'name':'Alpha','fullConversationHeadersOnly':[{'bubbleId':'a1','type':2}]}" |}.

(** A conversation that lists the bubble of [Beta] before its own. *)
Definition gamma_row : Row :=
  {| key := "composerData:gamma";
     value := json "{'name':'Gamma','fullConversationHeadersOnly':[{'bubbleId':'b1','type':1},{'bubbleId':'g1','type':2}]}" |}.

(** The number 1, as [JSON.parse] returns it. *)
Definition parsed_one : number := NumFinite false 4503599627370496 (-52).

Definition beta_header : jsval :=
  VObj [("bubbleId", VStr "b1"); ("type", VNum parsed_one)].

Definition beta : Conversation :=
  {| KvSource.id := VStr "beta";
     name := VStr "Beta";
     headers := VArr [beta_header];
     lastUpdated := VUndefined |}.

(** Two uuid-less lines with different texts. *)
Definition anonymous_one : string :=
  json "{'type':'user','message':{'content':[{'type':'text','text':'first'}]}}".

Definition anonymous_two : string :=
  json "{'type':'user','message':{'content':[{'type':'text','text':'second'}]}}".



(** A user message whose [uuid] is an array, and the message that the
    watcher makes of it when the array is the reference numbered [r]. *)
Definition line_array : string :=
  json "{'type':'user','uuid':['u-1'],'message':{'content':[{'type':'text','text':'one'}]}}".

Definition array_message (r : nat) : LogSource.Message :=
  {| LogSource.type := LogSource.User; LogSource.text := "one";
     LogSource.timestamp := VStr ""; LogSource.id := IdRef r |}.

(** The file system when the transcript holds [content] and [statSync]
    throws for it. *)
Definition unstatted (content : string) : Env :=
  showing {| size := None; bytes := content; fault := None |}.

(** Two conversations that list the same bubble, whose [bubbleId] is the
    array [['x']]; the key spliced into the query for it is [bubbleId:x]. *)
Definition first_row : Row :=
  {| key := "composerData:first";
     value := json "{'name':'First','fullConversationHeadersOnly':[{'bubbleId':['x'],'type':1}]}" |}.

Definition second_row : Row :=
  {| key := "composerData:second";
     value := json "{'name':'Second','fullConversationHeadersOnly':[{'bubbleId':['x'],'type':1}]}" |}.

Definition array_store (rows : list Row) : Database :=
  {| opens := true;
     composerRows := Some rows;
     bubbleRow := λ b,
       match b with
       | VArr [VStr "x"] => Found (json "{'text':'shared'}")
       | _ => NoRow
       end |}.

(** White space outside ASCII: U+00A0, then U+3000, then a space. *)
Definition wide_blank : string :=
  String "194" (String "160" (String "227" (String "128" (String "128" " ")))).

(** Two project names: U+FF5E, and U+1F600, which takes two code units. *)
Definition label_tilde : string :=
  String "239" (String "189" (String "158" "")).

Definition label_face : string :=
  String "240" (String "159" (String "152" (String "128" ""))).


(** [héllo wörld], and its first two lines at a width of four: [héll] and
    [o wö]. *)
Definition e_acute : string := String "195" (String "169" "").
Definition o_umlaut : string := String "195" (String "182" "").

Definition accented : string :=
  "h" +:+ e_acute +:+ "llo w" +:+ o_umlaut +:+ "rld".

Definition accented_1 : string := "h" +:+ e_acute +:+ "ll".
Definition accented_2 : string := "o w" +:+ o_umlaut.

End Scenario.

(** * Properties *)

(** ** Strings *)

Section StringFacts.

Lemma append_cons c a b : String c a +:+ b = String c (a +:+ b).
Proof. done. Qed.

Lemma append_empty_r s : s +:+ "" = s.
Proof. induction s as [|c s IH]; [done|]. by rewrite append_cons, IH. Qed.

Lemma append_assoc a b c : (a +:+ b) +:+ c = a +:+ (b +:+ c).
Proof. induction a as [|x a IH]; [done|]. by rewrite !append_cons, IH. Qed.

Lemma length_append a b :
  String.length (a +:+ b) = String.length a + String.length b.
Proof.
  induction a as [|x a IH]; [done|]. rewrite append_cons. simpl. by rewrite IH.
Qed.

Lemma take_drop_chars n : ∀ s, take_chars n s +:+ drop_chars n s = s.
Proof.
  induction n as [|n IH]; intros [|c s]; simpl; try done.
  by rewrite append_cons, IH.
Qed.

Lemma rev_app_append a : ∀ b c,
  String.rev_app a b +:+ c = String.rev_app a (b +:+ c).
Proof.
  induction a as [|x a IH]; simpl; intros b c; [done|].
  by rewrite IH, append_cons.
Qed.

Lemma rev_cons_append c cur s :
  String.rev (String c cur) +:+ s = String.rev cur +:+ String c s.
Proof. unfold String.rev. simpl. by rewrite !rev_app_append. Qed.

Lemma rev_app_of_append a : ∀ b c,
  String.rev_app (a +:+ b) c = String.rev_app b (String.rev_app a c).
Proof.
  induction a as [|x a IH]; intros b c; [done|]. rewrite append_cons. simpl.
  apply IH.
Qed.

Lemma rev_append a b : String.rev (a +:+ b) = String.rev b +:+ String.rev a.
Proof.
  unfold String.rev. by rewrite rev_app_of_append, rev_app_append.
Qed.

Lemma rev_cons c s : String.rev (String c s) = String.rev s +:+ String c "".
Proof. by rewrite <- (append_empty_r (String.rev (String c s))), rev_cons_append. Qed.

Lemma string_rev_involutive s : String.rev (String.rev s) = s.
Proof.
  induction s as [|c s IH]; [done|]. by rewrite rev_cons, rev_append, IH.
Qed.

Lemma string_length_ind (P : string → Prop) :
  (∀ s, (∀ t, String.length t < String.length s → P t) → P s) → ∀ s, P s.
Proof.
  intros Hstep s. remember (String.length s) as n eqn:Hn. revert s Hn.
  induction n as [n IH] using lt_wf_ind. intros s ->.
  apply Hstep. intros t Ht. by eapply IH.
Qed.

(** *** Removing the characters at the head of a string *)

Section Strip.
Variables (one : ascii → bool) (two : ascii → ascii → bool)
  (three : ascii → ascii → ascii → bool).

Local Abbreviation head_off := (strip_one one two three).
Local Abbreviation all_off := (strip one two three).

Lemma strip_unfold s :
  all_off s = match head_off s with Some rest => all_off rest | None => s end.
Proof.
  destruct s as [|a [|b [|c s3]]]; simpl; try done.
  - by destruct (one a).
  - destruct (one a); [done|]. by destruct (two a b).
  - destruct (one a); [done|]. destruct (two a b); [done|].
    by destruct (three a b c).
Qed.

Lemma strip_one_split s rest :
  head_off s = Some rest → ∃ w, w ≠ "" ∧ s = w +:+ rest.
Proof.
  destruct s as [|a [|b [|c s3]]]; simpl; try done.
  - destruct (one a); [|done]. intros [= <-]. by exists (String a "").
  - destruct (one a); [intros [= <-]; by exists (String a "")|].
    destruct (two a b); [|done]. intros [= <-].
    by exists (String a (String b "")).
  - destruct (one a); [intros [= <-]; by exists (String a "")|].
    destruct (two a b); [intros [= <-]; by exists (String a (String b ""))|].
    destruct (three a b c); [|done]. intros [= <-].
    by exists (String a (String b (String c ""))).
Qed.

Lemma strip_one_shorter s rest :
  head_off s = Some rest → String.length rest < String.length s.
Proof.
  intros (w & Hw & ->)%strip_one_split. rewrite length_append.
  destruct w; [done|simpl; lia].
Qed.

Lemma strip_one_append s rest t :
  head_off s = Some rest → head_off (s +:+ t) = Some (rest +:+ t).
Proof.
  destruct s as [|a [|b [|c s3]]]; simpl; try done.
  - destruct (one a); [|done]. by intros [= <-].
  - destruct (one a); [by intros [= <-]|].
    destruct (two a b); [|done]. by intros [= <-].
  - destruct (one a); [by intros [= <-]|].
    destruct (two a b); [by intros [= <-]|].
    destruct (three a b c); [|done]. by intros [= <-].
Qed.

Lemma strip_stops s : head_off (all_off s) = None.
Proof.
  induction s as [s IH] using string_length_ind. rewrite strip_unfold.
  destruct (head_off s) as [rest|] eqn:E; [|done].
  apply IH. by apply strip_one_shorter.
Qed.

Lemma strip_keeps s : head_off s = None → all_off s = s.
Proof. intros E. by rewrite strip_unfold, E. Qed.

Lemma strip_idem s : all_off (all_off s) = all_off s.
Proof. apply strip_keeps, strip_stops. Qed.

Lemma strip_suffix s : ∃ w, s = w +:+ all_off s.
Proof.
  induction s as [s IH] using string_length_ind. rewrite strip_unfold.
  destruct (head_off s) as [rest|] eqn:E; [|by exists ""].
  destruct (IH rest) as [w' Hw']; [by apply strip_one_shorter|].
  apply strip_one_split in E as (w & _ & ->).
  exists (w +:+ w'). by rewrite append_assoc, <- Hw'.
Qed.

End Strip.

(** *** [trim] *)

Lemma trim_start_stops s :
  strip_one is_white_space is_white_space2 is_white_space3 (trim_start s) = None.
Proof. apply strip_stops. Qed.

(** What [trim_end] leaves of a string is the beginning of the string. *)
Lemma trim_end_prefix s : ∃ w, s = trim_end s +:+ w.
Proof.
  unfold trim_end.
  destruct (strip_suffix is_white_space (λ a b, is_white_space2 b a)
              (λ a b c, is_white_space3 c b a) (String.rev s)) as [w Hw].
  exists (String.rev w).
  by rewrite <- rev_append, <- Hw, string_rev_involutive.
Qed.

Lemma trim_end_idem s : trim_end (trim_end s) = trim_end s.
Proof. unfold trim_end. by rewrite string_rev_involutive, strip_idem. Qed.

Lemma trim_idem s : trim (trim s) = trim s.
Proof.
  unfold trim.
  assert (trim_start (trim_end (trim_start s)) = trim_end (trim_start s)) as ->;
    [|apply trim_end_idem].
  apply strip_keeps.
  destruct (strip_one _ _ _ (trim_end (trim_start s))) as [rest|] eqn:E; [|done].
  destruct (trim_end_prefix (trim_start s)) as [w Hw].
  apply (strip_one_append _ _ _ _ _ w) in E. rewrite <- Hw in E.
  by rewrite trim_start_stops in E.
Qed.

Lemma blank_unfold s :
  blank s
  = match strip_one is_white_space is_white_space2 is_white_space3 s with
    | Some rest => blank rest
    | None => bool_decide (s = "")
    end.
Proof.
  destruct s as [|a [|b [|c s3]]]; simpl; try done.
  - by destruct (is_white_space a).
  - destruct (is_white_space a); [done|]. by destruct (is_white_space2 a b).
  - destruct (is_white_space a); [done|]. destruct (is_white_space2 a b); [done|].
    by destruct (is_white_space3 a b c).
Qed.

Lemma trim_start_blank s : blank s = true → trim_start s = "".
Proof.
  induction s as [s IH] using string_length_ind. unfold trim_start in *.
  rewrite blank_unfold, strip_unfold.
  destruct (strip_one _ _ _ s) as [rest|] eqn:E.
  - apply IH. by apply strip_one_shorter in E.
  - by intros ?%bool_decide_eq_true.
Qed.

Lemma trim_blank s : blank s = true → trim s = "".
Proof. intros B. unfold trim. by rewrite trim_start_blank. Qed.

(** A non-empty string that [trim] leaves alone is not made of white space. *)
Lemma trimmed_not_blank s : s ≠ "" → trim s = s → blank s = false.
Proof.
  intros Hne Ht. destruct (blank s) eqn:B; [|done].
  apply trim_blank in B. congruence.
Qed.

Lemma trim_not_blank s : trim s ≠ "" → blank s = false.
Proof.
  intros Hne. destruct (blank s) eqn:B; [|done]. by apply trim_blank in B.
Qed.

End StringFacts.

(** ** Marking before printing

    Both watchers print a message only after they have found its identifier
    missing from a set of identifiers and added it.  [advances seen key st
    out st'] says that a piece of the loop that takes the state from [st] to
    [st'] and prints [out] works that way. *)

Section Marking.
Context {S E K : Type} (seen : S → K → Prop) (key : E → K).

Record advances (st : S) (out : list E) (st' : S) : Prop := {
  adv_mono : ∀ k, seen st k → seen st' k;
  adv_nodup : NoDup (key <$> out);
  adv_fresh : ∀ e, e ∈ out → ¬ seen st (key e);
  adv_marked : ∀ e, e ∈ out → seen st' (key e);
}.

Lemma advances_silent st st' :
  (∀ k, seen st k → seen st' k) → advances st [] st'.
Proof.
  intros Hm. split; [done|constructor|..]; intros e He; by apply elem_of_nil in He.
Qed.

Lemma advances_app st1 out1 st2 out2 st3 :
  advances st1 out1 st2 → advances st2 out2 st3 →
  advances st1 (out1 ++ out2) st3.
Proof.
  intros [m1 n1 f1 k1] [m2 n2 f2 k2]. split.
  - auto.
  - rewrite fmap_app. apply NoDup_app. split_and!; [done| |done].
    intros k [e1 [-> He1]]%list_elem_of_fmap [e2 [Hk He2]]%list_elem_of_fmap.
    apply (f2 e2 He2). rewrite <- Hk. auto.
  - intros e [He|He]%elem_of_app; [auto|].
    intros Hs. apply (f2 e He). auto.
  - intros e [He|He]%elem_of_app; auto.
Qed.

End Marking.

(** ** The log-file source *)

Section LogFacts.
Import LogSource.
Context `{Runtime}.

Lemma display_spec messages : ∀ seen0 seen1 out,
  display seen0 messages = (seen1, out) →
  seen0 ⊆ seen1 ∧
  NoDup (LogSource.id <$> out) ∧
  (∀ m, m ∈ out → (LogSource.id m ∉ seen0) ∧ LogSource.id m ∈ seen1) ∧
  (out `sublist_of` messages).
Proof.
  induction messages as [|m ms IH]; simpl; intros seen0 seen1 out Hd.
  - simplify_eq. split_and!; [done|constructor|set_solver|done].
  - destruct (decide (LogSource.id m ∈ seen0)) as [Hin|Hout].
    + destruct (IH _ _ _ Hd) as (? & ? & ? & ?).
      split_and!; [done..|]. by apply sublist_cons.
    + destruct (display ({[LogSource.id m]} ∪ seen0) ms) as [s' o'] eqn:E.
      simplify_eq. destruct (IH _ _ _ E) as (Hsub & Hnd & Hel & Hsl).
      split_and!.
      * set_solver.
      * rewrite fmap_cons. constructor; [|done].
        intros [m' [Hid Hm']]%list_elem_of_fmap.
        destruct (Hel m' Hm') as [Hn _]. set_solver.
      * intros m' [->|Hm']%elem_of_cons; [set_solver|].
        destruct (Hel m' Hm'). set_solver.
      * by apply sublist_skip.
Qed.

Lemma visit_file_advances env proj path st st' out :
  visit_file env proj path st = (st', out) → advances seen key st out st'.
Proof.
  unfold visit_file. destruct (filePositions st !! path) as [lastPos|].
  - destruct (display _ _) as [seen1 o] eqn:Hd. intros [= <- <-].
    destruct (display_spec _ _ _ _ Hd) as (Hsub & Hnd & Hel & _).
    split.
    + intros [f i]. unfold seen, seen_of. simpl. rewrite lookup_insert.
      case_decide; simplify_eq/=; [|done]. set_solver.
    + rewrite <- list_fmap_compose.
      change (NoDup ((pair path ∘ LogSource.id) <$> o)).
      rewrite list_fmap_compose. by apply (NoDup_fmap_2 _).
    + intros e [m [-> Hm]]%list_elem_of_fmap. unfold seen, seen_of, key. simpl.
      by destruct (Hel m Hm).
    + intros e [m [-> Hm]]%list_elem_of_fmap. unfold seen, seen_of, key. simpl.
      rewrite lookup_insert_eq. simpl. by destruct (Hel m Hm).
  - intros [= <- <-]. by apply advances_silent.
Qed.

Lemma visit_files_advances env proj files : ∀ st st' out,
  visit_files env proj files st = (st', out) → advances seen key st out st'.
Proof.
  induction files as [|path rest IH]; simpl; intros st st' out Hv.
  - simplify_eq. by apply advances_silent.
  - destruct (visit_file env proj path st) as [st1 out1] eqn:E1.
    destruct (visit_files env proj rest st1) as [st2 out2] eqn:E2.
    simplify_eq. eapply advances_app; eauto using visit_file_advances.
Qed.

Lemma visit_projects_advances env convFiles projects : ∀ st st' out,
  visit_projects env convFiles projects st = (st', out) →
  advances seen key st out st'.
Proof.
  induction projects as [|proj rest IH]; simpl; intros st st' out Hv.
  - simplify_eq. by apply advances_silent.
  - destruct (visit_files env proj _ st) as [st1 out1] eqn:E1.
    destruct (visit_projects env convFiles rest st1) as [st2 out2] eqn:E2.
    simplify_eq. eapply advances_app; eauto using visit_files_advances.
Qed.

Lemma tick_advances dir flt env st :
  advances seen key st (emitted (tick dir flt env st)) (state (tick dir flt env st)).
Proof.
  unfold tick.
  destruct (visit_projects _ _ _ _) as [st1 out] eqn:E. simpl.
  apply visit_projects_advances in E.
  destruct E as [m n f k]. split; try done.
  - intros k0 Hk. apply m. by destruct (_ && _).
  - intros e He Hs. apply (f e He). by destruct (_ && _).
Qed.

Lemma watch_advances dir flt envs : ∀ st st' outs,
  LogSource.passes dir flt envs st = (st', outs) →
  advances seen key st (concat outs) st'.
Proof.
  induction envs as [|env rest IH]; simpl; intros st st' outs Hw.
  - simplify_eq. by apply advances_silent.
  - destruct (LogSource.passes dir flt rest _) as [st2 outs2] eqn:E.
    simplify_eq. simpl. eapply advances_app; eauto using tick_advances.
Qed.


(** *** A file visited for the first time *)

Lemma drop_chars_length s : drop_chars (String.length s) s = "".
Proof. induction s; simpl; auto. Qed.

Lemma take_chars_empty k : take_chars k "" = "".
Proof. by destruct k. Qed.

Lemma stream_lines_at_end v :
  stream_lines v (String.length (bytes v)) = [].
Proof.
  unfold stream_lines. rewrite drop_chars_length.
  destruct (fault v); [by rewrite take_chars_empty|done].
Qed.

Lemma from_file_app path out1 out2 :
  from_file path (out1 ++ out2) = from_file path out1 ++ from_file path out2.
Proof. unfold from_file. by rewrite filter_app, fmap_app. Qed.

Lemma from_file_other path proj path' (ms : list Message) :
  path' ≠ path →
  from_file path
    ((λ m, {| project := proj; filePath := path'; message := m |}) <$> ms) = [].
Proof.
  intros Hne. unfold from_file. induction ms as [|m ms IH]; [done|].
  rewrite fmap_cons, filter_cons. simpl. by case_decide.
Qed.

Lemma from_file_same path proj (ms : list Message) :
  from_file path
    ((λ m, {| project := proj; filePath := path; message := m |}) <$> ms) = ms.
Proof.
  unfold from_file. induction ms as [|m ms IH]; [done|].
  rewrite fmap_cons, filter_cons. simpl. case_decide; [|done].
  rewrite fmap_cons. simpl. by f_equal.
Qed.

Lemma record_size_other v path path' positions :
  path ≠ path' → record_size v path positions !! path' = positions !! path'.
Proof.
  intros Hne. unfold record_size. destruct (size v); [|done].
  by rewrite lookup_insert_ne.
Qed.

Lemma visit_file_positions env proj path st :
  filePositions (visit_file env proj path st).1
  = record_size (view env path) path (filePositions st).
Proof.
  unfold visit_file. destruct (filePositions st !! path); [|done].
  by destruct (display _ _).
Qed.

Section FirstSight.
Variables (env : Env) (f : string).

(** The file holds [N] bytes, and that is the size reported for it. *)
Local Abbreviation N := (String.length (bytes (view env f))).
Hypothesis Hsize : size (view env f) = Some N.

(** The cursor of [f] is missing or already at the end of the file. *)
Local Abbreviation at_end_or_new st :=
  (filePositions st !! f = None ∨ filePositions st !! f = Some N).

Lemma first_sight_file proj path st st' out :
  visit_file env proj path st = (st', out) →
  at_end_or_new st →
  at_end_or_new st' ∧ from_file f out = [] ∧
  (path = f ∨ filePositions st !! f = Some N → filePositions st' !! f = Some N).
Proof.
  intros Hv Hq.
  pose proof (visit_file_positions env proj path st) as Hpos.
  rewrite Hv in Hpos. simpl in Hpos.
  destruct (decide (path = f)) as [->|Hne].
  - assert (filePositions st' !! f = Some N) as Hst'.
    { rewrite Hpos. unfold record_size. rewrite Hsize. apply lookup_insert_eq. }
    split_and!; [by right| |done].
    unfold visit_file in Hv. destruct Hq as [Hq|Hq]; rewrite Hq in Hv.
    + by simplify_eq.
    + unfold extractAllMessages in Hv. simpl in Hv.
      rewrite stream_lines_at_end in Hv. simpl in Hv. by simplify_eq.
  - assert (filePositions st' !! f = filePositions st !! f) as Hst'.
    { rewrite Hpos. by apply record_size_other. }
    split_and!.
    + by rewrite Hst'.
    + unfold visit_file in Hv. destruct (filePositions st !! path).
      * destruct (display _ _) as [s o]. simplify_eq.
        by apply from_file_other.
      * by simplify_eq.
    + intros [?|Hs]; [done|]. by rewrite Hst'.
Qed.

Lemma first_sight_files proj files : ∀ st st' out,
  visit_files env proj files st = (st', out) →
  at_end_or_new st →
  at_end_or_new st' ∧ from_file f out = [] ∧
  (f ∈ files ∨ filePositions st !! f = Some N → filePositions st' !! f = Some N).
Proof.
  induction files as [|path rest IH]; simpl; intros st st' out Hv Hq.
  - simplify_eq. split_and!; [done..|]. intros [?%elem_of_nil|?]; done.
  - destruct (visit_file env proj path st) as [st1 out1] eqn:E1.
    destruct (visit_files env proj rest st1) as [st2 out2] eqn:E2.
    simplify_eq.
    destruct (first_sight_file _ _ _ _ _ E1 Hq) as (Hq1 & Ho1 & Hp1).
    destruct (IH _ _ _ E2 Hq1) as (Hq2 & Ho2 & Hp2).
    split_and!; [done|by rewrite from_file_app, Ho1, Ho2|].
    intros [[->|Hin]%elem_of_cons|Hs]; auto.
Qed.

Lemma first_sight_projects convFiles projects : ∀ st st' out,
  visit_projects env convFiles projects st = (st', out) →
  at_end_or_new st →
  at_end_or_new st' ∧ from_file f out = [] ∧
  (f ∈ projects ≫= (λ proj, default [] (conv_get convFiles proj)) ∨
   filePositions st !! f = Some N → filePositions st' !! f = Some N).
Proof.
  induction projects as [|proj rest IH]; simpl; intros st st' out Hv Hq.
  - simplify_eq. split_and!; [done..|]. intros [?%elem_of_nil|?]; done.
  - destruct (visit_files env proj _ st) as [st1 out1] eqn:E1.
    destruct (visit_projects env convFiles rest st1) as [st2 out2] eqn:E2.
    simplify_eq.
    destruct (first_sight_files _ _ _ _ _ E1 Hq) as (Hq1 & Ho1 & Hp1).
    destruct (IH _ _ _ E2 Hq1) as (Hq2 & Ho2 & Hp2).
    split_and!; [done|by rewrite from_file_app, Ho1, Ho2|].
    intros [[Hin|Hin]%elem_of_app|Hs]; auto.
Qed.

Lemma first_sight_tick dir flt st :
  filePositions st !! f = None →
  f ∈ visited dir flt env →
  from_file f (emitted (tick dir flt env st)) = [] ∧
  filePositions (state (tick dir flt env st)) !! f = Some N.
Proof.
  intros Hnew Hin. unfold tick.
  destruct (visit_projects _ _ _ _) as [st1 out] eqn:E. simpl.
  eapply first_sight_projects in E as (_ & Ho & Hp).
  - split; [done|]. apply Hp. by left.
  - left. by destruct (_ && _).
Qed.

End FirstSight.


(** *** A file visited with a cursor *)

Lemma visit_file_seen_other env proj path st f :
  path ≠ f → seen_of (visit_file env proj path st).1 f = seen_of st f.
Proof.
  intros Hne. unfold visit_file. destruct (filePositions st !! path); [|done].
  destruct (display _ _). unfold seen_of. simpl. by rewrite lookup_insert_ne.
Qed.

Lemma visit_file_out_other env proj path st f :
  path ≠ f → from_file f (visit_file env proj path st).2 = [].
Proof.
  intros Hne. unfold visit_file. destruct (filePositions st !! path); [|done].
  destruct (display _ _). simpl. by apply from_file_other.
Qed.

Section FileFetch.
Variables (env : Env) (f : string) (lastPos : nat) (s0 : gset ident).

(** The size reported for the file is the length of the content read. *)
Local Abbreviation N := (String.length (bytes (view env f))).
Hypothesis Hsize : size (view env f) = Some N.

(** What the loop over the messages fetched from [lastPos] does, when [n]
    lines have been parsed before. *)
Local Abbreviation fetched n :=
  (display s0 (extractAllMessages (view env f) (Some lastPos) n)).

Local Abbreviation before st :=
  (filePositions st !! f = Some lastPos ∧ seen_of st f = s0).

Local Abbreviation after n st :=
  (filePositions st !! f = Some N ∧ seen_of st f = (fetched n).1).

Lemma fetch_file_before proj path st st' out :
  visit_file env proj path st = (st', out) →
  before st →
  (path ≠ f ∧ before st' ∧ from_file f out = []) ∨
  (path = f ∧ after (parses st) st' ∧ from_file f out = (fetched (parses st)).2).
Proof.
  intros Hv [Hpos Hseen].
  pose proof (visit_file_positions env proj path st) as Hp.
  rewrite Hv in Hp. simpl in Hp.
  destruct (decide (path = f)) as [->|Hne].
  - right. split; [done|].
    unfold visit_file in Hv. unfold seen_of in Hseen. rewrite Hpos, Hseen in Hv.
    destruct (fetched (parses st)) as [s1 o] eqn:E. simplify_eq. simpl.
    split_and!.
    + unfold record_size. rewrite Hsize. apply lookup_insert_eq.
    + unfold seen_of. simpl. by rewrite lookup_insert_eq.
    + apply from_file_same.
  - left. split; [done|]. split_and!.
    + rewrite Hp. by rewrite record_size_other.
    + pose proof (visit_file_seen_other env proj path st f Hne) as Hs.
      rewrite Hv in Hs. simpl in Hs. congruence.
    + pose proof (visit_file_out_other env proj path st f Hne) as Ho.
      by rewrite Hv in Ho.
Qed.

Lemma fetch_file_after n proj path st st' out :
  visit_file env proj path st = (st', out) →
  after n st → after n st' ∧ from_file f out = [].
Proof.
  intros Hv [Hpos Hseen].
  pose proof (visit_file_positions env proj path st) as Hp.
  rewrite Hv in Hp. simpl in Hp.
  destruct (decide (path = f)) as [->|Hne].
  - unfold visit_file in Hv. rewrite Hpos in Hv.
    unfold extractAllMessages in Hv. simpl in Hv.
    rewrite stream_lines_at_end in Hv. simpl in Hv. simplify_eq.
    split_and!.
    + rewrite Hp. unfold record_size. rewrite Hsize. apply lookup_insert_eq.
    + rewrite <- Hseen. unfold seen_of. simpl. by rewrite lookup_insert_eq.
    + done.
  - split_and!.
    + rewrite Hp. by rewrite record_size_other.
    + pose proof (visit_file_seen_other env proj path st f Hne) as Hs.
      rewrite Hv in Hs. simpl in Hs. congruence.
    + pose proof (visit_file_out_other env proj path st f Hne) as Ho.
      by rewrite Hv in Ho.
Qed.

Lemma fetch_files_after n proj files : ∀ st st' out,
  visit_files env proj files st = (st', out) →
  after n st → after n st' ∧ from_file f out = [].
Proof.
  induction files as [|path rest IH]; simpl; intros st st' out Hv Ha.
  - by simplify_eq.
  - destruct (visit_file env proj path st) as [st1 out1] eqn:E1.
    destruct (visit_files env proj rest st1) as [st2 out2] eqn:E2.
    simplify_eq.
    destruct (fetch_file_after _ _ _ _ _ _ E1 Ha) as [Ha1 Ho1].
    destruct (IH _ _ _ E2 Ha1) as [Ha2 Ho2].
    split; [done|]. by rewrite from_file_app, Ho1, Ho2.
Qed.

Lemma fetch_files_before proj files : ∀ st st' out,
  visit_files env proj files st = (st', out) →
  before st →
  ((f ∉ files) ∧ before st' ∧ from_file f out = []) ∨
  (f ∈ files ∧ ∃ n, after n st' ∧ from_file f out = (fetched n).2).
Proof.
  induction files as [|path rest IH]; simpl; intros st st' out Hv Hb.
  - simplify_eq. left. split; [apply not_elem_of_nil|done].
  - destruct (visit_file env proj path st) as [st1 out1] eqn:E1.
    destruct (visit_files env proj rest st1) as [st2 out2] eqn:E2.
    simplify_eq. rewrite from_file_app.
    destruct (fetch_file_before _ _ _ _ _ E1 Hb) as [(Hne & Hb1 & Ho1)|(-> & Ha1 & Ho1)].
    + destruct (IH _ _ _ E2 Hb1) as [(Hni & Hb2 & Ho2)|(Hin & n & Ha2 & Ho2)].
      * left. rewrite Ho1, Ho2. split; [|done].
        rewrite not_elem_of_cons. auto.
      * right. split; [by right|]. exists n. by rewrite Ho1, Ho2.
    + destruct (fetch_files_after _ _ _ _ _ _ E2 Ha1) as [Ha2 Ho2].
      right. split; [by left|]. exists (parses st).
      by rewrite Ho1, Ho2, app_nil_r.
Qed.

Lemma fetch_projects_after n convFiles projects : ∀ st st' out,
  visit_projects env convFiles projects st = (st', out) →
  after n st → after n st' ∧ from_file f out = [].
Proof.
  induction projects as [|proj rest IH]; simpl; intros st st' out Hv Ha.
  - by simplify_eq.
  - destruct (visit_files env proj _ st) as [st1 out1] eqn:E1.
    destruct (visit_projects env convFiles rest st1) as [st2 out2] eqn:E2.
    simplify_eq.
    destruct (fetch_files_after _ _ _ _ _ _ E1 Ha) as [Ha1 Ho1].
    destruct (IH _ _ _ E2 Ha1) as [Ha2 Ho2].
    split; [done|]. by rewrite from_file_app, Ho1, Ho2.
Qed.

Lemma fetch_projects_before convFiles projects : ∀ st st' out,
  visit_projects env convFiles projects st = (st', out) →
  before st →
  let files := projects ≫= (λ proj, default [] (conv_get convFiles proj)) in
  ((f ∉ files) ∧ before st' ∧ from_file f out = []) ∨
  (f ∈ files ∧ ∃ n, after n st' ∧ from_file f out = (fetched n).2).
Proof.
  induction projects as [|proj rest IH]; simpl; intros st st' out Hv Hb.
  - simplify_eq. left. split; [apply not_elem_of_nil|done].
  - destruct (visit_files env proj _ st) as [st1 out1] eqn:E1.
    destruct (visit_projects env convFiles rest st1) as [st2 out2] eqn:E2.
    simplify_eq. rewrite from_file_app.
    destruct (fetch_files_before _ _ _ _ _ E1 Hb) as [(Hni & Hb1 & Ho1)|(Hin & n & Ha1 & Ho1)].
    + destruct (IH _ _ _ E2 Hb1) as [(Hni2 & Hb2 & Ho2)|(Hin & n & Ha2 & Ho2)].
      * left. rewrite Ho1, Ho2. split; [|done].
        rewrite elem_of_app. tauto.
      * right. split; [apply elem_of_app; by right|].
        exists n. by rewrite Ho1, Ho2.
    + destruct (fetch_projects_after _ _ _ _ _ _ E2 Ha1) as [Ha2 Ho2].
      right. split; [apply elem_of_app; by left|]. exists n.
      by rewrite Ho1, Ho2, app_nil_r.
Qed.

End FileFetch.

(** A pass that visits a file with a cursor prints, for that file, what the
    loop over the messages fetched from the cursor prints, and leaves the
    cursor at the size of the file. *)
Lemma tick_fetch dir flt env st f lastPos :
  size (view env f) = Some (String.length (bytes (view env f))) →
  filePositions st !! f = Some lastPos →
  f ∈ visited dir flt env →
  ∃ n,
    let shown :=
      display (seen_of st f)
        (extractAllMessages (view env f) (Some lastPos) n) in
    from_file f (emitted (tick dir flt env st)) = shown.2 ∧
    seen_of (state (tick dir flt env st)) f = shown.1 ∧
    filePositions (state (tick dir flt env st)) !! f
    = Some (String.length (bytes (view env f))).
Proof.
  intros Hsize Hpos Hin. unfold tick.
  destruct (visit_projects _ _ _ _) as [st1 out] eqn:E. simpl.
  eapply (fetch_projects_before env f lastPos (seen_of st f) Hsize) in E.
  - destruct E as [(Hni & _)|(_ & n & [Hp Hs] & Ho)]; [done|].
    exists n. by split_and!.
  - by destruct (_ && _).
Qed.

(** *** Lines *)

Lemma lines_messages_app l1 : ∀ n l2,
  lines_messages n (l1 ++ l2)
  = lines_messages n l1 ++ lines_messages (n + length l1) l2.
Proof.
  induction l1 as [|line rest IH]; simpl; intros n l2.
  - by rewrite Nat.add_0_r.
  - rewrite IH, <- app_assoc. do 3 f_equal. lia.
Qed.

Lemma drop_chars_app a b : drop_chars (String.length a) (a +:+ b) = b.
Proof. induction a; simpl; auto. Qed.

(** A stream opened at the end of what a file held reads what was appended
    since. *)
Lemma stream_lines_appended sz fl old more :
  stream_lines {| size := sz; bytes := old +:+ more; fault := fl |}
    (String.length old)
  = stream_lines {| size := sz; bytes := more; fault := fl |} 0.
Proof. unfold stream_lines. simpl. by rewrite drop_chars_app. Qed.

(** The last line of a stream that ends without a line end is parsed like
    the others. *)
Lemma extract_unterminated v lastPos n lines pending :
  fault v = None →
  read_lines "" (drop_chars lastPos (bytes v)) = (lines, pending) →
  pending ≠ "" →
  extractAllMessages v (Some lastPos) n
  = lines_messages n lines ++ line_messages (n + length lines) pending.
Proof.
  intros Hf Hr Hp. unfold extractAllMessages, stream_lines. simpl.
  rewrite Hf, Hr. case_decide; [done|].
  rewrite lines_messages_app. simpl. by rewrite app_nil_r.
Qed.


(** *** Cursors *)

Lemma cursor_le_transitive : Transitive cursor_le.
Proof. intros [x|] [y|] [z|]; simpl; try done. lia. Qed.

Lemma cursor_le_refl a : cursor_le a a.
Proof. by destruct a; simpl. Qed.

Section Cursor.
Variables (env : Env) (f : string).

(** From one cursor to the next: unchanged, or the size reported. *)
Local Abbreviation moved a b :=
  (b = a ∨ ∃ n, size (view env f) = Some n ∧ b = Some n).

Lemma moved_file proj path st :
  moved (filePositions st !! f)
        (filePositions (visit_file env proj path st).1 !! f).
Proof.
  rewrite visit_file_positions. destruct (decide (path = f)) as [->|Hne].
  - unfold record_size. destruct (size (view env f)) as [n|]; [|by left].
    right. exists n. by rewrite lookup_insert_eq.
  - left. by apply record_size_other.
Qed.

Lemma moved_files proj files : ∀ st,
  moved (filePositions st !! f)
        (filePositions (visit_files env proj files st).1 !! f).
Proof.
  induction files as [|path rest IH]; simpl; intros st; [by left|].
  pose proof (moved_file proj path st) as H1.
  destruct (visit_file env proj path st) as [st1 out1].
  specialize (IH st1).
  destruct (visit_files env proj rest st1) as [st2 out2]. simpl in *.
  destruct IH as [->|?]; [done|by right].
Qed.

Lemma moved_projects convFiles projects : ∀ st,
  moved (filePositions st !! f)
        (filePositions (visit_projects env convFiles projects st).1 !! f).
Proof.
  induction projects as [|proj rest IH]; simpl; intros st; [by left|].
  pose proof (moved_files proj (default [] (conv_get convFiles proj)) st) as H1.
  destruct (visit_files env proj _ st) as [st1 out1].
  specialize (IH st1).
  destruct (visit_projects env convFiles rest st1) as [st2 out2]. simpl in *.
  destruct IH as [->|?]; [done|by right].
Qed.

Lemma moved_tick dir flt st :
  moved (filePositions st !! f)
        (filePositions (state (tick dir flt env st)) !! f).
Proof.
  unfold tick.
  match goal with
  | |- context [visit_projects env ?c ?ps ?s] =>
      pose proof (moved_projects c ps s) as Hm;
      destruct (visit_projects env c ps s) as [st1 out]
  end.
  simpl in *. by destruct (_ && _).
Qed.

End Cursor.

Lemma cursors_sorted dir flt f envs : ∀ st,
  StronglySorted le (option_list (filePositions st !! f) ++ sizes f envs) →
  Sorted cursor_le (filePositions st !! f :: cursors dir flt f envs st).
Proof.
  induction envs as [|env rest IH]; simpl; intros st Hs.
  - repeat constructor.
  - unfold sizes in Hs. simpl in Hs. fold (sizes f rest) in Hs.
    destruct (moved_tick env f dir flt st) as [Heq|(n & Hn & Heq)].
    + constructor.
      * apply IH. rewrite Heq.
        destruct (size (view env f)); [|done].
        apply StronglySorted_app in Hs as (Hx & H1 & H2).
        apply StronglySorted_app. split_and!; [|done|by inv H2].
        intros x1 x2 ? ?. apply Hx; [done|by right].
      * constructor. rewrite Heq. apply cursor_le_refl.
    + rewrite Hn in Hs. constructor.
      * apply IH. rewrite Heq. simpl.
        by apply StronglySorted_app_1_r in Hs.
      * constructor. rewrite Heq.
        destruct (filePositions st !! f) as [c|]; simpl; [|done].
        simpl in Hs. apply StronglySorted_cons in Hs as [Hall _].
        by apply Forall_cons in Hall as [? _].
Qed.


(** When [statSync] throws for a file, its cursor stays where it was. *)
Lemma cursor_kept_when_stat_fails dir flt env st f :
  size (view env f) = None →
  filePositions (state (tick dir flt env st)) !! f = filePositions st !! f.
Proof.
  intros Hs. destruct (moved_tick env f dir flt st) as [?|(n & Hn & _)]; [done|].
  congruence.
Qed.


(** *** Order of the messages of a pass *)

Lemma visit_file_labels env proj path st :
  Forall (λ e, project e = proj ∧ filePath e = path)
    (visit_file env proj path st).2.
Proof.
  unfold visit_file. destruct (filePositions st !! path); [|by constructor].
  destruct (display _ _) as [s o]. simpl.
  apply Forall_fmap, Forall_true. by intros m.
Qed.

Lemma visit_files_labels env proj files : ∀ st,
  Forall (λ e, project e = proj ∧ filePath e ∈ files)
    (visit_files env proj files st).2.
Proof.
  induction files as [|path rest IH]; simpl; intros st; [by constructor|].
  pose proof (visit_file_labels env proj path st) as H1.
  destruct (visit_file env proj path st) as [st1 out1].
  specialize (IH st1).
  destruct (visit_files env proj rest st1) as [st2 out2]. simpl in *.
  apply Forall_app. split.
  - eapply Forall_impl; [exact H1|]. intros e [? ->]. split; [done|by left].
  - eapply Forall_impl; [exact IH|]. intros e [? ?]. split; [done|by right].
Qed.

Lemma visit_projects_labels env convFiles projects : ∀ st,
  Forall (λ e, project e ∈ projects ∧
               filePath e ∈ projects ≫= λ proj, default [] (conv_get convFiles proj))
    (visit_projects env convFiles projects st).2.
Proof.
  induction projects as [|proj rest IH]; simpl; intros st; [by constructor|].
  pose proof (visit_files_labels env proj (default [] (conv_get convFiles proj)) st) as H1.
  destruct (visit_files env proj _ st) as [st1 out1].
  specialize (IH st1).
  destruct (visit_projects env convFiles rest st1) as [st2 out2]. simpl in *.
  apply Forall_app. split.
  - eapply Forall_impl; [exact H1|]. intros e [-> ?].
    split; [by left|]. apply elem_of_app. by left.
  - eapply Forall_impl; [exact IH|]. intros e [? ?].
    split; [by right|]. apply elem_of_app. by right.
Qed.

Lemma tick_visited dir flt env st :
  Forall (λ e, filePath e ∈ visited dir flt env) (emitted (tick dir flt env st)).
Proof.
  unfold tick, visited.
  match goal with
  | |- context [visit_projects env ?c ?ps ?s] =>
      pose proof (visit_projects_labels env c ps s) as Hl;
      destruct (visit_projects env c ps s) as [st1 out]
  end.
  simpl in *. eapply Forall_impl; [exact Hl|]. by intros e [_ ?].
Qed.

Lemma tick_unvisited dir flt env st f :
  f ∉ visited dir flt env → from_file f (emitted (tick dir flt env st)) = [].
Proof.
  intros Hni. pose proof (tick_visited dir flt env st) as Hv.
  unfold from_file. induction Hv as [|e out He Hv IH]; [done|].
  rewrite filter_cons. case_decide; [congruence|done].
Qed.











Lemma first_sight_silent dir flt env st f :
  size (view env f) = Some (String.length (bytes (view env f))) →
  filePositions st !! f = None →
  from_file f (emitted (tick dir flt env st)) = [].
Proof.
  intros Hsize Hnew. unfold tick.
  destruct (visit_projects _ _ _ _) as [st1 out] eqn:E. simpl.
  eapply first_sight_projects in E as (_ & Ho & _); [done..|].
  left. by destruct (_ && _).
Qed.


(** *** The text of a message *)

Lemma item_text_trimmed item t :
  item_text item = Some (Some t) → trim t = t.
Proof.
  unfold item_text. destruct (get_prop item "type") as [ty|]; [|done]. simpl.
  destruct (is_string ty "text"); [|done].
  destruct (get_prop item "text") as [[| | | |s| |]|]; simpl; try done.
  - by intros [= <-].
  - by intros [= <-].
  - intros [= <-]. apply trim_idem.
Qed.

Lemma push_items_trimmed keep mk content :
  (∀ t, text (mk t) = t) →
  (∀ t, keep t = true → t ≠ "") →
  Forall (λ m, trimmed (text m)) (push_items keep mk content).
Proof.
  intros Hmk Hkeep. induction content as [|item rest IH]; simpl; [constructor|].
  destruct (item_text item) as [[t|]|] eqn:E; [|done|constructor].
  destruct (keep t) eqn:K; [|done].
  constructor; [|done]. rewrite Hmk. split; [by apply Hkeep|].
  by apply item_text_trimmed in E.
Qed.

Lemma keep_user_nonempty t : keep_user t = true → t ≠ "".
Proof.
  unfold keep_user. intros [[Hn _]%andb_prop _]%andb_prop.
  apply negb_true_iff in Hn. by apply bool_decide_eq_false in Hn.
Qed.

Lemma keep_assistant_nonempty t : keep_assistant t = true → t ≠ "".
Proof.
  unfold keep_assistant. intros Hn.
  apply negb_true_iff in Hn. by apply bool_decide_eq_false in Hn.
Qed.

Lemma content_messages_trimmed keep mk message ms :
  (∀ t, text (mk t) = t) →
  (∀ t, keep t = true → t ≠ "") →
  content_messages keep mk message = Some ms →
  Forall (λ m, trimmed (text m)) ms.
Proof.
  intros Hmk Hkeep. unfold content_messages.
  destruct (get_prop message "content") as [c|]; [|done]. simpl.
  intros [= <-]. destruct (iterate _); [|constructor].
  by apply push_items_trimmed.
Qed.

Lemma record_messages_trimmed r data :
  Forall (λ m, trimmed (text m)) (record_messages r data).
Proof.
  unfold record_messages.
  destruct (get_prop data "agentId") as [a|]; [|constructor]. simpl.
  destruct (truthy a); [constructor|].
  destruct (get_prop data "type") as [ty|]; [|constructor]. simpl.
  destruct (get_prop data "message") as [msg|]; [|constructor]. simpl.
  destruct (get_prop data "timestamp") as [ts|]; [|constructor]. simpl.
  destruct (get_prop data "uuid") as [u|]; [|constructor]. simpl.
  destruct (_ && _).
  - destruct (content_messages _ _ _) as [ms|] eqn:E; [|constructor]. simpl.
    eapply content_messages_trimmed; [| |exact E]; [done|].
    apply keep_user_nonempty.
  - destruct (_ && _); [|constructor].
    destruct (content_messages _ _ _) as [ms|] eqn:E; [|constructor]. simpl.
    eapply content_messages_trimmed; [| |exact E]; [done|].
    apply keep_assistant_nonempty.
Qed.

Lemma lines_messages_trimmed lines : ∀ r,
  Forall (λ m, trimmed (text m)) (lines_messages r lines).
Proof.
  induction lines as [|line rest IH]; simpl; intros r; [constructor|].
  apply Forall_app. split; [|done].
  unfold line_messages. destruct (JSON_parse line); [|constructor].
  apply record_messages_trimmed.
Qed.

Section PerMessage.
Variable P : Message → Prop.
Hypothesis fetched_ok : ∀ v lastPos n, Forall P (extractAllMessages v lastPos n).

Lemma visit_file_all env proj path st :
  Forall (λ e, P (message e)) (visit_file env proj path st).2.
Proof.
  unfold visit_file. destruct (filePositions st !! path); [|constructor].
  destruct (display _ _) as [s o] eqn:E. simpl.
  apply display_spec in E as (_ & _ & _ & Hsub).
  apply Forall_fmap, Forall_forall. intros m Hm. simpl.
  eapply Forall_forall; [apply fetched_ok|]. by eapply elem_of_sublist.
Qed.

Lemma visit_files_all env proj files : ∀ st,
  Forall (λ e, P (message e)) (visit_files env proj files st).2.
Proof.
  induction files as [|path rest IH]; simpl; intros st; [constructor|].
  pose proof (visit_file_all env proj path st) as H1.
  destruct (visit_file env proj path st) as [st1 out1].
  specialize (IH st1).
  destruct (visit_files env proj rest st1) as [st2 out2].
  simpl in *. by apply Forall_app.
Qed.

Lemma visit_projects_all env convFiles projects : ∀ st,
  Forall (λ e, P (message e)) (visit_projects env convFiles projects st).2.
Proof.
  induction projects as [|proj rest IH]; simpl; intros st; [constructor|].
  pose proof (visit_files_all env proj (default [] (conv_get convFiles proj)) st) as H1.
  destruct (visit_files env proj _ st) as [st1 out1].
  specialize (IH st1).
  destruct (visit_projects env convFiles rest st1) as [st2 out2].
  simpl in *. by apply Forall_app.
Qed.

Lemma tick_all dir flt env st :
  Forall (λ e, P (message e)) (emitted (tick dir flt env st)).
Proof.
  unfold tick.
  match goal with
  | |- context [visit_projects env ?c ?ps ?s] =>
      pose proof (visit_projects_all env c ps s) as Hl;
      destruct (visit_projects env c ps s) as [st1 out]
  end.
  done.
Qed.

Lemma watch_all dir flt envs : ∀ st,
  Forall (λ e, P (message e)) (concat (LogSource.passes dir flt envs st).2).
Proof.
  induction envs as [|env rest IH]; simpl; intros st; [constructor|].
  specialize (IH (state (tick dir flt env st))).
  destruct (LogSource.passes dir flt rest _) as [st' outs].
  simpl in *. apply Forall_app. split; [apply tick_all|done].
Qed.

End PerMessage.

Lemma watch_trimmed dir flt envs st :
  Forall (λ e, trimmed (text (message e)))
    (concat (LogSource.passes dir flt envs st).2).
Proof.
  apply (watch_all (λ m, trimmed (text m))).
  intros. apply lines_messages_trimmed.
Qed.


(** *** Identifiers of the messages of a record *)

Lemma obj_lookup_missing k members :
  k ∉ members.*1 → obj_lookup k members = None.
Proof.
  induction members as [|[k' v] rest IH]; simpl; [done|].
  intros [Hne Hni]%not_elem_of_cons. rewrite (IH Hni).
  by rewrite bool_decide_eq_false_2.
Qed.

Lemma push_items_ids keep mk content i :
  (∀ t, LogSource.id (mk t) = i) →
  Forall (λ m, LogSource.id m = i) (push_items keep mk content).
Proof.
  intros Hmk. induction content as [|item rest IH]; simpl; [constructor|].
  destruct (item_text item) as [[t|]|]; [|done|constructor].
  destruct (keep t); [|done]. by constructor.
Qed.

Lemma content_messages_ids keep mk message ms i :
  (∀ t, LogSource.id (mk t) = i) →
  content_messages keep mk message = Some ms →
  Forall (λ m, LogSource.id m = i) ms.
Proof.
  intros Hmk. unfold content_messages.
  destruct (get_prop message "content") as [c|]; [|done]. simpl.
  intros [= <-]. destruct (iterate _); [|constructor].
  by apply push_items_ids.
Qed.

(** The messages of a record have the identifier [data.uuid || ""]. *)
Lemma record_messages_ids r data uuid :
  get_prop data "uuid" = Some uuid →
  Forall (λ m, LogSource.id m = ident_of r (js_or uuid (VStr "")))
    (record_messages r data).
Proof.
  intros Hu. unfold record_messages.
  destruct (get_prop data "agentId") as [a|]; [|constructor]. simpl.
  destruct (truthy a); [constructor|].
  destruct (get_prop data "type") as [ty|]; [|constructor]. simpl.
  destruct (get_prop data "message") as [msg|]; [|constructor]. simpl.
  destruct (get_prop data "timestamp") as [ts|]; [|constructor]. simpl.
  rewrite Hu. simpl.
  destruct (_ && _).
  - destruct (content_messages _ _ _) as [ms|] eqn:E; [|constructor]. simpl.
    eapply content_messages_ids; [|exact E]. done.
  - destruct (_ && _); [|constructor].
    destruct (content_messages _ _ _) as [ms|] eqn:E; [|constructor]. simpl.
    eapply content_messages_ids; [|exact E]. done.
Qed.

Lemma none_with_key {A K} `{EqDecision K} (g : A → K) (k : K) (l : list A) :
  k ∉ g <$> l → filter (λ x, g x = k) l = [].
Proof.
  induction l as [|x l IH]; [done|].
  rewrite fmap_cons, not_elem_of_cons, filter_cons. intros [Hne Hni].
  case_decide; [congruence|auto].
Qed.

Lemma at_most_one_with_key {A K} `{EqDecision K} (g : A → K) (k : K) (l : list A) :
  NoDup (g <$> l) → length (filter (λ x, g x = k) l) ≤ 1.
Proof.
  induction l as [|x l IH]; [simpl; lia|].
  rewrite fmap_cons. intros [Hx Hl]%NoDup_cons. rewrite filter_cons.
  case_decide as Hk; [|auto]. simpl.
  rewrite none_with_key; [simpl; lia|congruence].
Qed.


(** *** Where the unterminated line lies *)

(** What [readline] has not yet given out is the end of what it was fed. *)
Lemma read_lines_pending n : ∀ s cur lines pending,
  String.length s < n →
  read_lines cur s = (lines, pending) →
  ∃ before, String.rev cur +:+ s = before +:+ pending.
Proof.
  induction n as [|n IH]; intros s cur lines pending Hn Hr; [lia|].
  destruct s as [|c s]; simpl in Hr.
  - simplify_eq. exists "". by rewrite append_empty_r.
  - assert (∀ mid t l, String.length t ≤ String.length s →
              read_lines "" t = (l, pending) →
              ∃ before, mid +:+ t = before +:+ pending) as Hrest.
    { intros mid t l Ht Hl.
      destruct (IH t "" l pending) as [b Hb]; [simpl in Hn; lia|done|].
      change (t = b +:+ pending) in Hb.
      exists (mid +:+ b). by rewrite append_assoc, <- Hb. }
    destruct (decide (c = LF)).
    + destruct (read_lines "" s) as [l p] eqn:E. simplify_eq.
      destruct (Hrest (String.rev cur +:+ String LF "") s l) as [b Hb]; [lia|done|].
      exists b. by rewrite <- Hb, append_assoc.
    + destruct (decide (c = CR)).
      * destruct s as [|c' s'].
        { simplify_eq. eexists. by rewrite append_empty_r. }
        destruct (decide (c' = LF)).
        -- destruct (read_lines "" s') as [l p] eqn:E. simplify_eq.
           destruct (Hrest (String.rev cur +:+ String CR (String LF "")) s' l)
             as [b Hb]; [simpl; lia|done|].
           exists b. by rewrite <- Hb, append_assoc.
        -- destruct (read_lines "" (String c' s')) as [l p] eqn:E. simplify_eq.
           destruct (Hrest (String.rev cur +:+ String CR "") (String c' s') l)
             as [b Hb]; [lia|done|].
           exists b. by rewrite <- Hb, append_assoc.
      * destruct (IH s (String c cur) lines pending) as [b Hb];
          [simpl in Hn; lia|done|].
        exists b. by rewrite <- Hb, rev_cons_append.
Qed.

(** The unterminated line that ends a file begins before the end of the
    file. *)
Lemma pending_position old lastPos lines pending :
  read_lines "" (drop_chars lastPos old) = (lines, pending) →
  pending ≠ "" →
  ∃ start, start < String.length old ∧ drop_chars start old = pending.
Proof.
  intros Hr Hne.
  destruct (read_lines_pending _ _ _ _ _ (Nat.lt_succ_diag_r _) Hr) as [b Hb].
  change (drop_chars lastPos old = b +:+ pending) in Hb.
  assert (old = (take_chars lastPos old +:+ b) +:+ pending) as Hold.
  { by rewrite append_assoc, <- Hb, take_drop_chars. }
  remember (take_chars lastPos old +:+ b) as before eqn:Hbefore.
  clear Hbefore Hb Hr. subst old.
  exists (String.length before). split.
  - rewrite length_append. destruct pending; [done|simpl; lia].
  - apply drop_chars_app.
Qed.


(** *** Which of the messages of a fetch are printed *)

(** Of the messages with a given identifier, the loop prints the first, and
    only when the identifier is not in the set. *)
Lemma display_first i ms : ∀ s,
  filter (λ m, LogSource.id m = i) (display s ms).2
  = if decide (i ∈ s) then []
    else take 1 (filter (λ m, LogSource.id m = i) ms).
Proof.
  induction ms as [|m rest IH]; intros s; simpl; [by case_decide|].
  destruct (decide (LogSource.id m ∈ s)) as [Hm|Hm].
  - rewrite IH, (filter_cons _ m). case_decide as Hi; [done|].
    case_decide as Hid; [|done]. by subst.
  - specialize (IH ({[LogSource.id m]} ∪ s)).
    destruct (display ({[LogSource.id m]} ∪ s) rest) as [s' o]. simpl in *.
    rewrite !(filter_cons _ m). destruct (decide (LogSource.id m = i)) as [Hid|Hid].
    + subst i. rewrite IH, decide_True by set_solver.
      by rewrite decide_False.
    + rewrite IH. destruct (decide (i ∈ s)) as [Hi|Hi].
      * by rewrite decide_True by set_solver.
      * by rewrite decide_False by set_solver.
Qed.

Lemma display_marks ms : ∀ s m,
  m ∈ ms → LogSource.id m ∈ (display s ms).1.
Proof.
  induction ms as [|m0 rest IH]; intros s m Hin; [by apply elem_of_nil in Hin|].
  simpl. case_decide as Hseen.
  - apply elem_of_cons in Hin as [->|Hin]; [|auto].
    destruct (display s rest) as [s' o] eqn:E.
    apply display_spec in E as (Hsub & _). simpl. set_solver.
  - destruct (display ({[LogSource.id m0]} ∪ s) rest) as [s' o] eqn:E. simpl.
    apply elem_of_cons in Hin as [->|Hin].
    + apply display_spec in E as (Hsub & _). set_solver.
    + specialize (IH ({[LogSource.id m0]} ∪ s) m Hin). by rewrite E in IH.
Qed.

(** *** The order of the messages of a file *)


Section FetchOrder.
Variables (env : Env) (f : string).

(** The messages of [out] read from [f] are among those of some fetches
    from [f], in the order of each fetch. *)
Local Abbreviation in_fetch_order out :=
  (∃ fetches,
     Forall (λ ms, ∃ lastPos n,
               ms = extractAllMessages (view env f) (Some lastPos) n) fetches ∧
     from_file f out `sublist_of` concat fetches).







End FetchOrder.

End LogFacts.

(** ** The key-value source *)

Section KvFacts.
Import KvSource.
Context `{Runtime}.

Lemma visit_header_advances db c header st st' out ok :
  visit_header db c header st = (st', out, ok) →
  advances seen bubbleId st out st'.
Proof.
  unfold visit_header.
  destruct (get_prop header "bubbleId") as [b|]; [|intros [= <- <- <-]; by apply advances_silent].
  destruct (get_prop header "type") as [ty|]; [|intros [= <- <- <-]; by apply advances_silent].
  case_decide as Hin.
  - intros [= <- <- <-]. by apply advances_silent.
  - intros [= <- <- <-]. destruct (bubble_text db b) as [text|].
    + split; unfold seen; simpl.
      * set_solver.
      * apply NoDup_singleton.
      * intros e ->%list_elem_of_singleton. done.
      * intros e ->%list_elem_of_singleton. set_solver.
    + apply advances_silent. unfold seen. simpl. set_solver.
Qed.

Lemma visit_headers_advances db c hs : ∀ st st' out ok,
  visit_headers db c hs st = (st', out, ok) → advances seen bubbleId st out st'.
Proof.
  induction hs as [|h rest IH]; simpl; intros st st' out ok Hv.
  - simplify_eq. by apply advances_silent.
  - destruct (visit_header db c h st) as [[st1 out1] [|]] eqn:E1.
    + destruct (visit_headers db c rest st1) as [[st2 out2] ok2] eqn:E2.
      simplify_eq. eapply advances_app; eauto using visit_header_advances.
    + simplify_eq. eauto using visit_header_advances.
Qed.

Lemma visit_conversation_advances flt db c st st' out ok :
  visit_conversation flt db c st = (st', out, ok) →
  advances seen bubbleId st out st'.
Proof.
  unfold visit_conversation.
  destruct (filtered_out flt c) as [[|]|];
    [intros [= <- <- <-]; by apply advances_silent| |
     intros [= <- <- <-]; by apply advances_silent].
  destruct (iterate (headers c)) as [hs|];
    [|intros [= <- <- <-]; by apply advances_silent].
  apply visit_headers_advances.
Qed.

Lemma visit_conversations_advances flt db cs : ∀ st st' out ok,
  visit_conversations flt db cs st = (st', out, ok) →
  advances seen bubbleId st out st'.
Proof.
  induction cs as [|c rest IH]; simpl; intros st st' out ok Hv.
  - simplify_eq. by apply advances_silent.
  - destruct (visit_conversation flt db c st) as [[st1 out1] [|]] eqn:E1.
    + destruct (visit_conversations flt db rest st1) as [[st2 out2] ok2] eqn:E2.
      simplify_eq. eapply advances_app; eauto using visit_conversation_advances.
    + simplify_eq. eauto using visit_conversation_advances.
Qed.

Lemma kv_tick_advances flt db st :
  advances seen bubbleId st (KvSource.emitted (KvSource.tick flt db st))
    (KvSource.state (KvSource.tick flt db st)).
Proof.
  unfold KvSource.tick. destruct (opens db); [|by apply advances_silent].
  destruct (visit_conversations _ _ _ _) as [[st1 out] ok] eqn:E. simpl.
  apply visit_conversations_advances in E as [m n f k]. by split.
Qed.

Lemma kv_watch_advances flt dbs : ∀ st st' outs,
  KvSource.passes flt dbs st = (st', outs) →
  advances seen bubbleId st (concat outs) st'.
Proof.
  induction dbs as [|db rest IH]; simpl; intros st st' outs Hw.
  - simplify_eq. by apply advances_silent.
  - destruct (KvSource.passes flt rest _) as [st2 outs2] eqn:E.
    simplify_eq. simpl. eapply advances_app; eauto using kv_tick_advances.
Qed.


(** *** The text of a bubble *)

Lemma bubble_text_not_blank db b t :
  bubble_text db b = Some t → trim t ≠ "".
Proof.
  unfold bubble_text. destruct (bubbleRow db b) as [| |v]; [done..|].
  destruct (JSON_parse v) as [bubble|]; [|done]. simpl.
  destruct (get_prop bubble "text") as [x|]; [|done]. simpl.
  destruct (js_or x (VStr "")); try done.
  case_bool_decide; [done|]. by intros [= <-].
Qed.

Section PerBubble.
Variable P : Emitted → Prop.
Hypothesis header_ok : ∀ db c h st, Forall P (visit_header db c h st).1.2.

Lemma visit_headers_all db c hs : ∀ st,
  Forall P (visit_headers db c hs st).1.2.
Proof.
  induction hs as [|h rest IH]; simpl; intros st; [constructor|].
  pose proof (header_ok db c h st) as H1.
  destruct (visit_header db c h st) as [[st1 out1] [|]]; [|done].
  specialize (IH st1).
  destruct (visit_headers db c rest st1) as [[st2 out2] ok].
  simpl in *. by apply Forall_app.
Qed.

Lemma visit_conversation_all flt db c st :
  Forall P (visit_conversation flt db c st).1.2.
Proof.
  unfold visit_conversation.
  destruct (filtered_out flt c) as [[|]|]; [constructor| |constructor].
  destruct (iterate (headers c)); [|constructor].
  apply visit_headers_all.
Qed.

Lemma visit_conversations_all flt db cs : ∀ st,
  Forall P (visit_conversations flt db cs st).1.2.
Proof.
  induction cs as [|c rest IH]; simpl; intros st; [constructor|].
  pose proof (visit_conversation_all flt db c st) as H1.
  destruct (visit_conversation flt db c st) as [[st1 out1] [|]]; [|done].
  specialize (IH st1).
  destruct (visit_conversations flt db rest st1) as [[st2 out2] ok].
  simpl in *. by apply Forall_app.
Qed.

Lemma kv_tick_all flt db st :
  Forall P (KvSource.emitted (KvSource.tick flt db st)).
Proof.
  unfold KvSource.tick. destruct (opens db); [|constructor].
  match goal with
  | |- context [visit_conversations flt db ?cs ?s] =>
      pose proof (visit_conversations_all flt db cs s) as Hl;
      destruct (visit_conversations flt db cs s) as [[st1 out] ok]
  end.
  done.
Qed.

Lemma kv_watch_all flt dbs : ∀ st,
  Forall P (concat (KvSource.passes flt dbs st).2).
Proof.
  induction dbs as [|db rest IH]; simpl; intros st; [constructor|].
  specialize (IH (KvSource.state (KvSource.tick flt db st))).
  destruct (KvSource.passes flt rest _) as [st' outs].
  simpl in *. apply Forall_app. split; [apply kv_tick_all|done].
Qed.

End PerBubble.

Lemma kv_watch_not_blank flt dbs st :
  Forall (λ e, trim (KvSource.text e) ≠ "")
    (concat (KvSource.passes flt dbs st).2).
Proof.
  apply kv_watch_all. intros db c h st0. unfold visit_header.
  destruct (get_prop h "bubbleId") as [b|]; [|constructor].
  destruct (get_prop h "type") as [ty|]; [|constructor].
  case_decide; [constructor|]. simpl.
  destruct (bubble_text db b) as [t|] eqn:E; [|constructor].
  repeat constructor. simpl. by apply bubble_text_not_blank in E.
Qed.


(** *** The conversation a bubble is printed under *)

Lemma ident_of_primitive r v :
  is_primitive v = true → ident_of r v = ident_of 0 v.
Proof. by destruct v. Qed.

Lemma visit_conversations_app flt db cs1 cs2 : ∀ st,
  visit_conversations flt db (cs1 ++ cs2) st
  = match visit_conversations flt db cs1 st with
    | (st1, out1, true) =>
        let '(st2, out2, ok) := visit_conversations flt db cs2 st1 in
        (st2, out1 ++ out2, ok)
    | stopped => stopped
    end.
Proof.
  induction cs1 as [|c rest IH]; simpl; intros st.
  - by destruct (visit_conversations flt db cs2 st) as [[? ?] ?].
  - destruct (visit_conversation flt db c st) as [[st1 out1] [|]]; [|done].
    rewrite IH.
    destruct (visit_conversations flt db rest st1) as [[st2 out2] [|]]; [|done].
    destruct (visit_conversations flt db cs2 st2) as [[st3 out3] ok].
    by rewrite app_assoc.
Qed.

(** A header that has been visited has its bubble marked. *)
Lemma visit_header_marks db c h st st' out v :
  visit_header db c h st = (st', out, true) →
  get_prop h "bubbleId" = Some v →
  ident_of (visits st) v ∈ seenBubbles st'.
Proof.
  unfold visit_header. intros Hv Hb. rewrite Hb in Hv.
  destruct (get_prop h "type"); [|done].
  case_decide; simplify_eq/=; set_solver.
Qed.

Lemma visit_headers_marks db c hs : ∀ st st' out h v,
  visit_headers db c hs st = (st', out, true) →
  h ∈ hs →
  get_prop h "bubbleId" = Some v →
  is_primitive v = true →
  ident_of 0 v ∈ seenBubbles st'.
Proof.
  induction hs as [|h0 rest IH]; simpl; intros st st' out h v Hv Hin Hb Hp.
  - by apply elem_of_nil in Hin.
  - destruct (visit_header db c h0 st) as [[st1 out1] [|]] eqn:E1; [|done].
    destruct (visit_headers db c rest st1) as [[st2 out2] ok] eqn:E2.
    simplify_eq. apply elem_of_cons in Hin as [->|Hin].
    + apply visit_header_marks with (v := v) in E1; [|done].
      rewrite (ident_of_primitive _ _ Hp) in E1.
      apply visit_headers_advances in E2 as [m _ _ _]. by apply m.
    + eauto.
Qed.

Lemma visit_header_conversation db c h st :
  Forall (λ e, conversation e = c) (visit_header db c h st).1.2.
Proof.
  unfold visit_header.
  destruct (get_prop h "bubbleId") as [b|]; [|constructor].
  destruct (get_prop h "type") as [ty|]; [|constructor].
  case_decide; [constructor|]. simpl.
  destruct (bubble_text db b); repeat constructor.
Qed.

Lemma visit_headers_conversation db c hs : ∀ st,
  Forall (λ e, conversation e = c) (visit_headers db c hs st).1.2.
Proof.
  induction hs as [|h rest IH]; simpl; intros st; [constructor|].
  pose proof (visit_header_conversation db c h st) as H1.
  destruct (visit_header db c h st) as [[st1 out1] [|]]; [|done].
  specialize (IH st1).
  destruct (visit_headers db c rest st1) as [[st2 out2] ok].
  simpl in *. by apply Forall_app.
Qed.

Lemma visit_conversation_conversation flt db c st :
  Forall (λ e, conversation e = c) (visit_conversation flt db c st).1.2.
Proof.
  unfold visit_conversation.
  destruct (filtered_out flt c) as [[|]|]; [constructor| |constructor].
  destruct (iterate (headers c)); [|constructor].
  apply visit_headers_conversation.
Qed.

Lemma visit_conversations_conversation flt db cs : ∀ st,
  Forall (λ e, conversation e ∈ cs) (visit_conversations flt db cs st).1.2.
Proof.
  induction cs as [|c rest IH]; simpl; intros st; [constructor|].
  pose proof (visit_conversation_conversation flt db c st) as H1.
  destruct (visit_conversation flt db c st) as [[st1 out1] [|]].
  - specialize (IH st1).
    destruct (visit_conversations flt db rest st1) as [[st2 out2] ok].
    simpl in *. apply Forall_app. split.
    + eapply Forall_impl; [exact H1|]. intros e ->. by left.
    + eapply Forall_impl; [exact IH|]. intros e ?. by right.
  - simpl in *. eapply Forall_impl; [exact H1|]. intros e ->. by left.
Qed.

(** Once the loop has been through the headers of a conversation, a bubble
    of that conversation is not printed under a later one. *)
Lemma first_owner flt db cs1 c cs2 st hs h v e :
  filtered_out flt c = Some false →
  iterate (headers c) = Some hs →
  h ∈ hs →
  get_prop h "bubbleId" = Some v →
  is_primitive v = true →
  e ∈ (visit_conversations flt db (cs1 ++ c :: cs2) st).1.2 →
  bubbleId e = ident_of 0 v →
  conversation e ∈ cs1 ++ [c].
Proof.
  intros Hflt Hit Hin Hb Hp He Hid.
  rewrite (cons_middle c cs1 cs2), app_assoc in He.
  rewrite visit_conversations_app in He.
  pose proof (visit_conversations_conversation flt db (cs1 ++ [c]) st) as Hc.
  rewrite Forall_forall in Hc.
  destruct (visit_conversations flt db (cs1 ++ [c]) st) as [[st1 out1] [|]] eqn:E1;
    [|by apply Hc].
  destruct (visit_conversations flt db cs2 st1) as [[st2 out2] ok] eqn:E2.
  simpl in *. apply elem_of_app in He as [He|He]; [by apply Hc|].
  exfalso.
  apply visit_conversations_advances in E2 as [_ _ Hfresh _].
  apply (Hfresh e He). unfold seen. rewrite Hid.
  rewrite visit_conversations_app in E1.
  destruct (visit_conversations flt db cs1 st) as [[sta outa] [|]]; [|done].
  simpl in E1. unfold visit_conversation in E1. rewrite Hflt, Hit in E1.
  destruct (visit_headers db c hs sta) as [[stb outb] [|]] eqn:E3; [|done].
  simplify_eq. eapply visit_headers_marks; eauto.
Qed.


(** *** The first conversation to list a bubble *)

Lemma visit_headers_app db c hs1 hs2 : ∀ st,
  visit_headers db c (hs1 ++ hs2) st
  = match visit_headers db c hs1 st with
    | (st1, out1, true) =>
        let '(st2, out2, ok) := visit_headers db c hs2 st1 in
        (st2, out1 ++ out2, ok)
    | stopped => stopped
    end.
Proof.
  induction hs1 as [|h rest IH]; simpl; intros st.
  - by destruct (visit_headers db c hs2 st) as [[? ?] ?].
  - destruct (visit_header db c h st) as [[st1 out1] [|]]; [|done].
    rewrite IH.
    destruct (visit_headers db c rest st1) as [[st2 out2] [|]]; [|done].
    destruct (visit_headers db c hs2 st2) as [[st3 out3] ok].
    by rewrite app_assoc.
Qed.

(** A header met with its bubble not yet marked, whose bubble has a text,
    is printed under the conversation that is being scanned. *)
Lemma visit_header_prints db c h st v ty text :
  get_prop h "bubbleId" = Some v →
  get_prop h "type" = Some ty →
  (ident_of (visits st) v ∉ seenBubbles st) →
  bubble_text db v = Some text →
  (visit_header db c h st).1.2
  = [ {| conversation := c; isUser := is_one ty; KvSource.text := text;
         bubbleId := ident_of (visits st) v |} ].
Proof.
  intros Hb Hty Hni Ht. unfold visit_header.
  rewrite Hb, Hty, decide_False by done. simpl. by rewrite Ht.
Qed.

Lemma visit_headers_head_in db c h hs st e :
  e ∈ (visit_header db c h st).1.2 → e ∈ (visit_headers db c (h :: hs) st).1.2.
Proof.
  simpl. destruct (visit_header db c h st) as [[st1 out1] [|]]; [|done].
  destruct (visit_headers db c hs st1) as [[st2 out2] ok]. simpl.
  intros He. apply elem_of_app. by left.
Qed.

Lemma visit_headers_app_in db c hs1 hs2 st st1 out1 e :
  visit_headers db c hs1 st = (st1, out1, true) →
  e ∈ (visit_headers db c hs2 st1).1.2 →
  e ∈ (visit_headers db c (hs1 ++ hs2) st).1.2.
Proof.
  intros E He. rewrite visit_headers_app, E.
  destruct (visit_headers db c hs2 st1) as [[st2 out2] ok]. simpl in *.
  apply elem_of_app. by right.
Qed.

Lemma visit_conversations_head_in flt db c cs st e :
  e ∈ (visit_conversation flt db c st).1.2 →
  e ∈ (visit_conversations flt db (c :: cs) st).1.2.
Proof.
  simpl. destruct (visit_conversation flt db c st) as [[st1 out1] [|]]; [|done].
  destruct (visit_conversations flt db cs st1) as [[st2 out2] ok]. simpl.
  intros He. apply elem_of_app. by left.
Qed.

Lemma visit_conversations_app_in flt db cs1 cs2 st st1 out1 e :
  visit_conversations flt db cs1 st = (st1, out1, true) →
  e ∈ (visit_conversations flt db cs2 st1).1.2 →
  e ∈ (visit_conversations flt db (cs1 ++ cs2) st).1.2.
Proof.
  intros E He. rewrite visit_conversations_app, E.
  destruct (visit_conversations flt db cs2 st1) as [[st2 out2] ok]. simpl in *.
  apply elem_of_app. by right.
Qed.

Lemma first_lister_prints flt db cs1 c cs2 hs1 h hs2 st st1 out1 st2 out2 v ty text :
  visit_conversations flt db cs1 st = (st1, out1, true) →
  filtered_out flt c = Some false →
  iterate (headers c) = Some (hs1 ++ h :: hs2) →
  visit_headers db c hs1 st1 = (st2, out2, true) →
  get_prop h "bubbleId" = Some v →
  get_prop h "type" = Some ty →
  is_primitive v = true →
  (ident_of 0 v ∉ seenBubbles st2) →
  bubble_text db v = Some text →
  {| conversation := c; isUser := is_one ty; KvSource.text := text;
     bubbleId := ident_of 0 v |}
  ∈ (visit_conversations flt db (cs1 ++ c :: cs2) st).1.2.
Proof.
  intros E1 Hflt Hit E2 Hb Hty Hp Hni Ht.
  eapply visit_conversations_app_in; [exact E1|].
  apply visit_conversations_head_in.
  unfold visit_conversation. rewrite Hflt, Hit.
  eapply visit_headers_app_in; [exact E2|].
  apply visit_headers_head_in.
  rewrite <- (ident_of_primitive (visits st2) v Hp) in Hni |- *.
  rewrite (visit_header_prints db c h st2 v ty text Hb Hty Hni Ht).
  apply list_elem_of_here.
Qed.

End KvFacts.

(** ** The claims *)

Section Claims.
Context `{Runtime}.

(** C1 (at-most-once emission), as amended.  The sets of seen identifiers
    tell two identifiers apart as a [Set] does.  An identifier that is a
    string, a number, a boolean, [null] or missing is the same identifier
    wherever it is parsed: for such an identifier [v], over any number of
    passes and from any state, the log-file watcher prints at most one
    message with the identifier [v] for a file, and the key-value watcher
    at most one message for the bubble [v], whatever the files and the store
    show at each pass and however often a record comes back.  Every message
    printed, whatever its identifier, had its identifier missing from the
    set when the passes began and has it in the set when they end. *)
Theorem at_most_once_emission :
  (∀ r r' v, is_primitive v = true → ident_of r v = ident_of r' v) ∧
  (∀ dir flt envs st f v,
     is_primitive v = true →
     length (filter (λ e, LogSource.key e = (f, ident_of 0 v))
               (concat (LogSource.passes dir flt envs st).2)) ≤ 1) ∧
  (∀ flt dbs st v,
     is_primitive v = true →
     length (filter (λ e, KvSource.bubbleId e = ident_of 0 v)
               (concat (KvSource.passes flt dbs st).2)) ≤ 1) ∧
  (∀ dir flt envs st,
     let run := LogSource.passes dir flt envs st in
     ∀ e, e ∈ concat run.2 →
       ¬ LogSource.seen st (LogSource.key e) ∧
       LogSource.seen run.1 (LogSource.key e)) ∧
  (∀ flt dbs st,
     let run := KvSource.passes flt dbs st in
     ∀ e, e ∈ concat run.2 →
       (KvSource.bubbleId e ∉ KvSource.seenBubbles st) ∧
       KvSource.bubbleId e ∈ KvSource.seenBubbles run.1).
Proof.
  split_and!.
  - intros r r' v Hp. by rewrite (ident_of_primitive r), (ident_of_primitive r').
  - intros dir flt envs st f v _.
    destruct (LogSource.passes dir flt envs st) as [st' outs] eqn:E.
    apply watch_advances in E as [_ Hnd _ _]. simpl.
    by apply at_most_one_with_key.
  - intros flt dbs st v _.
    destruct (KvSource.passes flt dbs st) as [st' outs] eqn:E.
    apply kv_watch_advances in E as [_ Hnd _ _]. simpl.
    by apply at_most_one_with_key.
  - intros dir flt envs st run. subst run.
    destruct (LogSource.passes dir flt envs st) as [st' outs] eqn:E.
    apply watch_advances in E as [m n f k]. simpl.
    intros e He. split; [by apply f | by apply k].
  - intros flt dbs st run. subst run.
    destruct (KvSource.passes flt dbs st) as [st' outs] eqn:E.
    apply kv_watch_advances in E as [m n f k]. simpl.
    intros e He. split; [by apply f | by apply k].
Qed.


(** C2 (first-sight suppression), as amended: for the log-file source.  When
    a pass visits a file that has no cursor yet, and the file holds [N] bytes,
    which is the size reported for it, the pass prints no message read from
    that file and leaves its cursor at [N]. *)
Theorem first_sight_suppression dir flt env st f N :
  LogSource.filePositions st !! f = None →
  f ∈ LogSource.visited dir flt env →
  LogSource.size (LogSource.view env f) = Some N →
  String.length (LogSource.bytes (LogSource.view env f)) = N →
  LogSource.from_file f (LogSource.emitted (LogSource.tick dir flt env st)) = [] ∧
  LogSource.filePositions (LogSource.state (LogSource.tick dir flt env st)) !! f
  = Some N.
Proof.
  intros Hnew Hin Hsize <-. by apply first_sight_tick.
Qed.


(** C3 (partial-line safety), as amended.  A pass visits a log file whose
    content past the cursor ends in a line without a line end, on which
    [JSON.parse] throws; the file is read without error and the size
    reported for it is the length of its content.  Then the messages printed
    for the file are those that the loop over the messages of the complete
    lines prints: none comes from the partial line.  The cursor is left at
    the size of the file, which is past the offset where the partial line
    starts, and a later stream opened at that cursor reads only what has
    been appended since. *)
Theorem partial_line_skipped dir flt env st f lastPos lines pending :
  LogSource.filePositions st !! f = Some lastPos →
  f ∈ LogSource.visited dir flt env →
  LogSource.fault (LogSource.view env f) = None →
  LogSource.size (LogSource.view env f)
  = Some (String.length (LogSource.bytes (LogSource.view env f))) →
  LogSource.read_lines ""
    (drop_chars lastPos (LogSource.bytes (LogSource.view env f)))
  = (lines, pending) →
  pending ≠ "" →
  JSON_parse pending = None →
  let p := LogSource.tick dir flt env st in
  let old := LogSource.bytes (LogSource.view env f) in
  (∃ n, LogSource.from_file f (LogSource.emitted p)
        = (LogSource.display (LogSource.seen_of st f)
             (LogSource.lines_messages n lines)).2) ∧
  (∃ start cursor,
     drop_chars start old = pending ∧
     LogSource.filePositions (LogSource.state p) !! f = Some cursor ∧
     start < cursor ∧ cursor = String.length old) ∧
  ∀ sz fl more,
    LogSource.stream_lines
      {| LogSource.size := sz; LogSource.bytes := old +:+ more;
         LogSource.fault := fl |} (String.length old)
    = LogSource.stream_lines
        {| LogSource.size := sz; LogSource.bytes := more;
           LogSource.fault := fl |} 0.
Proof.
  intros Hpos Hin Hf Hsize Hr Hne Hparse p old.
  destruct (tick_fetch dir flt env st f lastPos Hsize Hpos Hin)
    as (n & Hout & _ & Hcur).
  split_and!.
  - exists n. subst p. rewrite Hout.
    rewrite (extract_unterminated _ _ _ _ _ Hf Hr Hne).
    unfold LogSource.line_messages. rewrite Hparse. by rewrite app_nil_r.
  - destruct (pending_position old lastPos lines pending Hr Hne)
      as (start & Hlt & Hdrop).
    by exists start, (String.length old).
  - intros. apply stream_lines_appended.
Qed.


(** C4 (cursor monotonicity), as amended.  After a pass the cursor of a
    file is the one it had before, or the size reported for the file during
    the pass.  So if the sizes reported over the passes never decrease, and
    none is below the cursor the file has at the start, the cursors that the
    file has after each pass never decrease. *)
Theorem cursor_monotone_when_file_grows dir flt f :
  (∀ env st,
     let after := LogSource.filePositions
                    (LogSource.state (LogSource.tick dir flt env st)) !! f in
     after = LogSource.filePositions st !! f ∨
     ∃ n, LogSource.size (LogSource.view env f) = Some n ∧ after = Some n) ∧
  (∀ envs st,
     StronglySorted le
       (option_list (LogSource.filePositions st !! f) ++ LogSource.sizes f envs) →
     StronglySorted LogSource.cursor_le
       (LogSource.filePositions st !! f :: LogSource.cursors dir flt f envs st)).
Proof.
  split.
  - intros env st. apply moved_tick.
  - intros envs st Hs. apply Sorted.Sorted_StronglySorted.
    + apply cursor_le_transitive.
    + by apply cursors_sorted.
Qed.


(** C5 (fetch failure), as amended.  A pass visits a log file with a cursor,
    and the stream fails after [k] bytes; the size reported for the file is
    the length of its content.  Then the messages of the lines completed
    within those [k] bytes still go through the loop that prints them, and
    the cursor is left at the size of the file.  The cursor of a file stays
    where it was when [statSync] throws for the file. *)
Theorem failed_fetch_keeps_lines dir flt env st f :
  (∀ lastPos k,
     LogSource.filePositions st !! f = Some lastPos →
     f ∈ LogSource.visited dir flt env →
     LogSource.fault (LogSource.view env f) = Some k →
     LogSource.size (LogSource.view env f)
     = Some (String.length (LogSource.bytes (LogSource.view env f))) →
     let p := LogSource.tick dir flt env st in
     let read := take_chars k
                   (drop_chars lastPos (LogSource.bytes (LogSource.view env f))) in
     (∃ n, LogSource.from_file f (LogSource.emitted p)
           = (LogSource.display (LogSource.seen_of st f)
                (LogSource.lines_messages n (LogSource.read_lines "" read).1)).2) ∧
     LogSource.filePositions (LogSource.state p) !! f
     = Some (String.length (LogSource.bytes (LogSource.view env f)))) ∧
  (LogSource.size (LogSource.view env f) = None →
   LogSource.filePositions (LogSource.state (LogSource.tick dir flt env st)) !! f
   = LogSource.filePositions st !! f).
Proof.
  split; [|apply cursor_kept_when_stat_fails].
  intros lastPos k Hpos Hin Hf Hsize p read.
  destruct (tick_fetch dir flt env st f lastPos Hsize Hpos Hin)
    as (n & Hout & _ & Hcur).
  split; [|done]. exists n. subst p. rewrite Hout.
  unfold LogSource.extractAllMessages, LogSource.stream_lines. simpl.
  by rewrite Hf.
Qed.




(** C7 (text of a printed message), as amended.  Every message printed by
    either watcher has a text that is not empty and not made of white space.
    The text of a message printed by the log-file watcher is equal to its
    own trimmed form; the key-value watcher tests the trimmed text and
    prints the text as stored.  An item, or a bubble, whose text is empty
    after trimming yields no message. *)
Theorem emitted_text_not_blank :
  (∀ dir flt envs st,
     Forall (λ e, let t := LogSource.text (LogSource.message e) in
                  t ≠ "" ∧ blank t = false ∧ trim t = t)
       (concat (LogSource.passes dir flt envs st).2)) ∧
  (∀ flt dbs st,
     Forall (λ e, let t := KvSource.text e in
                  t ≠ "" ∧ blank t = false ∧ trim t ≠ "")
       (concat (KvSource.passes flt dbs st).2)) ∧
  (∀ mk item rest s,
     get_prop item "type" = Some (VStr "text") →
     get_prop item "text" = Some (VStr s) →
     trim s = "" →
     LogSource.push_items LogSource.keep_user mk (item :: rest)
     = LogSource.push_items LogSource.keep_user mk rest ∧
     LogSource.push_items LogSource.keep_assistant mk (item :: rest)
     = LogSource.push_items LogSource.keep_assistant mk rest) ∧
  (∀ db b v bubble s,
     KvSource.bubbleRow db b = KvSource.Found v →
     JSON_parse v = Some bubble →
     get_prop bubble "text" = Some (VStr s) →
     trim s = "" →
     KvSource.bubble_text db b = None).
Proof.
  split_and!.
  - intros. eapply Forall_impl; [apply watch_trimmed|].
    intros e [Hne Htrim]. simpl. split_and!; [done| |done].
    by apply trimmed_not_blank.
  - intros. eapply Forall_impl; [apply kv_watch_not_blank|].
    intros e Hne. simpl in *. split_and!; [|by apply trim_not_blank|done].
    intros Hempty. by rewrite Hempty in Hne.
  - intros mk item rest s Hty Htext Htrim. simpl.
    unfold LogSource.item_text. rewrite Hty. simpl. rewrite Htext. simpl.
    by rewrite Htrim.
  - intros db b v bubble s Hrow Hparse Htext Htrim.
    unfold KvSource.bubble_text. rewrite Hrow, Hparse. simpl.
    rewrite Htext. simpl. unfold js_or.
    destruct (truthy (VStr s)); simpl; by rewrite ?Htrim.
Qed.


(** C8 (polling cadence), as amended.  Each watcher sleeps for a fixed time
    after every pass: 100 ms for the log-file watcher, 500 ms for the
    key-value watcher, whatever the pass did.  The log-file watcher is the
    one that polls faster. *)
Theorem polling_intervals :
  (∀ dir flt env st,
     LogSource.sleep_ms (LogSource.tick dir flt env st) = 100) ∧
  (∀ flt db st, KvSource.sleep_ms (KvSource.tick flt db st) = 500) ∧
  LogSource.POLL_INTERVAL_MS < KvSource.POLL_INTERVAL_MS.
Proof.
  split_and!.
  - intros. unfold LogSource.tick. by destruct (LogSource.visit_projects _ _ _ _).
  - intros. unfold KvSource.tick. destruct (KvSource.opens db); [|done].
    by destruct (KvSource.visit_conversations _ _ _ _) as [[? ?] ?].
  - unfold LogSource.POLL_INTERVAL_MS, KvSource.POLL_INTERVAL_MS. lia.
Qed.

(** C9 (missing identifiers collapse).  Every message of a record without
    a [uuid] member has the empty string as identifier.  Of the messages
    with that identifier that a fetch returns, the visit of the file prints
    the first when the empty string is not yet marked for the file, and
    none when it is; once the fetch has returned such a message the empty
    string is marked.  So over any number of passes, from any state, at
    most one message with that identifier is printed for a file, and none
    from a state that has it marked, whatever the texts. *)
Theorem missing_uuid_collapses :
  (∀ r members,
     "uuid" ∉ members.*1 →
     Forall (λ m, LogSource.id m = IdStr "")
       (LogSource.record_messages r (VObj members))) ∧
  (∀ env proj path st lastPos,
     LogSource.filePositions st !! path = Some lastPos →
     let fetched :=
       LogSource.extractAllMessages (LogSource.view env path) (Some lastPos)
         (LogSource.parses st) in
     let visit := LogSource.visit_file env proj path st in
     filter (λ m, LogSource.id m = IdStr "") (LogSource.message <$> visit.2)
     = (if decide (IdStr "" ∈ LogSource.seen_of st path) then []
        else take 1 (filter (λ m, LogSource.id m = IdStr "") fetched)) ∧
     (∀ m, m ∈ fetched → LogSource.id m = IdStr "" →
           IdStr "" ∈ LogSource.seen_of visit.1 path)) ∧
  (∀ dir flt envs st f,
     length (filter (λ e, LogSource.key e = (f, IdStr ""))
               (concat (LogSource.passes dir flt envs st).2)) ≤ 1) ∧
  (∀ dir flt envs st f,
     IdStr "" ∈ LogSource.seen_of st f →
     Forall (λ e, LogSource.key e ≠ (f, IdStr ""))
       (concat (LogSource.passes dir flt envs st).2)).
Proof.
  split_and!.
  - intros r members Hni.
    apply (record_messages_ids r (VObj members) VUndefined).
    simpl. by rewrite obj_lookup_missing.
  - intros env proj path st lastPos Hpos fetched visit. subst fetched visit.
    unfold LogSource.visit_file. rewrite Hpos.
    pose proof (display_first (IdStr "")
                  (LogSource.extractAllMessages (LogSource.view env path)
                     (Some lastPos) (LogSource.parses st))
                  (default ∅ (LogSource.seenResponses st !! path))) as Hfirst.
    pose proof (display_marks
                  (LogSource.extractAllMessages (LogSource.view env path)
                     (Some lastPos) (LogSource.parses st))
                  (default ∅ (LogSource.seenResponses st !! path))) as Hmarks.
    destruct (LogSource.display _ _) as [s o]. simpl in *. split.
    + rewrite <- list_fmap_compose.
      assert (∀ l, (LogSource.message ∘
                    (λ m, {| LogSource.project := proj;
                             LogSource.filePath := path;
                             LogSource.message := m |})) <$> l = l) as ->;
        [|exact Hfirst].
      intros l. induction l as [|m l IH]; [done|]. rewrite fmap_cons. by f_equal.
    + intros m Hm Hid. unfold LogSource.seen_of. simpl.
      rewrite lookup_insert_eq. simpl. rewrite <- Hid. by apply Hmarks.
  - intros dir flt envs st f.
    destruct (LogSource.passes dir flt envs st) as [st' outs] eqn:E.
    apply watch_advances in E as [_ Hnd _ _]. simpl.
    by apply at_most_one_with_key.
  - intros dir flt envs st f Hseen.
    destruct (LogSource.passes dir flt envs st) as [st' outs] eqn:E.
    apply watch_advances in E as [_ _ Hfresh _]. simpl.
    apply Forall_forall. intros e He Hk. apply (Hfresh e He).
    unfold LogSource.seen. by rewrite Hk.
Qed.


(** C10 (one set of seen bubbles for all conversations), as amended.  The
    one set tells two bubble identifiers apart as a [Set] does; the
    following is for an identifier [v] that is a string, a number, a
    boolean, [null] or missing.  Over any number of passes, from any state,
    at most one message is printed for the bubble [v], whatever
    conversations list it.  Within a pass, when the loop goes through the
    headers of a conversation [c] that lists [v], the bubble is never
    printed under a conversation that comes after [c].  And when the loop
    over the conversations reaches a header of [c] that holds [v], with [v]
    not yet in the set and a bubble that has a text, the message of that
    bubble is printed under [c]. *)
Theorem global_dedup_scope :
  (∀ flt dbs st v,
     is_primitive v = true →
     length (filter (λ e, KvSource.bubbleId e = ident_of 0 v)
               (concat (KvSource.passes flt dbs st).2)) ≤ 1) ∧
  (∀ flt db st cs1 c cs2 hs h v,
     KvSource.loadConversations db = cs1 ++ c :: cs2 →
     KvSource.filtered_out flt c = Some false →
     iterate (KvSource.headers c) = Some hs →
     h ∈ hs →
     get_prop h "bubbleId" = Some v →
     is_primitive v = true →
     Forall (λ e, KvSource.bubbleId e = ident_of 0 v →
                  KvSource.conversation e ∈ cs1 ++ [c])
       (KvSource.emitted (KvSource.tick flt db st))) ∧
  (∀ flt db cs1 c cs2 hs1 h hs2 st st1 out1 st2 out2 v ty text,
     KvSource.visit_conversations flt db cs1 st = (st1, out1, true) →
     KvSource.filtered_out flt c = Some false →
     iterate (KvSource.headers c) = Some (hs1 ++ h :: hs2) →
     KvSource.visit_headers db c hs1 st1 = (st2, out2, true) →
     get_prop h "bubbleId" = Some v →
     get_prop h "type" = Some ty →
     is_primitive v = true →
     (ident_of 0 v ∉ KvSource.seenBubbles st2) →
     KvSource.bubble_text db v = Some text →
     {| KvSource.conversation := c; KvSource.isUser := KvSource.is_one ty;
        KvSource.text := text; KvSource.bubbleId := ident_of 0 v |}
     ∈ (KvSource.visit_conversations flt db (cs1 ++ c :: cs2) st).1.2).
Proof.
  split_and!.
  - intros flt dbs st v _.
    destruct (KvSource.passes flt dbs st) as [st' outs] eqn:E.
    apply kv_watch_advances in E as [_ Hnd _ _]. simpl.
    by apply at_most_one_with_key.
  - intros flt db st cs1 c cs2 hs h v Hload Hflt Hit Hin Hb Hp.
    apply Forall_forall. intros e He Hid. unfold KvSource.tick in He.
    destruct (KvSource.opens db); [|by apply elem_of_nil in He].
    rewrite Hload in He.
    match type of He with
    | context [KvSource.visit_conversations flt db ?cs ?s] =>
        pose proof (first_owner flt db cs1 c cs2 s hs h v e Hflt Hit Hin Hb Hp) as Ho;
        destruct (KvSource.visit_conversations flt db cs s) as [[st1 out] ok]
    end.
    by apply Ho.
  - intros. by eapply first_lister_prints.
Qed.

End Claims.

(** ** The claims on concrete runs *)

Section Runs.
Import Json Scenario.

(** C1 fails for an identifier that is an array.  The transcript, found
    empty, gains a line whose [uuid] is an array; [statSync] throws at the
    next two passes, so the cursor stays and both passes fetch the line: it
    is printed by both, since each parse makes a new array.  In the
    key-value source a bubble whose [bubbleId] is an array is printed at
    every pass. *)
Lemma composite_identifier_printed_again :
  (LogSource.passes projectsDir None
     [holding ""; unstatted (line_array +:+ newline);
      unstatted (line_array +:+ newline)] LogSource.initial).2
  = [ []; [printed (array_message 0)]; [printed (array_message 1)] ] ∧
  (λ e, (KvSource.text e, KvSource.bubbleId e)) <$>
    concat (KvSource.passes None
              [array_store [first_row]; array_store [first_row];
               array_store [first_row]] KvSource.initial).2
  = [("shared", IdRef 0); ("shared", IdRef 1); ("shared", IdRef 2)].
Proof. split; vm_compute; reflexivity. Qed.

(** C2, an instance: the transcript is found holding 27 bytes. *)
Lemma first_sight_suppression_witness :
  LogSource.from_file transcript
    (LogSource.emitted
       (LogSource.tick projectsDir None (holding "an earlier line, then more.")
          LogSource.initial)) = [] ∧
  LogSource.filePositions
    (LogSource.state
       (LogSource.tick projectsDir None (holding "an earlier line, then more.")
          LogSource.initial)) !! transcript = Some 27.
Proof.
  apply (first_sight_suppression (H := Json.runtime)).
  - reflexivity.
  - vm_compute. apply list_elem_of_here.
  - reflexivity.
  - reflexivity.
Defined.

(** C2 fails for the key-value source: a conversation found for the first
    time with one header has that header's bubble printed on that very
    pass. *)
Lemma kv_first_sight_prints :
  KvSource.loadConversations (store [chat_row] [("b1", json "{'text':'hi'}")])
  = [chat] ∧
  KvSource.emitted
    (KvSource.tick None (store [chat_row] [("b1", json "{'text':'hi'}")])
       KvSource.initial)
  = [ {| KvSource.conversation := chat; KvSource.isUser := true;
         KvSource.text := "hi"; KvSource.bubbleId := IdStr "b1" |} ].
Proof. split; vm_compute; reflexivity. Qed.

(** C3, an instance: the transcript, empty when it was found, now holds the
    start of a line. *)
Lemma partial_line_skipped_witness :
  let st := LogSource.state
              (LogSource.tick projectsDir None (holding "") LogSource.initial) in
  let p := LogSource.tick projectsDir None (holding hello_start) st in
  (∃ n, LogSource.from_file transcript (LogSource.emitted p)
        = (LogSource.display (LogSource.seen_of st transcript)
             (LogSource.lines_messages n [])).2) ∧
  (∃ start cursor,
     drop_chars start hello_start = hello_start ∧
     LogSource.filePositions (LogSource.state p) !! transcript = Some cursor ∧
     start < cursor ∧ cursor = String.length hello_start) ∧
  ∀ sz fl more,
    LogSource.stream_lines
      {| LogSource.size := sz; LogSource.bytes := hello_start +:+ more;
         LogSource.fault := fl |} (String.length hello_start)
    = LogSource.stream_lines
        {| LogSource.size := sz; LogSource.bytes := more;
           LogSource.fault := fl |} 0.
Proof.
  apply (partial_line_skipped (H := Json.runtime) projectsDir None
           (holding hello_start) _ transcript 0 [] hello_start).
  - reflexivity.
  - vm_compute. apply list_elem_of_here.
  - reflexivity.
  - reflexivity.
  - reflexivity.
  - discriminate.
  - reflexivity.
Defined.

(** C3 fails.  The transcript is found empty; then it holds the start of a
    line, on which [JSON.parse] throws; then the whole line and its line
    end.  The second pass prints nothing and moves the cursor from 0 to 77,
    past the partial line; the third pass reads the rest of the line alone
    and prints nothing either, although the line, read from its start, is a
    message. *)
Lemma partial_line_lost :
  let envs := [holding ""; holding hello_start;
               holding (hello_start +:+ hello_end +:+ newline)] in
  JSON_parse hello_start = None ∧
  (LogSource.passes projectsDir None envs LogSource.initial).2
  = [[]; []; []] ∧
  LogSource.cursors projectsDir None transcript envs LogSource.initial
  = [Some 0; Some 77; Some 85] ∧
  LogSource.extractAllMessages
    (whole (hello_start +:+ hello_end +:+ newline)) (Some 0) 0 = [hello].
Proof. split_and!; vm_compute; reflexivity. Qed.

(** C4, an instance: the transcript grows from 3 to 8 bytes and stays
    there. *)
Lemma cursor_monotone_witness :
  StronglySorted LogSource.cursor_le
    (LogSource.filePositions LogSource.initial !! transcript ::
     LogSource.cursors projectsDir None transcript
       [holding "123"; holding "12345678"; holding "12345678"]
       LogSource.initial).
Proof.
  apply (proj2 (cursor_monotone_when_file_grows (H := Json.runtime)
                  projectsDir None transcript)).
  vm_compute. repeat constructor.
Defined.

(** C4 fails when a file shrinks: the transcript is found with 8 bytes and
    is then cut to 3; its cursor goes from 8 down to 3. *)
Lemma cursor_follows_truncation :
  LogSource.cursors projectsDir None transcript
    [holding "12345678"; holding "123"] LogSource.initial
  = [Some 8; Some 3] ∧
  ¬ LogSource.cursor_le (Some 8) (Some 3).
Proof. split; [vm_compute; reflexivity | simpl; lia]. Qed.

(** C5, an instance: the stream of the transcript fails after its first
    line. *)
Lemma failed_fetch_keeps_lines_witness :
  let st := LogSource.state
              (LogSource.tick projectsDir None (holding "") LogSource.initial) in
  let p := LogSource.tick projectsDir None (showing (failing two_lines 100)) st in
  (∃ n, LogSource.from_file transcript (LogSource.emitted p)
        = (LogSource.display (LogSource.seen_of st transcript)
             (LogSource.lines_messages n
                (LogSource.read_lines "" (take_chars 100 (drop_chars 0 two_lines))).1)).2) ∧
  LogSource.filePositions (LogSource.state p) !! transcript
  = Some (String.length two_lines).
Proof.
  apply (proj1 (failed_fetch_keeps_lines (H := Json.runtime) projectsDir None
                  (showing (failing two_lines 100)) _ transcript) 0 100).
  - reflexivity.
  - vm_compute. apply list_elem_of_here.
  - reflexivity.
  - reflexivity.
Defined.

(** C5 fails.  The transcript is found empty; then it holds two lines and
    its stream fails after the first one.  That pass prints the first
    message and moves the cursor to the end of the file; the next pass,
    which reads the file without error, prints nothing: the second message
    is never printed. *)
Lemma failed_fetch_is_not_retried :
  let envs := [holding ""; showing (failing two_lines 100); holding two_lines] in
  (LogSource.passes projectsDir None envs LogSource.initial).2
  = [[]; [printed message_one]; []] ∧
  LogSource.cursors projectsDir None transcript envs LogSource.initial
  = [Some 0; Some 169; Some 169] ∧
  LogSource.extractAllMessages (whole two_lines) (Some 0) 0
  = [message_one; message_two].
Proof. split_and!; vm_compute; reflexivity. Qed.


(** The order is that of the code units: U+1F600, whose first code unit is
    D83D, comes before U+FF5E, although its bytes come after. *)
Lemma sort_by_code_units :
  LogSource.sort_strings [label_tilde; label_face] = [label_face; label_tilde] ∧
  code_units label_face = [55357; 56832]%N ∧
  code_units label_tilde = [65374]%N.
Proof. split_and!; vm_compute; reflexivity. Qed.

(** The pass of that instance: [alpha] comes first, although the directory
    lists [beta] first. *)
Lemma interleaving_two_projects :
  let st := LogSource.state
              (LogSource.tick projectsDir None (two_projects "" "")
                 LogSource.initial) in
  LogSource.emitted
    (LogSource.tick projectsDir None
       (two_projects (line_one +:+ newline) (line_two +:+ newline)) st)
  = [ {| LogSource.project := "alpha"; LogSource.filePath := transcript_a;
         LogSource.message := message_one |};
      {| LogSource.project := "beta"; LogSource.filePath := transcript_b;
         LogSource.message := message_two |} ].
Proof. vm_compute. reflexivity. Qed.


(** C7 fails for the key-value source: the text of a bubble is printed as
    it is stored, with the white space around it. *)
Lemma kv_text_is_not_trimmed :
  KvSource.text <$>
    KvSource.emitted
      (KvSource.tick None (store [chat_row] [("b1", json "{'text':'  hi  '}")])
         KvSource.initial)
  = ["  hi  "] ∧
  trim "  hi  " = "hi".
Proof. split; vm_compute; reflexivity. Qed.

(** C7, an instance: an item whose text is made of white space outside
    ASCII yields no message. *)
Lemma emitted_text_not_blank_witness :
  LogSource.push_items LogSource.keep_user
    (λ t, {| LogSource.type := LogSource.User; LogSource.text := t;
             LogSource.timestamp := VStr ""; LogSource.id := IdStr "" |})
    [VObj [("type", VStr "text"); ("text", VStr wide_blank)]]
  = [].
Proof.
  refine (proj1 (proj1 (proj2 (proj2 (emitted_text_not_blank (H := Json.runtime))))
                   _ (VObj [("type", VStr "text"); ("text", VStr wide_blank)]) []
                   wide_blank _ _ _)); reflexivity.
Defined.

(** [trim] removes the white space outside ASCII too. *)
Lemma trim_wide_blank :
  trim (wide_blank +:+ "text" +:+ wide_blank) = "text" ∧
  blank wide_blank = true.
Proof. split; vm_compute; reflexivity. Qed.

(** C8 fails as stated: the key-value watcher's interval is not the shorter
    one. *)
Lemma kv_polls_slower :
  ¬ (KvSource.POLL_INTERVAL_MS < LogSource.POLL_INTERVAL_MS).
Proof. unfold KvSource.POLL_INTERVAL_MS, LogSource.POLL_INTERVAL_MS. lia. Qed.

(** C9, an instance: the transcript, found empty, holds two lines without
    [uuid]; of their messages the visit prints the first. *)
Lemma missing_uuid_collapses_witness :
  let st := LogSource.state
              (LogSource.tick projectsDir None (holding "") LogSource.initial) in
  let env := holding (anonymous_one +:+ newline +:+ anonymous_two +:+ newline) in
  filter (λ m, LogSource.id m = IdStr "")
    (LogSource.message <$> (LogSource.visit_file env "demo" transcript st).2)
  = [ {| LogSource.type := LogSource.User; LogSource.text := "first";
         LogSource.timestamp := VStr ""; LogSource.id := IdStr "" |} ].
Proof.
  intros st env.
  etransitivity.
  - apply (proj1 (proj1 (proj2 (missing_uuid_collapses (H := Json.runtime)))
                    env "demo" transcript st 0 eq_refl)).
  - vm_compute. reflexivity.
Defined.

(** Two lines without [uuid], written one after the other: the first is
    printed, the second, with another text, is not. *)
Lemma second_anonymous_message_suppressed :
  LogSource.extractAllMessages
    (whole (anonymous_one +:+ newline +:+ anonymous_two +:+ newline)) (Some 0) 0
  = [ {| LogSource.type := LogSource.User; LogSource.text := "first";
         LogSource.timestamp := VStr ""; LogSource.id := IdStr "" |};
      {| LogSource.type := LogSource.User; LogSource.text := "second";
         LogSource.timestamp := VStr ""; LogSource.id := IdStr "" |} ] ∧
  LogSource.text ∘ LogSource.message <$>
    concat (LogSource.passes projectsDir None
              [holding "";
               holding (anonymous_one +:+ newline);
               holding (anonymous_one +:+ newline +:+ anonymous_two +:+ newline)]
              LogSource.initial).2
  = ["first"].
Proof. split; vm_compute; reflexivity. Qed.

(** C10, an instance: [Beta] and [Gamma] both list the bubble [b1], and
    [Beta] is scanned first: the bubble is printed under [Beta]. *)
Lemma global_dedup_scope_witness :
  let db := store [beta_row; gamma_row]
              [("b1", json "{'text':'shared'}"); ("g1", json "{'text':'own'}")] in
  {| KvSource.conversation := beta; KvSource.isUser := true;
     KvSource.text := "shared"; KvSource.bubbleId := IdStr "b1" |}
  ∈ (KvSource.visit_conversations None db
       ([] ++ beta :: tail (KvSource.loadConversations db))
       KvSource.initial).1.2.
Proof.
  intros db.
  apply (proj2 (proj2 (global_dedup_scope (H := Json.runtime))) None db [] beta
           (tail (KvSource.loadConversations db)) [] beta_header []
           KvSource.initial KvSource.initial [] KvSource.initial []
           (VStr "b1") (VNum parsed_one) "shared").
  - reflexivity.
  - reflexivity.
  - reflexivity.
  - reflexivity.
  - reflexivity.
  - reflexivity.
  - reflexivity.
  - vm_compute. set_solver.
  - vm_compute. reflexivity.
Defined.

(** C10 fails for an identifier that is an array: two conversations list
    the bubble [['x']], and one pass prints it under both. *)
Lemma shared_composite_bubble_printed_twice :
  KvSource.name <$> KvSource.loadConversations (array_store [first_row; second_row])
  = [VStr "First"; VStr "Second"] ∧
  (λ e, (KvSource.name (KvSource.conversation e), KvSource.text e,
         KvSource.bubbleId e)) <$>
    KvSource.emitted
      (KvSource.tick None (array_store [first_row; second_row]) KvSource.initial)
  = [(VStr "First", "shared", IdRef 0); (VStr "Second", "shared", IdRef 1)].
Proof. split; vm_compute; reflexivity. Qed.

(** The scenarios of the specification.  A transcript, found empty, gains
    the line of a user message: the next pass prints that message.  A
    conversation gains a header whose bubble has an empty text: the pass
    prints nothing for it and marks it. *)
Lemma scenario_one_line :
  let line := json "{'type':'user','message':{'content':[{'type':'text','text':'hello'}]}}" in
  LogSource.message <$>
    concat (LogSource.passes projectsDir None
              [holding ""; holding (line +:+ newline)] LogSource.initial).2
  = [ {| LogSource.type := LogSource.User; LogSource.text := "hello";
         LogSource.timestamp := VStr ""; LogSource.id := IdStr "" |} ].
Proof. vm_compute. reflexivity. Qed.

Lemma scenario_empty_bubble :
  let run := KvSource.passes None
               [store [chat_row] [("b1", json "{'text':''}")]]
               KvSource.initial in
  run.2 = [[]] ∧ IdStr "b1" ∈ KvSource.seenBubbles run.1.
Proof. split; [vm_compute; reflexivity|]. vm_compute. set_solver. Qed.

(** The pass of that instance prints [b1] once, under [Beta], and under
    [Gamma] only the bubble that [Gamma] does not share. *)
Lemma shared_bubble_printed_once :
  (λ e, (KvSource.name (KvSource.conversation e), KvSource.bubbleId e)) <$>
    KvSource.emitted
      (KvSource.tick None
         (store [beta_row; gamma_row]
            [("b1", json "{'text':'shared'}"); ("g1", json "{'text':'own'}")])
         KvSource.initial)
  = [(VStr "Beta", IdStr "b1"); (VStr "Gamma", IdStr "g1")].
Proof. vm_compute. reflexivity. Qed.

End Runs.

(** * Further properties of the two programs *)

(** ** The log-file source *)

Section FurtherLog.
Import LogSource.
Context `{Runtime}.

(** *** [formatResponse] *)

(** The pieces that [split] cuts a text into at a separator. *)
Lemma split_units_spec sep text :
  split_units sep text ≠ [] ∧
  concat (split_units sep text) = filter (λ u, u ≠ sep) text ∧
  Forall (λ l, length l ≤ length text ∧ Forall (λ u, u ≠ sep) l)
    (split_units sep text).
Proof.
  induction text as [|u rest (Hne & Hcat & Hall)]; simpl.
  - split_and!; [done..|]. repeat constructor.
  - rewrite filter_cons. destruct (N.eqb_spec u sep) as [->|Hu].
    + rewrite decide_False by (by intros ?). split_and!; [done|done|].
      constructor; [split; [simpl; lia|constructor]|].
      eapply Forall_impl; [exact Hall|]. simpl. intros l [? ?]. split; [lia|done].
    + rewrite decide_True by done.
      destruct (split_units sep rest) as [|line lines]; [done|].
      apply Forall_cons in Hall as [[Hlen Hline] Hall]. split_and!; [done| |].
      * simpl in *. by rewrite Hcat.
      * constructor; [split; [simpl; lia|by constructor]|].
        eapply Forall_impl; [exact Hall|]. simpl. intros l [? ?]. split; [lia|done].
Qed.

(** One line, wrapped at a width of at least one code unit. *)
Lemma wrap_spec w fuel : ∀ line,
  (1 ≤ w)%Z →
  length line ≤ fuel →
  ∃ out,
    wrap fuel w line = Some out ∧ out ≠ [] ∧
    Forall (λ l, (Z.of_nat (length l) ≤ w)%Z) out ∧
    concat out = line.
Proof.
  intros line Hw. revert line.
  induction fuel as [|fuel IH]; intros line Hlen; simpl.
  - destruct line; simpl in *; [|lia].
    rewrite (proj2 (Z.ltb_ge _ _)) by lia.
    exists [[]]. split_and!; [done..| |done].
    constructor; [simpl; lia|constructor].
  - destruct (Z.ltb_spec w (Z.of_nat (length line))) as [Hlong|Hshort].
    + destruct (IH (drop (Z.to_nat w) line)) as (rest & -> & _ & Hall & Hj).
      { rewrite length_drop. lia. }
      simpl. eexists. split_and!; [done..| |].
      * constructor; [|done]. rewrite length_take. lia.
      * simpl. by rewrite Hj, take_drop.
    + exists [line]. split_and!; [done..| |].
      * constructor; [done|constructor].
      * simpl. apply app_nil_r.
Qed.

Lemma wrap_all_spec w fuel lines :
  (1 ≤ w)%Z →
  Forall (λ l, length l ≤ fuel) lines →
  ∃ out,
    wrap_all fuel w lines = Some out ∧
    (lines ≠ [] → out ≠ []) ∧
    Forall (λ l, (Z.of_nat (length l) ≤ w)%Z) out ∧
    concat out = concat lines.
Proof.
  intros Hw. induction 1 as [|line rest Hlen Hrest IH]; simpl.
  - exists []. by split_and!.
  - destruct (wrap_spec w fuel line Hw Hlen) as (o1 & -> & Hne & Ha1 & Hj1).
    destruct IH as (o2 & -> & _ & Ha2 & Hj2). simpl.
    exists (o1 ++ o2). split_and!; [done| | |].
    + intros _. by destruct o1.
    + by apply Forall_app.
    + by rewrite concat_app, Hj1, Hj2.
Qed.

(** What [wrap] returns, put end to end, is the line. *)
Lemma wrap_keeps w fuel : ∀ line out,
  wrap fuel w line = Some out → concat out = line.
Proof.
  induction fuel as [|fuel IH]; simpl; intros line out.
  - destruct (_ <? _)%Z; [done|]. intros [= <-]. simpl. apply app_nil_r.
  - destruct (_ <? _)%Z.
    + destruct (wrap fuel _ _) as [r|] eqn:E; [|done]. simpl. intros [= <-].
      simpl. by rewrite (IH _ _ E), take_drop.
    + intros [= <-]. simpl. apply app_nil_r.
Qed.

(** A line that fits is left as it is, whatever the fuel. *)
Lemma wrap_short fuel w line :
  (Z.of_nat (length line) ≤ w)%Z → wrap fuel w line = Some [line].
Proof.
  intros Hfit. destruct fuel; simpl; by rewrite (proj2 (Z.ltb_ge _ _)).
Qed.

(** With a width of zero or less, the loop never ends on a line that is
    longer than the width. *)
Lemma wrap_stuck fuel w line :
  (w ≤ 0)%Z → (w < Z.of_nat (length line))%Z →
  wrap fuel w line = None.
Proof.
  intros Hw Hlong. induction fuel as [|fuel IH]; simpl;
    rewrite (proj2 (Z.ltb_lt _ _) Hlong); [done|].
  replace (Z.to_nat w) with 0 by lia. rewrite drop_0. by rewrite IH.
Qed.

Lemma formatResponse_returns text maxWidth columns fuel :
  (1 ≤ effective_width maxWidth columns)%Z →
  length text ≤ fuel →
  ∃ out,
    formatResponse fuel text maxWidth columns = Some out ∧
    out ≠ [] ∧
    Forall (λ l, (Z.of_nat (length l) ≤ effective_width maxWidth columns)%Z) out.
Proof.
  intros Hw Hfuel. unfold formatResponse.
  destruct (split_units_spec LF_unit text) as (Hsome & _ & Hlines).
  destruct (wrap_all_spec (effective_width maxWidth columns) fuel
              (split_units LF_unit text) Hw)
    as (out & Hout & Hne & Hall & _).
  { eapply Forall_impl; [exact Hlines|]. simpl. intros l [? _]. lia. }
  exists out. split_and!; [done| |done]. by apply Hne.
Qed.

(** X1.  On a width of at least one code unit, [formatResponse] returns
    once the fuel covers the length of the text, which [length] counts in
    code units.  What it returns is not empty, so that the [lines[0]] of its
    callers is a string, and no line of it has more code units than the
    width. *)
Theorem formatResponse_fits text maxWidth columns fuel :
  (1 ≤ effective_width maxWidth columns)%Z →
  length text ≤ fuel →
  ∃ out,
    formatResponse fuel text maxWidth columns = Some out ∧
    out ≠ [] ∧
    Forall (λ l, (Z.of_nat (length l) ≤ effective_width maxWidth columns)%Z) out.
Proof. apply formatResponse_returns. Qed.

(** X2.  [formatResponse] keeps the code units of the text and their
    order: whenever it returns, the lines it returns, put one after the
    other, are the text without its line feeds. *)
Theorem formatResponse_keeps_text text maxWidth columns fuel out :
  formatResponse fuel text maxWidth columns = Some out →
  joined out = without_LF text.
Proof.
  unfold formatResponse, joined, without_LF.
  destruct (split_units_spec LF_unit text) as (_ & <- & _).
  generalize (split_units LF_unit text). intros lines. revert out.
  induction lines as [|line rest IH]; simpl; intros out Hout; [by simplify_eq|].
  destruct (wrap fuel _ line) as [o1|] eqn:E1; [|done]. simpl in Hout.
  destruct (wrap_all fuel _ rest) as [o2|] eqn:E2; [|done]. simplify_eq/=.
  by rewrite concat_app, (IH o2 eq_refl), (wrap_keeps _ _ _ _ E1).
Qed.

(** X3.  A text whose lines all fit the width comes back as its lines,
    unchanged, for any fuel. *)
Theorem formatResponse_short_lines text maxWidth columns fuel :
  Forall (λ l, (Z.of_nat (length l) ≤ effective_width maxWidth columns)%Z)
    (split_units LF_unit text) →
  formatResponse fuel text maxWidth columns = Some (split_units LF_unit text).
Proof.
  unfold formatResponse. generalize (split_units LF_unit text).
  induction 1 as [|line rest Hfit _ IH]; simpl; [done|].
  by rewrite (wrap_short _ _ _ Hfit), IH.
Qed.

(** X4.  When the width is zero or less, which is the case on a terminal
    of one to four columns, [formatResponse] does not return for a text
    that has a line longer than the width: with a width of zero, any line
    that is not empty. *)
Theorem formatResponse_narrow_terminal text maxWidth columns line :
  (effective_width maxWidth columns ≤ 0)%Z →
  line ∈ split_units LF_unit text →
  (effective_width maxWidth columns < Z.of_nat (length line))%Z →
  ∀ fuel, formatResponse fuel text maxWidth columns = None.
Proof.
  intros Hw Hin Hlong fuel. unfold formatResponse.
  induction (split_units LF_unit text) as [|l rest IH];
    [by apply elem_of_nil in Hin|].
  simpl. apply elem_of_cons in Hin as [<-|Hin].
  - by rewrite wrap_stuck.
  - rewrite (IH Hin). by destruct (wrap fuel _ l).
Qed.

(** *** Paths *)

Lemma prefix_empty s : String.prefix "" s = true.
Proof. by destruct s. Qed.

Lemma prefix_append p : ∀ s t,
  String.prefix p s = true → String.prefix p (s +:+ t) = true.
Proof.
  induction p as [|c p IH]; intros s t; [intros _; apply prefix_empty|].
  destruct s as [|d s]; [done|]. rewrite append_cons. simpl.
  destruct (ascii_dec c d); [apply IH|done].
Qed.


Lemma endsWith_append a b p : endsWith b p = true → endsWith (a +:+ b) p = true.
Proof. unfold endsWith. rewrite rev_append. apply prefix_append. Qed.

Local Abbreviation slash := ("/"%char).



(** [split] and [join_segments] *)





(** Plain names *)






Lemma join_segments_head seg segs :
  join_segments (seg :: segs)
  = seg +:+ match segs with [] => "" | _ => "/" +:+ join_segments segs end.
Proof. destruct segs; simpl; [by rewrite append_empty_r|done]. Qed.









(** *** [findConversationFiles] *)

Lemma entry_forall_ind (P : entry → Prop) :
  (∀ n, P (EFile n)) →
  (∀ n, P (EBroken n)) →
  (∀ n, P (EDir n None)) →
  (∀ n files, Forall P files → P (EDir n (Some files))) →
  ∀ e, P e.
Proof.
  intros Hfile Hbroken Hnone Hdir. fix IH 1.
  intros [n|n [files|]|n]; [apply Hfile| |apply Hnone|apply Hbroken].
  apply Hdir. revert files. fix IHfiles 1. intros [|e files]; constructor.
  - apply IH.
  - apply IHfiles.
Qed.

Lemma conv_push_keys k p m :
  (conv_push k p m).*1 = m.*1 ++ (if decide (k ∈ m.*1) then [] else [k]).
Proof.
  induction m as [|[k' fs] m IH].
  - destruct (decide (k ∈ ([] : ConvFiles).*1)) as [Hin|_]; [|done].
    by apply elem_of_nil in Hin.
  - cbn [conv_push]. destruct (decide (k' = k)) as [->|Hne].
    + destruct (decide (k ∈ ((k, fs) :: m).*1)) as [_|Hni].
      * by rewrite app_nil_r.
      * destruct Hni. by left.
    + rewrite !fmap_cons, IH. cbn [fst]. rewrite <- app_comm_cons. f_equal. f_equal.
      destruct (decide (k ∈ m.*1)) as [Hin|Hni];
        destruct (decide (k ∈ k' :: m.*1)) as [Hin'|Hni']; try done.
      * destruct Hni'. by right.
      * apply elem_of_cons in Hin' as [->|?]; done.
Qed.

(** What [conv_push] keeps true of the paths under each key. *)
Lemma conv_push_forall (P : string → string → Prop) k p m :
  Forall (λ kv, kv.2 ≠ [] ∧ Forall (P kv.1) kv.2) m →
  P k p →
  Forall (λ kv, kv.2 ≠ [] ∧ Forall (P kv.1) kv.2) (conv_push k p m).
Proof.
  intros Hall Hp. induction Hall as [|[k' fs] m [Hne Hfs] Hall IH]; simpl.
  - constructor; [|constructor]. simpl. split; [done|].
    constructor; [done|constructor].
  - case_decide as Hk; simplify_eq/=.
    + constructor; [|done]. simpl. split; [by destruct fs|].
      apply Forall_app. split; [done|]. constructor; [done|constructor].
    + constructor; [done|]. apply IH.
Qed.

Lemma conv_push_nodup k p m :
  NoDup (conv_keys m) → NoDup (conv_keys (conv_push k p m)).
Proof.
  intros Hnd. unfold conv_keys in *. rewrite conv_push_keys. case_decide.
  - by rewrite app_nil_r.
  - apply NoDup_app. split_and!; [done| |apply NoDup_singleton].
    intros x Hx ->%list_elem_of_singleton. done.
Qed.

(** The walk keeps an invariant [I] of the map, when pushing a transcript
    found in a directory that satisfies [D] keeps it, [D] goes from a
    directory to those it holds, and [E] from an entry to those it holds. *)
Section WalkInvariant.
Variables (flt : option string) (D : string → Prop) (E : entry → Prop)
  (I : ConvFiles → Prop).
Hypothesis E_inside : ∀ n files, E (EDir n (Some files)) → Forall E files.
Hypothesis D_inside : ∀ dir n listing, D dir → E (EDir n listing) → D (path_join dir n).
Hypothesis I_push : ∀ dir n acc,
  D dir → E (EFile n) → endsWith n ".jsonl" = true →
  filtered_out flt (path_basename dir) = false →
  I acc → I (conv_push (path_basename dir) (path_join dir n) acc).

Lemma walk_files_invariant step files :
  Forall (λ e, ∀ acc acc', I acc → step e acc = Some acc' → I acc') files →
  ∀ acc, I acc → I (walk_files step files acc).
Proof.
  induction 1 as [|e files He _ IH]; intros acc Hacc; simpl; [done|].
  destruct (step e acc) as [acc'|] eqn:Es; [|done]. eauto.
Qed.

Lemma walkEntry_invariant e : ∀ dir acc acc',
  E e → D dir → I acc → walkEntry flt dir e acc = Some acc' → I acc'.
Proof.
  induction e as [n|n|n|n files IH] using entry_forall_ind;
    intros dir acc acc' He Hd Hacc; simpl; intros Hw; simplify_eq; try done.
  - destruct (endsWith n ".jsonl") eqn:Hn; [|done].
    destruct (filtered_out flt (path_basename dir)) eqn:Hf; [done|].
    by apply I_push.
  - apply walk_files_invariant; [|done].
    pose proof (E_inside _ _ He) as Hfiles.
    apply Forall_forall. intros e Hin a a' Ha Hs.
    rewrite Forall_forall in IH. rewrite Forall_forall in Hfiles.
    eapply (IH e Hin); [by apply Hfiles| |exact Ha|exact Hs].
    by eapply D_inside.
Qed.

Lemma findConversationFiles_invariant dir root :
  Forall E (default [] root) → D dir → I [] →
  I (findConversationFiles dir flt root).
Proof.
  intros He Hd Hnil. unfold findConversationFiles, walkDir.
  destruct root as [files|]; [|done]. simpl in He.
  apply walk_files_invariant; [|done].
  eapply Forall_impl; [exact He|]. simpl. intros e Hee acc acc' Ha Hs.
  by eapply walkEntry_invariant.
Qed.

End WalkInvariant.

(** Whatever the tree: the keys are distinct and pass the filter, and no
    key has an empty list. *)
Lemma findConversationFiles_keys dir flt root :
  let convFiles := findConversationFiles dir flt root in
  NoDup (conv_keys convFiles) ∧
  Forall (λ kv, kv.2 ≠ [] ∧ Forall (λ _, filtered_out flt kv.1 = false) kv.2)
    convFiles.
Proof.
  apply (findConversationFiles_invariant flt (λ _, True) (λ _, True)
    (λ m, NoDup (conv_keys m) ∧
          Forall (λ kv, kv.2 ≠ [] ∧
                        Forall (λ _, filtered_out flt kv.1 = false) kv.2) m)).
  - intros. by apply Forall_true.
  - done.
  - intros dir0 n acc _ _ _ Hf [Hnd Hall]. split.
    + by apply conv_push_nodup.
    + by apply (conv_push_forall (λ k _, filtered_out flt k = false)).
  - by apply Forall_true.
  - done.
  - split; constructor.
Qed.



(** [statSync] throwing on an entry leaves the loop over the entries of its
    directory. *)
Lemma walk_files_broken step pre n post :
  step (EBroken n) = (λ _, None) →
  ∀ acc, walk_files step (pre ++ EBroken n :: post) acc = walk_files step pre acc.
Proof.
  intros Hb. induction pre as [|e pre IH]; intros acc; simpl.
  - by rewrite Hb.
  - destruct (step e acc); [apply IH|done].
Qed.

(** X8.  What [findConversationFiles] returns lists every project once,
    with at least one transcript; the sorted list of projects that the
    loop goes through has no project twice. *)
Theorem findConversationFiles_projects dir flt root :
  let convFiles := findConversationFiles dir flt root in
  NoDup (conv_keys convFiles) ∧
  Forall (λ kv, kv.2 ≠ []) convFiles ∧
  NoDup (sort_strings (conv_keys convFiles)).
Proof.
  destruct (findConversationFiles_keys dir flt root) as [Hnd Hall].
  split_and!; [done| |].
  - eapply Forall_impl; [exact Hall|]. by intros kv [? _].
  - unfold sort_strings. by rewrite merge_sort_Permutation.
Qed.


(** X10.  An entry on which [statSync] throws hides the entries that follow
    it in its directory, and only those: the walk of the directory gives
    what it gives for the entries before the broken one. *)
Theorem walkDir_broken_entry flt dir pre n post acc :
  walkDir flt dir (Some (pre ++ EBroken n :: post)) acc
  = walkDir flt dir (Some pre) acc.
Proof. simpl. by apply walk_files_broken. Qed.

(** *** What the watcher prints, and under which project *)





(** *** The text of a user message *)

Lemma push_items_kept keep mk content :
  Forall (λ m, ∃ t, m = mk t ∧ keep t = true) (push_items keep mk content).
Proof.
  induction content as [|item rest IH]; simpl; [constructor|].
  destruct (item_text item) as [[t|]|]; [|done|constructor].
  destruct (keep t) eqn:K; [|done]. constructor; eauto.
Qed.

Lemma content_messages_kept keep mk message ms :
  content_messages keep mk message = Some ms →
  Forall (λ m, ∃ t, m = mk t ∧ keep t = true) ms.
Proof.
  unfold content_messages.
  destruct (get_prop message "content") as [c|]; [|done]. simpl.
  intros [= <-]. destruct (iterate _); [|constructor].
  apply push_items_kept.
Qed.

Lemma record_messages_user r data :
  Forall (λ m, type m = User → keep_user (text m) = true)
    (record_messages r data).
Proof.
  unfold record_messages.
  destruct (get_prop data "agentId") as [a|]; [|constructor]. simpl.
  destruct (truthy a); [constructor|].
  destruct (get_prop data "type") as [ty|]; [|constructor]. simpl.
  destruct (get_prop data "message") as [msg|]; [|constructor]. simpl.
  destruct (get_prop data "timestamp") as [ts|]; [|constructor]. simpl.
  destruct (get_prop data "uuid") as [u|]; [|constructor]. simpl.
  destruct (_ && _).
  - destruct (content_messages _ _ _) as [ms|] eqn:E; [|constructor]. simpl.
    apply content_messages_kept in E.
    eapply Forall_impl; [exact E|]. by intros m (t & -> & Hk) _.
  - destruct (_ && _); [|constructor].
    destruct (content_messages _ _ _) as [ms|] eqn:E; [|constructor]. simpl.
    apply content_messages_kept in E.
    eapply Forall_impl; [exact E|]. by intros m (t & -> & Hk).
Qed.

Lemma lines_messages_user lines : ∀ r,
  Forall (λ m, type m = User → keep_user (text m) = true)
    (lines_messages r lines).
Proof.
  induction lines as [|line rest IH]; simpl; intros r; [constructor|].
  apply Forall_app. split; [|done].
  unfold line_messages. destruct (JSON_parse line); [|constructor].
  apply record_messages_user.
Qed.

(** X12.  A user message that is printed has a text that is not empty and
    starts neither with [<] nor with [This may or may not]. *)
Theorem printed_user_text dir flt envs st :
  Forall (λ e,
    type (message e) = User →
    text (message e) ≠ "" ∧
    startsWith (text (message e)) "<" = false ∧
    startsWith (text (message e)) "This may or may not" = false)
    (concat (passes dir flt envs st).2).
Proof.
  apply (watch_all (λ m, type m = User →
    text m ≠ "" ∧ startsWith (text m) "<" = false ∧
    startsWith (text m) "This may or may not" = false)).
  intros v lastPos n. unfold extractAllMessages.
  eapply Forall_impl; [apply lines_messages_user|].
  intros m Hm Hu. specialize (Hm Hu). split; [by apply keep_user_nonempty|].
  unfold keep_user in Hm.
  apply andb_prop in Hm as [[_ H1]%andb_prop H2].
  by apply negb_true_iff in H1, H2.
Qed.

(** *** Messages and lines *)

Lemma display_app l1 : ∀ l2 s,
  display s (l1 ++ l2)
  = ((display (display s l1).1 l2).1, (display s l1).2 ++ (display (display s l1).1 l2).2).
Proof.
  induction l1 as [|m rest IH]; intros l2 s; simpl.
  - by destruct (display s l2).
  - case_decide; [apply IH|].
    rewrite IH. destruct (display ({[_]} ∪ s) rest) as [s1 o1]. simpl.
    by destruct (display s1 l2).
Qed.

Lemma display_all_seen ms : ∀ s,
  Forall (λ m, LogSource.id m ∈ s) ms → display s ms = (s, []).
Proof.
  induction ms as [|m rest IH]; intros s Hall; simpl; [done|].
  apply Forall_cons in Hall as [Hm Hrest]. rewrite decide_True by done. auto.
Qed.

Lemma display_same_id i ms : ∀ s,
  Forall (λ m, LogSource.id m = i) ms → length (display s ms).2 ≤ 1.
Proof.
  induction ms as [|m rest IH]; intros s Hall; simpl; [lia|].
  apply Forall_cons in Hall as [Hm Hrest]. case_decide; [auto|].
  rewrite display_all_seen; [simpl; lia|].
  eapply Forall_impl; [exact Hrest|]. intros m' ->. set_solver.
Qed.

Lemma record_messages_one_id r data :
  ∃ i, Forall (λ m, LogSource.id m = i) (record_messages r data).
Proof.
  destruct (get_prop data "uuid") as [u|] eqn:Hu.
  - eexists. by apply record_messages_ids.
  - exists (IdRef 0). unfold record_messages. rewrite Hu.
    destruct (get_prop data "agentId") as [a|]; [|constructor]. simpl.
    destruct (truthy a); [constructor|].
    destruct (get_prop data "type") as [ty|]; [|constructor]. simpl.
    destruct (get_prop data "message") as [msg|]; [|constructor]. simpl.
    destruct (get_prop data "timestamp") as [ts|]; constructor.
Qed.

Lemma display_lines lines : ∀ r s,
  length (display s (lines_messages r lines)).2 ≤ length lines.
Proof.
  induction lines as [|line rest IH]; intros r s; simpl; [lia|].
  rewrite display_app. simpl. rewrite length_app.
  specialize (IH (S r) (display s (line_messages r line)).1).
  assert (length (display s (line_messages r line)).2 ≤ 1); [|lia].
  unfold line_messages. destruct (JSON_parse line) as [data|]; [|simpl; lia].
  destruct (record_messages_one_id r data) as [i Hi].
  by eapply display_same_id.
Qed.

(** X13.  A visit of a file prints at most one message for each line it
    reads: the messages of one line share the identifier of the line, so
    only the first of them is printed. *)
Theorem one_message_per_line env proj path st :
  length (visit_file env proj path st).2
  ≤ length (stream_lines (view env path) (default 0 (filePositions st !! path))).
Proof.
  unfold visit_file. destruct (filePositions st !! path) as [lastPos|]; simpl;
    [|lia].
  pose proof (display_lines (stream_lines (view env path) lastPos) (parses st)
                (default ∅ (seenResponses st !! path))) as Hle.
  unfold extractAllMessages. simpl.
  destruct (display _ _) as [s o]. simpl in *. by rewrite length_fmap.
Qed.


(** *** Passes over files that do not change *)

Lemma settled_tick dir flt env st f :
  size (view env f) = Some (String.length (bytes (view env f))) →
  filePositions st !! f = None ∨
  filePositions st !! f = Some (String.length (bytes (view env f))) →
  from_file f (emitted (tick dir flt env st)) = [] ∧
  (filePositions (state (tick dir flt env st)) !! f = None ∨
   filePositions (state (tick dir flt env st)) !! f
   = Some (String.length (bytes (view env f)))).
Proof.
  intros Hsize Hst. unfold tick.
  destruct (visit_projects _ _ _ _) as [st1 out] eqn:E. simpl.
  eapply (first_sight_projects env f Hsize) in E as (Hq & Ho & _); [done|].
  by destruct (_ && _).
Qed.

Lemma no_file_no_output (fs : list string) (out : list Emitted) :
  (∀ f, f ∈ fs → from_file f out = []) →
  Forall (λ e, filePath e ∈ fs) out →
  out = [].
Proof.
  intros Hnone Hall. destruct out as [|e out]; [done|].
  apply Forall_cons in Hall as [He _]. specialize (Hnone _ He).
  unfold from_file in Hnone. rewrite filter_cons in Hnone.
  by rewrite decide_True in Hnone.
Qed.

(** X14.  While the files that the passes visit do not change, and each of
    them reports its size, nothing is printed: neither by the first pass
    of the program, which finds no cursor, nor by a pass that finds every
    cursor at the end of its file. *)
Theorem unchanged_files_print_nothing dir flt env n st :
  (∀ f, f ∈ visited dir flt env →
        size (view env f) = Some (String.length (bytes (view env f)))) →
  (∀ f, f ∈ visited dir flt env →
        filePositions st !! f = None ∨
        filePositions st !! f = Some (String.length (bytes (view env f)))) →
  Forall (λ out, out = []) (passes dir flt (replicate n env) st).2.
Proof.
  intros Hsize. revert st. induction n as [|n IH]; simpl; intros st Hst;
    [constructor|].
  specialize (IH (state (tick dir flt env st))).
  destruct (passes dir flt (replicate n env) _) as [st' outs]. simpl in *.
  constructor.
  - apply (no_file_no_output (visited dir flt env)); [|apply tick_visited].
    intros f Hf. by apply settled_tick; auto.
  - apply IH. intros f Hf. by apply settled_tick; auto.
Qed.

(** *** What a pass prints of what it fetches *)

Lemma display_complete ms : ∀ s m,
  m ∈ ms →
  LogSource.id m ∈ (display s ms).1 ∧
  (LogSource.id m ∈ s ∨
   ∃ m', m' ∈ (display s ms).2 ∧ LogSource.id m' = LogSource.id m).
Proof.
  induction ms as [|m0 rest IH]; intros s m Hin; [by apply elem_of_nil in Hin|].
  simpl. case_decide as Hseen.
  - apply elem_of_cons in Hin as [->|Hin]; [|auto].
    split; [|by left].
    destruct (display s rest) as [s' o] eqn:E.
    apply display_spec in E as (Hsub & _). simpl. set_solver.
  - destruct (display ({[LogSource.id m0]} ∪ s) rest) as [s' o] eqn:E. simpl.
    apply elem_of_cons in Hin as [->|Hin].
    + split.
      * apply display_spec in E as (Hsub & _). set_solver.
      * right. exists m0. split; [by left|done].
    + destruct (IH ({[LogSource.id m0]} ∪ s) m Hin) as [H1 H2].
      rewrite E in H1, H2. simpl in *. split; [done|].
      destruct H2 as [[Heq%elem_of_singleton|Hs]%elem_of_union|(m' & Hm' & Hid)].
      * right. exists m0. split; [by left|done].
      * by left.
      * right. exists m'. split; [by right|done].
Qed.

(** The first visit that a pass pays to a file. *)
Section FirstVisit.
Variables (env : Env) (f : string) (lastPos : nat) (s0 : gset ident).

Local Abbreviation fetched n :=
  (display s0 (extractAllMessages (view env f) (Some lastPos) n)).

Local Abbreviation unvisited st :=
  (filePositions st !! f = Some lastPos ∧ seen_of st f = s0).

(** The fetch numbered [n] has been through the loop: what it marked is
    marked, and what it printed is among the messages of [out]. *)
Local Abbreviation visited_at n st out :=
  ((fetched n).1 ⊆ seen_of st f ∧
   ∀ m, m ∈ (fetched n).2 → m ∈ from_file f out).

Lemma seen_of_grows proj path st :
  seen_of st f ⊆ seen_of (visit_file env proj path st).1 f.
Proof.
  destruct (visit_file env proj path st) as [st' out] eqn:E.
  apply visit_file_advances in E as [Hm _ _ _]. simpl.
  intros i Hi. apply (Hm (f, i)). exact Hi.
Qed.

Lemma first_visit_file proj path st :
  unvisited st →
  (path ≠ f ∧ unvisited (visit_file env proj path st).1 ∧
   from_file f (visit_file env proj path st).2 = []) ∨
  (path = f ∧
   visited_at (parses st) (visit_file env proj path st).1
     (visit_file env proj path st).2).
Proof.
  intros [Hpos Hseen]. destruct (decide (path = f)) as [->|Hne].
  - right. split; [done|]. unfold visit_file.
    unfold seen_of in Hseen. rewrite Hpos, Hseen.
    destruct (fetched (parses st)) as [s1 o]. simpl. split.
    + unfold seen_of. simpl. by rewrite lookup_insert_eq.
    + intros m Hm. by rewrite from_file_same.
  - left. split; [done|]. split_and!.
    + by rewrite visit_file_positions, record_size_other.
    + by rewrite visit_file_seen_other.
    + by apply visit_file_out_other.
Qed.

Lemma visited_at_file n proj path st out0 :
  visited_at n st out0 →
  visited_at n (visit_file env proj path st).1
    (out0 ++ (visit_file env proj path st).2).
Proof.
  intros [Hs Ho]. split.
  - etransitivity; [exact Hs|apply seen_of_grows].
  - intros m Hm. rewrite from_file_app. apply elem_of_app. left. by apply Ho.
Qed.

Lemma visited_at_files n proj files : ∀ st out0,
  visited_at n st out0 →
  visited_at n (visit_files env proj files st).1
    (out0 ++ (visit_files env proj files st).2).
Proof.
  induction files as [|path rest IH]; simpl; intros st out0 Hv.
  - by rewrite app_nil_r.
  - pose proof (visited_at_file n proj path st out0 Hv) as H1.
    destruct (visit_file env proj path st) as [st1 out1].
    specialize (IH st1 (out0 ++ out1) H1).
    destruct (visit_files env proj rest st1) as [st2 out2]. simpl in *.
    by rewrite app_assoc.
Qed.

Lemma visited_at_projects n convFiles projects : ∀ st out0,
  visited_at n st out0 →
  visited_at n (visit_projects env convFiles projects st).1
    (out0 ++ (visit_projects env convFiles projects st).2).
Proof.
  induction projects as [|proj rest IH]; simpl; intros st out0 Hv.
  - by rewrite app_nil_r.
  - pose proof (visited_at_files n proj (default [] (conv_get convFiles proj))
                  st out0 Hv) as H1.
    destruct (visit_files env proj _ st) as [st1 out1].
    specialize (IH st1 (out0 ++ out1) H1).
    destruct (visit_projects env convFiles rest st1) as [st2 out2]. simpl in *.
    by rewrite app_assoc.
Qed.

Lemma first_visit_files proj files : ∀ st,
  unvisited st →
  ((f ∉ files) ∧ unvisited (visit_files env proj files st).1 ∧
   from_file f (visit_files env proj files st).2 = []) ∨
  (f ∈ files ∧ ∃ n,
     visited_at n (visit_files env proj files st).1
       (visit_files env proj files st).2).
Proof.
  induction files as [|path rest IH]; simpl; intros st Hu.
  - left. split; [apply not_elem_of_nil|done].
  - pose proof (first_visit_file proj path st Hu) as H1.
    pose proof (visited_at_files (parses st) proj rest
                  (visit_file env proj path st).1 (visit_file env proj path st).2) as H2.
    destruct (visit_file env proj path st) as [st1 out1]. simpl in *.
    specialize (IH st1).
    destruct (visit_files env proj rest st1) as [st2 out2]. simpl in *.
    destruct H1 as [(Hne & Hu1 & Ho1)|(-> & Hv1)].
    + destruct (IH Hu1) as [(Hni & Hu2 & Ho2)|(Hin & n & Hv2)].
      * left. rewrite from_file_app, Ho1, Ho2. split; [|done].
        rewrite not_elem_of_cons. auto.
      * right. split; [by right|]. exists n. destruct Hv2 as [Hs Ho].
        split; [done|]. intros m Hm. rewrite from_file_app, Ho1. by apply Ho.
    + right. split; [by left|]. exists (parses st). by apply H2.
Qed.

Lemma first_visit_projects convFiles projects : ∀ st,
  unvisited st →
  let files := projects ≫= (λ proj, default [] (conv_get convFiles proj)) in
  f ∈ files →
  ∃ n, visited_at n (visit_projects env convFiles projects st).1
         (visit_projects env convFiles projects st).2.
Proof.
  induction projects as [|proj rest IH]; simpl; intros st Hu Hin;
    [by apply elem_of_nil in Hin|].
  pose proof (first_visit_files proj (default [] (conv_get convFiles proj)) st Hu) as H1.
  destruct (visit_files env proj _ st) as [st1 out1]. simpl in *.
  destruct H1 as [(Hni & Hu1 & Ho1)|(_ & n & Hv1)].
  - apply elem_of_app in Hin as [Hin|Hin]; [done|].
    destruct (IH st1 Hu1 Hin) as (n & Hs & Ho).
    destruct (visit_projects env convFiles rest st1) as [st2 out2]. simpl in *.
    exists n. split; [done|]. intros m Hm. rewrite from_file_app, Ho1. by apply Ho.
  - pose proof (visited_at_projects n convFiles rest st1 out1 Hv1) as H2.
    destruct (visit_projects env convFiles rest st1) as [st2 out2]. simpl in *.
    by exists n.
Qed.

End FirstVisit.

(** X15.  On a terminal that leaves a width of at least one code unit, a
    pass that visits a file with a cursor loses none of the messages that
    its first fetch from the file returns: the identifier of every such
    message is marked for the file after the pass, and either it was marked
    before the pass, or the pass prints a message with that identifier, for
    whose text [formatResponse] returns lines. *)
Theorem fetched_message_printed_or_known dir flt env st f lastPos columns :
  (1 ≤ effective_width None columns)%Z →
  filePositions st !! f = Some lastPos →
  f ∈ visited dir flt env →
  ∃ n, ∀ m,
    m ∈ extractAllMessages (view env f) (Some lastPos) n →
    LogSource.id m ∈ seen_of (state (tick dir flt env st)) f ∧
    (LogSource.id m ∈ seen_of st f ∨
     ∃ m' lines,
       m' ∈ from_file f (emitted (tick dir flt env st)) ∧
       LogSource.id m' = LogSource.id m ∧
       formatResponse (length (code_units (text m'))) (code_units (text m'))
         None columns = Some lines ∧
       lines ≠ []).
Proof.
  intros Hw Hpos Hin. unfold tick, visited in *.
  match goal with
  | |- context [visit_projects env ?c ?ps ?s] =>
      destruct (first_visit_projects env f lastPos (seen_of st f) c ps s)
        as (n & Hs & Ho); [by destruct (_ && _)|exact Hin|];
      destruct (visit_projects env c ps s) as [st1 out]
  end.
  simpl in *. exists n. intros m Hm.
  destruct (display_complete _ (seen_of st f) m Hm) as [Hmark Hprint].
  split; [by apply Hs|].
  destruct Hprint as [?|(m' & Hm' & Hid)]; [by left|]. right.
  destruct (formatResponse_returns (code_units (text m')) None columns
              (length (code_units (text m'))) Hw) as (lines & Hl & Hne & _);
    [done|].
  exists m', lines. split_and!; [by apply Ho|done..].
Qed.

(** *** Lines appended to a transcript *)

Lemma read_lines_line line : ∀ cur rest,
  unbroken line = true →
  read_lines cur (line +:+ String LF rest)
  = ((String.rev cur +:+ line) :: (read_lines "" rest).1, (read_lines "" rest).2).
Proof.
  induction line as [|c line IH]; intros cur rest Hu.
  - change ("" +:+ String LF rest) with (String LF rest). cbn [read_lines].
    rewrite decide_True by done. rewrite append_empty_r.
    by destruct (read_lines "" rest).
  - rewrite append_cons. cbn [read_lines]. simpl in Hu.
    apply andb_prop in Hu as [[H1 H2]%andb_prop Hu].
    apply negb_true_iff, bool_decide_eq_false in H1, H2.
    rewrite !decide_False by done. rewrite (IH _ _ Hu).
    by rewrite rev_cons_append.
Qed.

Lemma read_lines_written lines :
  Forall (λ line, unbroken line = true) lines →
  read_lines "" (written lines) = (lines, "").
Proof.
  induction 1 as [|line rest Hl _ IH]; [done|].
  simpl. rewrite (read_lines_line _ _ _ Hl), IH. done.
Qed.

(** X19.  When lines that hold no line end have been appended to a file,
    each followed by a line feed, a fetch from the old end of the file
    reads these lines, all of them and nothing else, and gives the
    messages of these lines. *)
Theorem appended_lines_are_read sz old lines n :
  Forall (λ line, unbroken line = true) lines →
  let v := {| size := sz; bytes := old +:+ written lines; fault := None |} in
  stream_lines v (String.length old) = lines ∧
  extractAllMessages v (Some (String.length old)) n = lines_messages n lines.
Proof.
  intros Hl v.
  assert (stream_lines v (String.length old) = lines) as Hs.
  { unfold stream_lines, v. simpl. rewrite drop_chars_app.
    by rewrite (read_lines_written _ Hl). }
  split; [done|]. unfold extractAllMessages. simpl. by rewrite Hs.
Qed.


(** *** The notice of an empty projects directory *)

Lemma visit_file_loaded env proj path st :
  initialLoad st = false ∨ (visit_file env proj path st).2 ≠ [] →
  initialLoad (visit_file env proj path st).1 = false.
Proof.
  unfold visit_file. destruct (filePositions st !! path); simpl.
  - destruct (display _ _) as [s o]. simpl. intros [->|Ho]; [done|].
    rewrite bool_decide_eq_false_2; [apply andb_false_r|].
    intros ->. by apply Ho.
  - by intros [?|?].
Qed.

Lemma visit_files_loaded env proj files : ∀ st,
  initialLoad st = false ∨ (visit_files env proj files st).2 ≠ [] →
  initialLoad (visit_files env proj files st).1 = false.
Proof.
  induction files as [|path rest IH]; simpl; intros st Hst.
  - by destruct Hst.
  - pose proof (visit_file_loaded env proj path st) as H1.
    destruct (visit_file env proj path st) as [st1 out1].
    specialize (IH st1).
    destruct (visit_files env proj rest st1) as [st2 out2]. simpl in *.
    destruct Hst as [Hst|Hout]; [auto|].
    destruct out1 as [|e out1]; [|apply IH; left; apply H1; by right].
    apply IH. by right.
Qed.

Lemma visit_projects_loaded env convFiles projects : ∀ st,
  initialLoad st = false ∨ (visit_projects env convFiles projects st).2 ≠ [] →
  initialLoad (visit_projects env convFiles projects st).1 = false.
Proof.
  induction projects as [|proj rest IH]; simpl; intros st Hst.
  - by destruct Hst.
  - pose proof (visit_files_loaded env proj (default [] (conv_get convFiles proj)) st) as H1.
    destruct (visit_files env proj _ st) as [st1 out1].
    specialize (IH st1).
    destruct (visit_projects env convFiles rest st1) as [st2 out2]. simpl in *.
    destruct Hst as [Hst|Hout]; [auto|].
    destruct out1 as [|e out1]; [|apply IH; left; apply H1; by right].
    apply IH. by right.
Qed.

Lemma tick_loaded dir flt env st :
  initialLoad st = false ∨ notice dir flt env st = true ∨
  emitted (tick dir flt env st) ≠ [] →
  initialLoad (state (tick dir flt env st)) = false.
Proof.
  unfold tick, notice.
  match goal with
  | |- context [visit_projects env ?c ?ps ?s] =>
      pose proof (visit_projects_loaded env c ps s) as Hl;
      destruct (visit_projects env c ps s) as [st1 out]
  end.
  simpl in *. intros [Hst|[Hn|Hout]]; apply Hl.
  - left. rewrite Hst. done.
  - left. by rewrite Hn.
  - by right.
Qed.

Lemma notices_loaded dir flt envs : ∀ st,
  initialLoad st = false → Forall (λ b, b = false) (notices dir flt envs st).
Proof.
  induction envs as [|env rest IH]; simpl; intros st Hst; constructor.
  - unfold notice. by rewrite Hst.
  - apply IH, tick_loaded. by left.
Qed.

(** X20.  However many passes the watcher makes and whatever they show,
    [No conversations found. Waiting...] is printed at most once. *)
Theorem notice_at_most_once dir flt envs st :
  length (filter (λ b, b = true) (notices dir flt envs st)) ≤ 1.
Proof.
  revert st. induction envs as [|env rest IH]; simpl; intros st; [lia|].
  rewrite filter_cons. destruct (notice dir flt env st) eqn:Hn.
  - rewrite decide_True by done. simpl.
    assert (filter (λ b, b = true)
              (notices dir flt rest (state (tick dir flt env st))) = []) as ->;
      [|simpl; lia].
    assert (initialLoad (state (tick dir flt env st)) = false) as Hl
      by (apply tick_loaded; auto).
    pose proof (notices_loaded dir flt rest _ Hl) as Hall.
    induction Hall as [|b bs -> _ IHb]; [done|].
    rewrite filter_cons. by rewrite decide_False.
  - rewrite decide_False by done. apply IH.
Qed.

(** X21.  After a pass that prints a message, no pass prints the notice. *)
Theorem no_notice_after_message dir flt env envs st :
  emitted (tick dir flt env st) ≠ [] →
  Forall (λ b, b = false) (notices dir flt envs (state (tick dir flt env st))).
Proof.
  intros Hout. apply notices_loaded, tick_loaded. auto.
Qed.


(** *** [getProjectsDir] *)


End FurtherLog.

(** ** The key-value source *)

Section FurtherKv.
Import KvSource.
Context `{Runtime}.

(** *** The command line *)

(** The arguments that do not start with a dash. *)
Local Abbreviation positional args :=
  (filter (λ arg : string, startsWith arg "-" = false) args).

Local Abbreviation asks_help args :=
  ("-h" ∈ (args : list string) ∨ "--help" ∈ (args : list string)).

Local Abbreviation asks_compact args :=
  ("-c" ∈ (args : list string) ∨ "--compact" ∈ (args : list string)).

Lemma parse_args_from args : ∀ flt compact,
  parse_args args flt compact
  = if bool_decide (asks_help args) then Help
    else Watch (from_option Some flt (last (positional args)))
               (compact || bool_decide (asks_compact args)).
Proof.
  induction args as [|arg rest IH]; intros flt compact.
  - simpl. by rewrite orb_false_r.
  - cbn [parse_args]. rewrite filter_cons.
    destruct (decide (arg = "-c" ∨ arg = "--compact")) as [Hc|Hc].
    + rewrite (bool_decide_eq_true_2 _ Hc), IH.
      assert (startsWith arg "-" = true) as Hdash by (by destruct Hc as [->| ->]).
      rewrite decide_False by congruence.
      assert (asks_help (arg :: rest) ↔ asks_help rest) as Hh.
      { rewrite !elem_of_cons. destruct Hc as [->| ->]; naive_solver. }
      rewrite (bool_decide_ext _ _ Hh).
      case_bool_decide; [done|]. simpl.
      rewrite (bool_decide_eq_true_2 (asks_compact (arg :: rest))).
      * by rewrite orb_true_r.
      * rewrite !elem_of_cons. destruct Hc as [->| ->]; auto.
    + rewrite (bool_decide_eq_false_2 _ Hc).
      destruct (decide (arg = "-h" ∨ arg = "--help")) as [Hh|Hh].
      * rewrite (bool_decide_eq_true_2 _ Hh).
        rewrite bool_decide_eq_true_2; [done|].
        rewrite !elem_of_cons. destruct Hh as [->| ->]; auto.
      * rewrite (bool_decide_eq_false_2 _ Hh).
        assert (asks_help (arg :: rest) ↔ asks_help rest) as Hh'.
        { rewrite !elem_of_cons. naive_solver. }
        assert (asks_compact (arg :: rest) ↔ asks_compact rest) as Hc'.
        { rewrite !elem_of_cons. naive_solver. }
        rewrite (bool_decide_ext _ _ Hh'), (bool_decide_ext _ _ Hc').
        destruct (startsWith arg "-") eqn:Hdash; simpl; rewrite IH.
        -- done.
        -- case_bool_decide; [done|].
           f_equal. rewrite last_cons. by destruct (last (positional rest)).
Qed.

(** X5.  The command line of the key-value watcher: [-h] or [--help]
    anywhere ends the program with the usage; otherwise the filter is the
    last argument that does not start with a dash, if there is one, the
    compact layout is on when [-c] or [--compact] occurs, and every other
    argument that starts with a dash is ignored. *)
Theorem parse_args_spec args :
  parse_args args None false
  = if bool_decide ("-h" ∈ args ∨ "--help" ∈ args) then Help
    else Watch (last (filter (λ arg, startsWith arg "-" = false) args))
               (bool_decide ("-c" ∈ args ∨ "--compact" ∈ args)).
Proof.
  rewrite parse_args_from. case_bool_decide; [done|].
  f_equal. by destruct (last _).
Qed.

(** *** [extractBubbles] *)



(** *** [loadConversations] *)

Lemma load_row_spec row c :
  load_row row = Some (Some c) →
  truthy (name c) = true ∧
  ∃ len, get_prop (headers c) "length" = Some len ∧
         greater_than_zero len = true.
Proof.
  unfold load_row.
  destruct (JSON_parse (value row)) as [data|]; [|done]. simpl.
  destruct (get_prop data "fullConversationHeadersOnly") as [hs|]; [|done]. simpl.
  destruct (get_prop (js_or hs (VArr [])) "length") as [len|] eqn:Hlen; [|done].
  simpl. destruct (greater_than_zero len) eqn:Hpos; [|done].
  destruct (get_prop data "name") as [nm|]; [|done]. simpl.
  destruct (conversation_name nm _) as [name|] eqn:Hname; [|done]. simpl.
  destruct (get_prop data "lastUpdatedAt") as [u|]; [|done]. simpl.
  destruct (get_prop data "createdAt") as [cr|]; [|done]. simpl.
  intros [= <-]. simpl. split; [|eauto].
  unfold conversation_name in Hname. destruct (truthy nm) eqn:Hnm; [by simplify_eq|].
  destruct (composer_id (key row)); by simplify_eq.
Qed.

(** X7.  Every conversation that [loadConversations] returns has a name
    that is not empty and a [headers] value whose [length] is above zero: a
    conversation whose header list is an empty array is never returned. *)
Theorem loadConversations_spec db :
  Forall (λ c, truthy (name c) = true ∧
               headers c ≠ VArr [] ∧
               ∃ len, get_prop (headers c) "length" = Some len ∧
                      greater_than_zero len = true)
    (loadConversations db).
Proof.
  unfold loadConversations. destruct (composerRows db) as [rows|]; [|constructor].
  induction rows as [|row rest IH]; simpl; [constructor|].
  destruct (load_row row) as [[c|]|] eqn:E; simpl; [|done..].
  constructor; [|done].
  apply load_row_spec in E as (Hname & len & Hlen & Hpos).
  split_and!; [done| |eauto].
  intros Heq. rewrite Heq in Hlen. simpl in Hlen. by simplify_eq.
Qed.


(** *** The filter *)

Lemma visit_conversation_filter flt db c st :
  Forall (λ e, filtered_out flt (conversation e) = Some false)
    (visit_conversation flt db c st).1.2.
Proof.
  pose proof (visit_conversation_conversation flt db c st) as Hc.
  unfold visit_conversation in *.
  destruct (filtered_out flt c) as [[|]|] eqn:Hf; [constructor| |constructor].
  eapply Forall_impl; [exact Hc|]. by intros e ->.
Qed.

Lemma visit_conversations_filter flt db cs : ∀ st,
  Forall (λ e, filtered_out flt (conversation e) = Some false)
    (visit_conversations flt db cs st).1.2.
Proof.
  induction cs as [|c rest IH]; simpl; intros st; [constructor|].
  pose proof (visit_conversation_filter flt db c st) as H1.
  destruct (visit_conversation flt db c st) as [[st1 out1] [|]]; [|done].
  specialize (IH st1).
  destruct (visit_conversations flt db rest st1) as [[st2 out2] ok].
  simpl in *. by apply Forall_app.
Qed.

Lemma kv_tick_filter flt db st :
  Forall (λ e, filtered_out flt (conversation e) = Some false)
    (emitted (tick flt db st)).
Proof.
  unfold tick. destruct (opens db); [|constructor].
  match goal with
  | |- context [visit_conversations flt db ?cs ?s] =>
      pose proof (visit_conversations_filter flt db cs s) as Hl;
      destruct (visit_conversations flt db cs s) as [[st1 out] ok]
  end.
  done.
Qed.

(** X16.  With a filter that is not empty, every message that the
    key-value watcher prints is printed under a conversation whose name is
    a string that contains the filter, letter case apart. *)
Theorem kv_printed_matches_filter f dbs st :
  f ≠ "" →
  Forall (λ e, ∃ s, name (conversation e) = VStr s ∧
                    includes (toLowerCase s) (toLowerCase f) = true)
    (concat (passes (Some f) dbs st).2).
Proof.
  intros Hf. revert st. induction dbs as [|db rest IH]; simpl; intros st;
    [constructor|].
  specialize (IH (state (tick (Some f) db st))).
  destruct (passes (Some f) rest _) as [st' outs]. simpl in *.
  apply Forall_app. split; [|done].
  eapply Forall_impl; [apply kv_tick_filter|]. intros e. simpl.
  rewrite bool_decide_eq_false_2 by done.
  destruct (name (conversation e)) as [| | | |s| |]; try done.
  intros [= Hs]. exists s. split; [done|]. by apply negb_false_iff in Hs.
Qed.

(** *** A bubble is looked up once *)

(** X17.  Once the loop has visited a header whose [bubbleId] is a string,
    a number, a boolean, [null] or missing, the bubble of that identifier is
    not printed again, by any pass from any state that still holds what the
    visit marked; this is so too when the visit printed nothing because the
    bubble could not be fetched. *)
Theorem visited_bubble_not_printed_again flt db c h st v ty st' dbs :
  get_prop h "bubbleId" = Some v →
  get_prop h "type" = Some ty →
  is_primitive v = true →
  seenBubbles (visit_header db c h st).1.1 ⊆ seenBubbles st' →
  Forall (λ e, bubbleId e ≠ ident_of 0 v)
    (concat (passes flt dbs st').2).
Proof.
  intros Hb Hty Hp Hsub.
  assert (ident_of 0 v ∈ seenBubbles st') as Hin.
  { apply Hsub. destruct (visit_header db c h st) as [[st1 out] ok] eqn:E.
    assert (ok = true) as ->.
    { unfold visit_header in E. rewrite Hb, Hty in E.
      by case_decide; simplify_eq. }
    simpl. rewrite <- (ident_of_primitive (visits st) v Hp).
    by eapply visit_header_marks. }
  destruct (passes flt dbs st') as [st2 outs] eqn:E.
  apply kv_watch_advances in E as [_ _ Hfresh _]. simpl.
  apply Forall_forall. intros e He Heq. apply (Hfresh e He).
  unfold seen. by rewrite Heq.
Qed.

(** *** Passes over a store that does not change *)

Section Idle.
Variables (flt : option string) (db : Database).

Local Abbreviation primitive_ids hs :=
  (Forall (λ h, ∀ v, get_prop h "bubbleId" = Some v → is_primitive v = true) hs).

Lemma visit_header_again c h st st1 out ok st2 :
  visit_header db c h st = (st1, out, ok) →
  (∀ v, get_prop h "bubbleId" = Some v → is_primitive v = true) →
  seenBubbles st1 ⊆ seenBubbles st2 →
  ∃ st3, visit_header db c h st2 = (st3, [], ok) ∧
         seenBubbles st3 = seenBubbles st2.
Proof.
  intros Hv Hp Hsub. unfold visit_header in *.
  destruct (get_prop h "bubbleId") as [v|]; [|simplify_eq; eauto].
  destruct (get_prop h "type") as [ty|]; [|simplify_eq; eauto].
  specialize (Hp v eq_refl).
  rewrite (ident_of_primitive (visits st2) v Hp).
  rewrite (ident_of_primitive (visits st) v Hp) in Hv.
  assert (ident_of 0 v ∈ seenBubbles st2) as Hin.
  { apply Hsub. case_decide; simplify_eq/=; set_solver. }
  rewrite decide_True by done.
  assert (ok = true) as -> by (by case_decide; simplify_eq).
  eauto.
Qed.

Lemma visit_headers_again c hs : ∀ st st1 out ok st2,
  visit_headers db c hs st = (st1, out, ok) →
  primitive_ids hs →
  seenBubbles st1 ⊆ seenBubbles st2 →
  ∃ st3, visit_headers db c hs st2 = (st3, [], ok) ∧
         seenBubbles st3 = seenBubbles st2.
Proof.
  induction hs as [|h rest IH]; simpl; intros st st1 out ok st2 Hv Hp Hsub.
  - simplify_eq. eauto.
  - apply Forall_cons in Hp as [Hh Hrest].
    destruct (visit_header db c h st) as [[sta outa] oka] eqn:E1.
    assert (seenBubbles sta ⊆ seenBubbles st1) as Ha.
    { destruct oka; [|by simplify_eq].
      destruct (visit_headers db c rest sta) as [[stb outb] okb] eqn:E2.
      simplify_eq. apply visit_headers_advances in E2 as [Hm _ _ _].
      intros b. apply Hm. }
    destruct (visit_header_again _ _ _ _ _ _ st2 E1 Hh) as (st3 & -> & Hs3);
      [set_solver|].
    destruct oka; [|simplify_eq; eauto].
    destruct (visit_headers db c rest sta) as [[stb outb] okb] eqn:E2.
    simplify_eq.
    destruct (IH _ _ _ _ st3 E2 Hrest) as (st4 & -> & Hs4); [by rewrite Hs3|].
    exists st4. split; [done|congruence].
Qed.

Lemma visit_conversation_again c st st1 out ok st2 :
  visit_conversation flt db c st = (st1, out, ok) →
  (∀ hs, iterate (headers c) = Some hs → primitive_ids hs) →
  seenBubbles st1 ⊆ seenBubbles st2 →
  ∃ st3, visit_conversation flt db c st2 = (st3, [], ok) ∧
         seenBubbles st3 = seenBubbles st2.
Proof.
  unfold visit_conversation. intros Hv Hp Hsub.
  destruct (filtered_out flt c) as [[|]|]; [simplify_eq; eauto| |simplify_eq; eauto].
  destruct (iterate (headers c)) as [hs|]; [|simplify_eq; eauto].
  eapply visit_headers_again; eauto.
Qed.

Lemma visit_conversations_again cs : ∀ st st1 out ok st2,
  visit_conversations flt db cs st = (st1, out, ok) →
  Forall (λ c, ∀ hs, iterate (headers c) = Some hs → primitive_ids hs) cs →
  seenBubbles st1 ⊆ seenBubbles st2 →
  ∃ st3, visit_conversations flt db cs st2 = (st3, [], ok) ∧
         seenBubbles st3 = seenBubbles st2.
Proof.
  induction cs as [|c rest IH]; simpl; intros st st1 out ok st2 Hv Hp Hsub.
  - simplify_eq. eauto.
  - apply Forall_cons in Hp as [Hc Hrest].
    destruct (visit_conversation flt db c st) as [[sta outa] oka] eqn:E1.
    assert (seenBubbles sta ⊆ seenBubbles st1) as Ha.
    { destruct oka; [|by simplify_eq].
      destruct (visit_conversations flt db rest sta) as [[stb outb] okb] eqn:E2.
      simplify_eq. apply visit_conversations_advances in E2 as [Hm _ _ _].
      intros b. apply Hm. }
    destruct (visit_conversation_again _ _ _ _ _ st2 E1 Hc) as (st3 & -> & Hs3);
      [set_solver|].
    destruct oka; [|simplify_eq; eauto].
    destruct (visit_conversations flt db rest sta) as [[stb outb] okb] eqn:E2.
    simplify_eq.
    destruct (IH _ _ _ _ st3 E2 Hrest) as (st4 & -> & Hs4); [by rewrite Hs3|].
    exists st4. split; [done|congruence].
Qed.

Lemma tick_again st st2 :
  Forall (λ c, ∀ hs, iterate (headers c) = Some hs → primitive_ids hs)
    (loadConversations db) →
  seenBubbles (state (tick flt db st)) ⊆ seenBubbles st2 →
  emitted (tick flt db st2) = [] ∧
  seenBubbles (state (tick flt db st2)) = seenBubbles st2.
Proof.
  unfold tick. intros Hp Hsub. destruct (opens db); [|done].
  destruct (visit_conversations flt db _ _) as [[st1 out] ok] eqn:E.
  simpl in Hsub.
  eapply visit_conversations_again in E as (st3 & -> & Hs3); [done|done|].
  done.
Qed.

End Idle.

(** X18.  While the store does not change, and the [bubbleId] of every
    header in it is a string, a number, a boolean, [null] or missing, the
    passes that follow a pass over the store print nothing. *)
Theorem unchanged_store_prints_nothing flt db st n :
  Forall (λ c, ∀ hs, iterate (headers c) = Some hs →
    Forall (λ h, ∀ v, get_prop h "bubbleId" = Some v → is_primitive v = true) hs)
    (loadConversations db) →
  Forall (λ out, out = [])
    (passes flt (replicate n db) (state (tick flt db st))).2.
Proof.
  intros Hp.
  assert (∀ st2, seenBubbles (state (tick flt db st)) ⊆ seenBubbles st2 →
            Forall (λ out, out = []) (passes flt (replicate n db) st2).2) as Hgen.
  { induction n as [|n IH]; simpl; intros st2 Hsub; [constructor|].
    destruct (tick_again flt db st st2 Hp Hsub) as [Hout Hseen].
    specialize (IH (state (tick flt db st2))).
    destruct (passes flt (replicate n db) _) as [st' outs]. simpl in *.
    constructor; [done|]. apply IH. by rewrite Hseen. }
  by apply Hgen.
Qed.


(** *** The notice of an empty store *)

(** X22.  While the store opens and holds no conversation, the key-value
    watcher prints [No conversations found. Waiting for Cursor activity...]
    at every pass, not once: [lastCheck] is the number of conversations of
    the pass before, which is zero. *)
Theorem kv_notice_every_pass flt db st n :
  opens db = true →
  loadConversations db = [] →
  lastCheck st = 0 →
  notices flt (replicate n db) st = replicate n true.
Proof.
  intros Ho Hc. revert st. induction n as [|n IH]; simpl; intros st Hl; [done|].
  f_equal.
  - unfold notice. rewrite Ho, Hc, Hl. done.
  - apply IH. unfold tick. rewrite Ho, Hc. done.
Qed.

(** *** The compact layout *)

Lemma split_units_head sep text :
  default [] (head (split_units sep text)) `prefix_of` text ∧
  Forall (λ u, u ≠ sep) (default [] (head (split_units sep text))).
Proof.
  induction text as [|u rest [IHp IHf]]; simpl; [by split|].
  destruct (N.eqb_spec u sep) as [->|Hu]; simpl.
  - split; [apply prefix_nil|constructor].
  - destruct (split_units sep rest) as [|line lines]; simpl in *.
    + split; [by apply prefix_cons, prefix_nil|by repeat constructor].
    + split; [by apply prefix_cons|by constructor].
Qed.

Lemma split_units_one_line sep text :
  Forall (λ u, u ≠ sep) text → split_units sep text = [text].
Proof.
  induction 1 as [|u rest Hu _ IH]; simpl; [done|].
  destruct (N.eqb_spec u sep); [done|]. by rewrite IH.
Qed.

(** X23.  What the compact layout shows of a text is the beginning of the
    text: at most 100 code units of it, with no line feed among them; a
    text of one line of at most 100 code units is shown whole. *)
Theorem compact_line_spec text :
  compact_line text `prefix_of` text ∧
  length (compact_line text) ≤ 100 ∧
  Forall (λ u, u ≠ 10%N) (compact_line text) ∧
  (Forall (λ u, u ≠ 10%N) text → length text ≤ 100 →
   compact_line text = text).
Proof.
  unfold compact_line.
  destruct (split_units_head 10 text) as [Hprefix Hline].
  split_and!.
  - etransitivity; [apply prefix_take|exact Hprefix].
  - rewrite length_take. lia.
  - by apply Forall_take.
  - intros Hone Hlen. rewrite (split_units_one_line _ _ Hone).
    by apply take_ge.
Qed.

(** *** The program *)

(** X24.  The key-value program shows its usage exactly when [-h] or
    [--help] is among its arguments, also when the store is missing; with
    no such argument and no store it ends with an error, and otherwise it
    polls from the initial state with the filter of its arguments. *)
Theorem main_outcome args dbExists dbs :
  main args dbExists dbs
  = if bool_decide ("-h" ∈ args ∨ "--help" ∈ args) then Usage
    else if dbExists then
      let '(final, printed) :=
        passes (last (filter (λ arg, startsWith arg "-" = false) args))
               dbs initial in
      Polled final printed
    else NoStore.
Proof.
  unfold main. rewrite parse_args_from. case_bool_decide; [done|].
  unfold watchCursorConversations. destruct dbExists; [|done].
  by destruct (last _).
Qed.

End FurtherKv.

(** ** Instances *)

Section FurtherRuns.
Import Json Scenario.


(** X1, an instance: a text of eleven characters, two of them outside
    ASCII, wrapped at a width of four. *)
Lemma formatResponse_fits_witness :
  ∃ out,
    LogSource.formatResponse 11 (code_units accented) (Some 4%Z) None = Some out ∧
    out ≠ [] ∧
    Forall (λ l, (Z.of_nat (length l)
                  ≤ LogSource.effective_width (Some 4%Z) None)%Z) out.
Proof.
  apply (formatResponse_fits (code_units accented) (Some 4%Z) None 11).
  - vm_compute. discriminate.
  - vm_compute. lia.
Defined.

(** The lines of that instance: the text is cut after every fourth
    character, not after every fourth byte. *)
Lemma formatResponse_accented :
  LogSource.formatResponse 11 (code_units accented) (Some 4%Z) None
  = Some [code_units accented_1; code_units accented_2; code_units "rld"] ∧
  String.length accented = 13.
Proof. split; vm_compute; reflexivity. Qed.

(** X2, an instance: two lines wrapped at a width of two. *)
Lemma formatResponse_keeps_text_witness :
  LogSource.joined (code_units <$> ["ab"; "cd"; "e"])
  = LogSource.without_LF (code_units ("ab" +:+ newline +:+ "cde")).
Proof.
  apply (formatResponse_keeps_text (code_units ("ab" +:+ newline +:+ "cde"))
           (Some 2%Z) None 5).
  reflexivity.
Defined.

(** X3, an instance: a short text on a terminal of 80 columns. *)
Lemma formatResponse_short_lines_witness :
  LogSource.formatResponse 0 (code_units "hi") None (Some 80%Z)
  = Some [code_units "hi"].
Proof.
  apply (formatResponse_short_lines (code_units "hi") None (Some 80%Z) 0).
  constructor; [|constructor]. vm_compute. discriminate.
Defined.

(** X4, an instance: a terminal of four columns leaves a width of zero. *)
Lemma formatResponse_narrow_terminal_witness :
  LogSource.formatResponse 1000 (code_units "hi") None (Some 4%Z) = None.
Proof.
  apply (formatResponse_narrow_terminal (code_units "hi") None (Some 4%Z)
           (code_units "hi")).
  - vm_compute. discriminate.
  - apply list_elem_of_here.
  - reflexivity.
Defined.


(** What is listed in that instance. *)
Lemma findConversationFiles_tree :
  LogSource.findConversationFiles projectsDir None tree
  = [("demo", [transcript])].
Proof. vm_compute. reflexivity. Qed.


(** X14, an instance: three passes of the program over a transcript that
    holds one line. *)
Lemma unchanged_files_print_nothing_witness :
  Forall (λ out, out = [])
    (LogSource.passes projectsDir None
       (replicate 3 (holding (line_one +:+ newline))) LogSource.initial).2.
Proof.
  assert (LogSource.visited projectsDir None (holding (line_one +:+ newline))
          = [transcript]) as Hv by (vm_compute; reflexivity).
  apply (unchanged_files_print_nothing (H := Json.runtime)).
  - intros f Hf. rewrite Hv in Hf. apply list_elem_of_singleton in Hf as ->.
    reflexivity.
  - intros f Hf. left. reflexivity.
Defined.

(** X15, an instance: the transcript, found empty, gains two lines, on a
    terminal of 80 columns. *)
Lemma fetched_message_printed_or_known_witness :
  let st := LogSource.state
              (LogSource.tick projectsDir None (holding "") LogSource.initial) in
  let p := LogSource.tick projectsDir None (holding two_lines) st in
  ∃ n, ∀ m,
    m ∈ LogSource.extractAllMessages (LogSource.view (holding two_lines) transcript)
          (Some 0) n →
    LogSource.id m ∈ LogSource.seen_of (LogSource.state p) transcript ∧
    (LogSource.id m ∈ LogSource.seen_of st transcript ∨
     ∃ m' lines,
       m' ∈ LogSource.from_file transcript (LogSource.emitted p) ∧
       LogSource.id m' = LogSource.id m ∧
       LogSource.formatResponse (length (code_units (LogSource.text m')))
         (code_units (LogSource.text m')) None (Some 80%Z) = Some lines ∧
       lines ≠ []).
Proof.
  apply (fetched_message_printed_or_known (H := Json.runtime)).
  - vm_compute. discriminate.
  - vm_compute. reflexivity.
  - vm_compute. apply list_elem_of_here.
Defined.

(** X16, an instance: two conversations and the filter [be]. *)
Lemma kv_printed_matches_filter_witness :
  Forall (λ e, ∃ s, KvSource.name (KvSource.conversation e) = VStr s ∧
                    includes (toLowerCase s) (toLowerCase "be") = true)
    (concat (KvSource.passes (Some "be")
               [store [beta_row; alpha_row]
                  [("b1", json "{'text':'one'}"); ("a1", json "{'text':'two'}")]]
               KvSource.initial).2).
Proof.
  apply (kv_printed_matches_filter (H := Json.runtime)). discriminate.
Defined.

(** X17, an instance: the bubble of the header is not in the store. *)
Lemma visited_bubble_not_printed_again_witness :
  let db := store [beta_row] [] in
  let st := (KvSource.visit_header db beta beta_header KvSource.initial).1.1 in
  Forall (λ e, KvSource.bubbleId e ≠ IdStr "b1")
    (concat (KvSource.passes None
               [store [beta_row] [("b1", json "{'text':'late'}")]] st).2).
Proof.
  intros db st.
  apply (visited_bubble_not_printed_again (H := Json.runtime) None db beta
           beta_header KvSource.initial (VStr "b1") (VNum parsed_one)).
  - reflexivity.
  - reflexivity.
  - reflexivity.
  - done.
Defined.

(** X18, an instance: two more passes over a store with one conversation. *)
Lemma unchanged_store_prints_nothing_witness :
  let db := store [beta_row] [("b1", json "{'text':'one'}")] in
  Forall (λ out, out = [])
    (KvSource.passes None (replicate 2 db)
       (KvSource.state (KvSource.tick None db KvSource.initial))).2.
Proof.
  intros db. apply (unchanged_store_prints_nothing (H := Json.runtime)).
  assert (KvSource.loadConversations db = [beta]) as ->
    by (vm_compute; reflexivity).
  constructor; [|constructor]. intros hs [= <-].
  constructor; [|constructor]. intros v [= <-]. reflexivity.
Defined.

(** X19, an instance: two lines appended to an empty transcript. *)
Lemma appended_lines_are_read_witness :
  let v := {| LogSource.size := Some 0;
              LogSource.bytes := "" +:+ LogSource.written [line_one; line_two];
              LogSource.fault := None |} in
  LogSource.stream_lines v (String.length "") = [line_one; line_two] ∧
  LogSource.extractAllMessages v (Some (String.length "")) 0
  = LogSource.lines_messages 0 [line_one; line_two].
Proof.
  apply (appended_lines_are_read (H := Json.runtime) (Some 0) "" [line_one; line_two] 0).
  repeat (constructor; [reflexivity|]). constructor.
Defined.

(** X21, an instance: the transcript, found empty, gains a line. *)
Lemma no_notice_after_message_witness :
  let st := LogSource.state
              (LogSource.tick projectsDir None (holding "") LogSource.initial) in
  Forall (λ b, b = false)
    (LogSource.notices projectsDir None
       [{| LogSource.root := Some []; LogSource.view := λ _, missing |}]
       (LogSource.state
          (LogSource.tick projectsDir None (holding (line_one +:+ newline)) st))).
Proof.
  intros st. apply (no_notice_after_message (H := Json.runtime)).
  vm_compute. discriminate.
Defined.

(** X22, an instance: three passes over an empty store. *)
Lemma kv_notice_every_pass_witness :
  KvSource.notices None (replicate 3 (store [] [])) KvSource.initial
  = replicate 3 true.
Proof.
  apply (kv_notice_every_pass (H := Json.runtime)); reflexivity.
Defined.



End FurtherRuns.
